(** * dRAID permutation maps and Fletcher checksums

    A shallow embedding of two C sources of the repository:

    - [src/hktest/draid.c]: the declustered-RAID permutation generator
      ([permute_devs], [new_map], [develop_map]) and the resilver-load
      evaluators ([is_broken], [eval_resilver], [eval_decluster]);
    - [src/module/zcommon/zfs_fletcher.c]: the Fletcher-2 and Fletcher-4
      scalar checksum kernels and the incremental entry points.

    C arrays are lists indexed by [Z]; every array access goes through
    [load] and [store], which yield [Undefined] outside the bounds of the
    array (undefined behaviour in C).  A failing [assert] yields [Aborted].
    Unsigned 64-bit arithmetic wraps modulo [2^64].  Signed [int]
    arithmetic is carried out in [Z] where the values stay far inside the
    range of [int] for maps within the limits [MAX_DEVS] and [MAX_ROWS]
    of the source (indices, counters of devices and rows).  The
    accumulators of [eval_decluster] do leave the range within these
    limits: they are reduced to 32 bits ([int32]), and what is proved of
    their values is proved where they stay inside the range of [int].
    [double] is IEEE 754 binary64, the kernel's primitive [float]. *)

From Stdlib Require Import ZArith Lia List.
From Stdlib Require Import Floats.PrimFloat Numbers.Cyclic.Int63.Uint63.
From stdpp Require Import base list strings.

Local Open Scope Z_scope.

(** ** Outcomes of a C call *)

Inductive outcome (A : Type) : Type :=
| Returned (a : A)   (* the call returns [a] *)
| Aborted            (* an [assert] failed: the process is aborted *)
| Undefined.         (* out-of-bounds access or division by zero *)

Arguments Returned {A} a.
Arguments Aborted {A}.
Arguments Undefined {A}.

#[global] Instance outcome_ret : MRet outcome := fun A a => Returned a.

#[global] Instance outcome_bind : MBind outcome := fun A B f x =>
  match x with
  | Returned a => f a
  | Aborted => Aborted
  | Undefined => Undefined
  end.

(** [a[i]] as an rvalue. *)
Definition load {A} (a : list A) (i : Z) : outcome A :=
  if i <? 0 then Undefined
  else match a !! Z.to_nat i with
       | Some x => Returned x
       | None => Undefined
       end.

(** [a[i] = x]. *)
Definition store {A} (a : list A) (i : Z) (x : A) : outcome (list A) :=
  if (0 <=? i) && (i <? Z.of_nat (length a))
  then Returned (<[Z.to_nat i := x]> a)
  else Undefined.

(** [assert(c)]. *)
Definition assert (c : bool) : outcome unit :=
  if c then Returned tt else Aborted.

(** [for (i = lo; i < hi; i++) body], for a body that assigns neither [i]
    nor [hi]; [st] is the state the body updates. *)
Fixpoint for_loop {St} (n : nat) (i : Z) (body : Z -> St -> outcome St)
    (st : St) : outcome St :=
  match n with
  | O => Returned st
  | S n' => st' ← body i st; for_loop n' (i + 1) body st'
  end.

Definition for_range {St} (lo hi : Z) (body : Z -> St -> outcome St)
    (st : St) : outcome St :=
  for_loop (Z.to_nat (hi - lo)) lo body st.

(** ** zfs_fletcher.c *)

Module Fletcher.

(** [uint64_t] arithmetic. *)
Definition u64 (z : Z) : Z := z mod 2 ^ 64.

(** Modelled from the spec: the checksum record [zio_cksum_t] and the macro
    [ZIO_SET_CHECKSUM] of the missing header [sys/spa.h]; the fingerprint is
    a fixed record of four 64-bit words set from the four accumulators. *)
Record zio_cksum_t : Type := ZIO_SET_CHECKSUM {
  zc_word0 : Z;
  zc_word1 : Z;
  zc_word2 : Z;
  zc_word3 : Z
}.

(** Modelled from the spec: the byte-order primitives [BSWAP_32] and
    [BSWAP_64] of the missing header [sys/byteorder.h], the 32-bit and
    64-bit byte reverse, written with the shifts and masks of that header. *)
Definition BSWAP_8 (x : Z) : Z := Z.land x 255.
Definition BSWAP_16 (x : Z) : Z :=
  Z.lor (Z.shiftl (BSWAP_8 x) 8) (BSWAP_8 (Z.shiftr x 8)).
Definition BSWAP_32 (x : Z) : Z :=
  Z.lor (Z.shiftl (BSWAP_16 x) 16) (BSWAP_16 (Z.shiftr x 16)).
Definition BSWAP_64 (x : Z) : Z :=
  Z.lor (Z.shiftl (BSWAP_32 x) 32) (BSWAP_32 (Z.shiftr x 32)).

(** The buffer of [fletcher_2_*] is the list of its [uint64_t] words.  The
    loop [for (...; ip < ipend; ip += 2)] runs for [ip = 0, 2, 4, ...] below
    [ipend = size / 8]: iteration [k] reads [ip[0]] and [ip[1]] at
    [ip = 2k]. *)
Definition fletcher_2_loop (swap : Z -> Z) (buf : list Z) (size : Z)
  : outcome (Z * Z * Z * Z) :=
  let ipend := size / 8 in
  for_range 0 ((ipend + 1) / 2)
    (fun k '(a0, b0, a1, b1) =>
       w0 ← load buf (2 * k);
       w1 ← load buf (2 * k + 1);
       let a0 := u64 (a0 + swap w0) in
       let a1 := u64 (a1 + swap w1) in
       let b0 := u64 (b0 + a0) in
       let b1 := u64 (b1 + a1) in
       Returned (a0, b0, a1, b1))
    (0, 0, 0, 0).

Definition fletcher_2_native (buf : list Z) (size : Z) : outcome zio_cksum_t :=
  '(a0, b0, a1, b1) ← fletcher_2_loop (fun w => w) buf size;
  Returned (ZIO_SET_CHECKSUM a0 a1 b0 b1).

Definition fletcher_2_byteswap (buf : list Z) (size : Z)
  : outcome zio_cksum_t :=
  '(a0, b0, a1, b1) ← fletcher_2_loop BSWAP_64 buf size;
  Returned (ZIO_SET_CHECKSUM a0 a1 b0 b1).

Definition fletcher_4_scalar_init (zcp : zio_cksum_t) : zio_cksum_t :=
  ZIO_SET_CHECKSUM 0 0 0 0.

(** The buffer of [fletcher_4_*] is the list of its [uint32_t] words;
    [ip] runs from [0] to [ipend = size / 4]. *)
Definition fletcher_4_loop (swap : Z -> Z) (buf : list Z) (size : Z)
    (zcp : zio_cksum_t) : outcome (Z * Z * Z * Z) :=
  let ipend := size / 4 in
  for_range 0 ipend
    (fun ip '(a, b, c, d) =>
       w ← load buf ip;
       let a := u64 (a + swap w) in
       let b := u64 (b + a) in
       let c := u64 (c + b) in
       let d := u64 (d + c) in
       Returned (a, b, c, d))
    (zc_word0 zcp, zc_word1 zcp, zc_word2 zcp, zc_word3 zcp).

Definition fletcher_4_scalar (buf : list Z) (size : Z) (zcp : zio_cksum_t)
  : outcome zio_cksum_t :=
  '(a, b, c, d) ← fletcher_4_loop (fun w => w) buf size zcp;
  Returned (ZIO_SET_CHECKSUM a b c d).

Definition fletcher_4_scalar_byteswap (buf : list Z) (size : Z)
    (zcp : zio_cksum_t) : outcome zio_cksum_t :=
  '(a, b, c, d) ← fletcher_4_loop BSWAP_32 buf size zcp;
  Returned (ZIO_SET_CHECKSUM a b c d).

Definition fletcher_4_incremental_native (buf : list Z) (size : Z)
    (zcp : zio_cksum_t) : outcome zio_cksum_t :=
  fletcher_4_scalar buf size zcp.

Definition fletcher_4_incremental_byteswap (buf : list Z) (size : Z)
    (zcp : zio_cksum_t) : outcome zio_cksum_t :=
  fletcher_4_scalar_byteswap buf size zcp.

(** One round of the Fletcher-4 chain on the word [w]:
    [a += w; b += a; c += b; d += c], every sum modulo [2^64]. *)
Definition fletcher_4_round (zc : zio_cksum_t) (w : Z) : zio_cksum_t :=
  let a := u64 (zc_word0 zc + w) in
  let b := u64 (zc_word1 zc + a) in
  let c := u64 (zc_word2 zc + b) in
  let d := u64 (zc_word3 zc + c) in
  ZIO_SET_CHECKSUM a b c d.

(** The series of the header of the source: for the words
    [f_0 .. f_(n-1)] the sum of [wt i * f_(n-i)] over [i = 1 .. n]; the
    first word has the weight [wt n], the last one [wt 1]. *)
Fixpoint series (wt : Z -> Z) (f : list Z) : Z :=
  match f with
  | [] => 0
  | w :: f' => wt (Z.of_nat (length f)) * w + series wt f'
  end.

(** The coefficients [i*(i+1)/2] of [c_n] and [i*(i+1)*(i+2)/6] of
    [d_n]. *)
Definition triangular (i : Z) : Z := i * (i + 1) / 2.
Definition tetrahedral (i : Z) : Z := i * (i + 1) * (i + 2) / 6.

(** The buffer of [fletcher_2_*] whose words alternate between the two
    lanes of the loop: [ip[0]] of every iteration is the first component
    of a pair, [ip[1]] the second. *)
Definition interleave (ps : list (Z * Z)) : list Z :=
  ps ≫= fun p : Z * Z => [fst p; snd p].

(** *** The choice of the implementation

    The build without [HAVE_AVX] and [HAVE_AVX2]: the scalar
    implementation is the only one.  [kernel] is the build flag
    [_KERNEL]. *)

(** Modelled from the spec: [strlen] and [strncmp] of the C library, on
    strings without the terminating NUL; [strncmp] compares at most [n]
    characters as [unsigned char] and gives the difference of the first
    two that differ, the end of a string counting as NUL. *)
Definition strlen (s : string) : nat := String.length s.

Fixpoint strncmp (s1 s2 : string) (n : nat) : Z :=
  match n with
  | O => 0
  | S n' =>
      match s1, s2 with
      | String.EmptyString, String.EmptyString => 0
      | String.EmptyString, String c2 _ => - Z.of_N (Ascii.N_of_ascii c2)
      | String c1 _, String.EmptyString => Z.of_N (Ascii.N_of_ascii c1)
      | String c1 s1', String c2 s2' =>
          if Ascii.eqb c1 c2 then strncmp s1' s2' n'
          else Z.of_N (Ascii.N_of_ascii c1) - Z.of_N (Ascii.N_of_ascii c2)
      end
  end.

(** Modelled from the spec: [EINVAL] of [errno.h]. *)
Definition EINVAL : Z := 22.

Definition ARRAY_SIZE {A} (a : list A) : Z := Z.of_nat (length a).

(** Modelled from the spec: the descriptor [fletcher_4_func_t] of the
    missing header [zfs_fletcher.h], with the members that this file
    uses; a function pointer that may be [NULL] is an [option], and
    [valid] holds what the call [valid()] answers. *)
Record fletcher_4_func_t : Type := Build_fletcher_4_func_t {
  init : zio_cksum_t -> zio_cksum_t;
  fini : option (zio_cksum_t -> zio_cksum_t);
  compute : list Z -> Z -> zio_cksum_t -> outcome zio_cksum_t;
  compute_byteswap : list Z -> Z -> zio_cksum_t -> outcome zio_cksum_t;
  valid : option bool;
  name : string
}.

Definition fletcher_4_scalar_calls : fletcher_4_func_t := {|
  init := fletcher_4_scalar_init;
  fini := None;
  compute := fletcher_4_scalar;
  compute_byteswap := fletcher_4_scalar_byteswap;
  valid := None;
  name := "scalar"
|}.

Definition fletcher_4_algos : list fletcher_4_func_t :=
  [fletcher_4_scalar_calls].

(** [enum fletcher_selector]. *)
Definition FLETCHER_FASTEST : Z := 0.
Definition FLETCHER_SCALAR : Z := 1.
Definition FLETCHER_CYCLE : Z := 2.

Definition selector_names (kernel : bool) : list string :=
  ["fastest"; "scalar"] ++ (if kernel then [] else ["cycle"]).

(** The static variables of the file; a pointer to a descriptor is an
    [option], [None] for [NULL]. *)
Record fletcher_4_state : Type := Build_fletcher_4_state {
  fletcher_4_chosen : option fletcher_4_func_t;
  fletcher_4_fastest : option fletcher_4_func_t;
  fletcher_4_impl_selector : Z;
  cycle_count : Z
}.

(** The initial values of the static variables. *)
Definition fletcher_4_static : fletcher_4_state :=
  Build_fletcher_4_state None None FLETCHER_SCALAR 0.

(** The search loop of [fletcher_4_impl_set]: the value of [i] when the
    loop ends, the index of the first name that [selector] starts with
    or the number of the names. *)
Fixpoint selector_search (selector : string) (names : list string) (i : Z)
  : Z :=
  match names with
  | [] => i
  | nm :: names' =>
      if strncmp selector nm (strlen nm) =? 0 then i
      else selector_search selector names' (i + 1)
  end.

(** [fletcher_4_impl_set]: the result and the new values of the static
    variables; the mutex has no part in a sequential run. *)
Definition fletcher_4_impl_set (kernel : bool) (selector : string)
    (st : fletcher_4_state) : Z * fletcher_4_state :=
  let i := selector_search selector (selector_names kernel) 0 in
  let idx := i in
  if ARRAY_SIZE (selector_names kernel) <=? i then (- EINVAL, st)
  else if fletcher_4_impl_selector st =? idx then (0, st)
  else
    let chosen :=
      if idx =? FLETCHER_FASTEST then fletcher_4_fastest st
      else if (idx =? FLETCHER_SCALAR) || (idx =? FLETCHER_CYCLE)
           then Some fletcher_4_scalar_calls
      else fletcher_4_chosen st in
    (0, Build_fletcher_4_state chosen (fletcher_4_fastest st) idx
          (cycle_count st)).

(** The loop [while (1)] of [fletcher_4_impl_get] with the counter
    [cycle_count], an [unsigned int]; [fuel] bounds the number of the
    iterations, and [None] says that it did not suffice. *)
Fixpoint cycle_loop (fuel : nat) (count : Z)
  : option (outcome (fletcher_4_func_t * Z)) :=
  match fuel with
  | O => None
  | S fuel' =>
      let index := (count + 1) mod 2 ^ 32 in
      match load fletcher_4_algos (index mod ARRAY_SIZE fletcher_4_algos) with
      | Returned algo =>
          match valid algo with
          | Some false => cycle_loop fuel' index
          | _ => Some (Returned (algo, index))
          end
      | Aborted => Some Aborted
      | Undefined => Some Undefined
      end
  end.

(** [fletcher_4_impl_get]: the descriptor, [None] for [NULL], and the new
    values of the static variables. *)
Definition fletcher_4_impl_get (kernel : bool) (fuel : nat)
    (st : fletcher_4_state)
  : option (outcome (option fletcher_4_func_t * fletcher_4_state)) :=
  if negb kernel && (fletcher_4_impl_selector st =? FLETCHER_CYCLE) then
    r ← cycle_loop fuel (cycle_count st);
    Some ('(algo, count) ← r;
          Returned (Some algo,
                    Build_fletcher_4_state (fletcher_4_chosen st)
                      (fletcher_4_fastest st) (fletcher_4_impl_selector st)
                      count))
  else Some (Returned (fletcher_4_chosen st, st)).

(** [fletcher_4_native]; [algo->init] on [NULL] is undefined. *)
Definition fletcher_4_native (kernel : bool) (fuel : nat) (buf : list Z)
    (size : Z) (zcp : zio_cksum_t) (st : fletcher_4_state)
  : option (outcome (zio_cksum_t * fletcher_4_state)) :=
  r ← fletcher_4_impl_get kernel fuel st;
  Some ('(algo, st) ← r;
        match algo with
        | None => Undefined
        | Some algo =>
            let zcp := init algo zcp in
            zcp ← compute algo buf size zcp;
            let zcp := match fini algo with
                       | Some f => f zcp
                       | None => zcp
                       end in
            Returned (zcp, st)
        end).

Definition fletcher_4_byteswap (kernel : bool) (fuel : nat) (buf : list Z)
    (size : Z) (zcp : zio_cksum_t) (st : fletcher_4_state)
  : option (outcome (zio_cksum_t * fletcher_4_state)) :=
  r ← fletcher_4_impl_get kernel fuel st;
  Some ('(algo, st) ← r;
        match algo with
        | None => Undefined
        | Some algo =>
            let zcp := init algo zcp in
            zcp ← compute_byteswap algo buf size zcp;
            let zcp := match fini algo with
                       | Some f => f zcp
                       | None => zcp
                       end in
            Returned (zcp, st)
        end).

(** [fletcher_4_init]; the benchmark runs the kernel of every valid
    implementation on a scratch buffer and drops the fingerprint, and
    the clock decides how often: [1 + bench i] times for the
    implementation [i], the loop being a [do ... while].  The statistics
    of [kstat] are not part of the model. *)
Definition fletcher_4_init (kernel : bool) (bench : Z -> nat)
    (st : fletcher_4_state) : outcome fletcher_4_state :=
  '(best_run_count, best_run_index) ←
    for_range 0 (ARRAY_SIZE fletcher_4_algos)
      (fun i '(best_run_count, best_run_index) =>
         algo ← load fletcher_4_algos i;
         match valid algo with
         | Some false => Returned (best_run_count, best_run_index)
         | _ =>
             let run_count := 1 + Z.of_nat (bench i) in
             if run_count >? best_run_count
             then Returned (run_count, i)
             else Returned (best_run_count, best_run_index)
         end)
      (0, 0);
  fastest ← load fletcher_4_algos best_run_index;
  let st := Build_fletcher_4_state (fletcher_4_chosen st) (Some fastest)
              (fletcher_4_impl_selector st) (cycle_count st) in
  Returned (snd (fletcher_4_impl_set kernel "fastest" st)).

End Fletcher.

(** ** draid.c *)

Module Draid.

Definition MAX_GROUPSIZE : Z := 32.
Definition MAX_GROUPS : Z := 128.
Definition MAX_SPARES : Z := 100.
Definition MAX_DEVS : Z := MAX_GROUPSIZE * MAX_GROUPS + MAX_SPARES.
Definition MAX_ROWS : Z := 16384.

Definition EVAL_WORST : Z := 0.
Definition EVAL_MEAN : Z := 1.
Definition EVAL_RMS : Z := 2.

Record map_t : Type := Build_map_t {
  ndevs : Z;
  ngroups : Z;
  groupsz : list Z;
  nspares : Z;
  nrows : Z;
  rows : list (list Z);   (* each row maps all drives *)
  nbroken : Z;            (* #broken drives *)
  broken : list Z         (* which drives are broken *)
}.

Definition set_rows (map : map_t) (r : list (list Z)) : map_t :=
  Build_map_t (ndevs map) (ngroups map) (groupsz map) (nspares map)
    (nrows map) r (nbroken map) (broken map).

Definition set_nbroken (map : map_t) (n : Z) : map_t :=
  Build_map_t (ndevs map) (ngroups map) (groupsz map) (nspares map)
    (nrows map) (rows map) n (broken map).

Definition set_broken (map : map_t) (b : list Z) : map_t :=
  Build_map_t (ndevs map) (ngroups map) (groupsz map) (nspares map)
    (nrows map) (rows map) (nbroken map) b.

Record pair_t : Type := Build_pair_t {
  value : Z;
  order : Z
}.

(** [malloc(sizeof(int) * n)]: an array of [n] cells.  The cells of a fresh
    block are indeterminate; the code writes every cell before it reads
    it, and the model fills them with [0]. *)
Definition malloc_ints (n : Z) : list Z := replicate (Z.to_nat n) 0.

(** A variable length array [T a[n]]; its size shall be positive. *)
Definition vla {A} (n : Z) (x : A) : outcome (list A) :=
  if n <=? 0 then Undefined else Returned (replicate (Z.to_nat n) x).

(** Modelled from the spec: [mrand48] of the C library, the 48-bit linear
    congruential generator [X' = (0x5DEECE66D * X + 0xB) mod 2^48] whose
    result is the signed value of the 32 high-order bits of [X'].  The
    state of the stream is [X].  The program never seeds the stream; the
    state it then starts from is the C library's (glibc starts from [0],
    the System V libraries from [0x1234ABCD330E]), and what is proved of
    the program is proved for every state. *)
Definition rand48_next (x : Z) : Z := (25214903917 * x + 11) mod 2 ^ 48.

Definition mrand48 (x : Z) : Z * Z :=
  let x' := rand48_next x in
  let hi := x' / 2 ^ 16 in
  (if hi <? 2 ^ 31 then hi else hi - 2 ^ 32, x').

(** A sample state of the stream for the examples: [0x1234ABCD330E], the
    initial state of the System V libraries. *)
Definition rand48_default : Z := 20017429951246.

(** [permute_devs(in, out, ndevs)] with the state [rng] of the random
    stream; the result is the contents of [out] and the new stream state. *)
Definition permute_devs (inp out : list Z) (ndevs : Z) (rng : Z)
  : outcome (list Z * Z) :=
  tmp ← vla ndevs (Build_pair_t 0 0);
  if ndevs =? 2 then
    (* if just two devices, swap the order *)
    i ← load inp 0;
    j ← load inp 1;
    out ← store out 0 j;
    out ← store out 1 i;
    Returned (out, rng)
  else
    (* otherwise, assign random order *)
    '(tmp, rng) ← for_range 0 ndevs
      (fun i '(tmp, rng) =>
         v ← load inp i;
         let '(r, rng) := mrand48 rng in
         tmp ← store tmp i (Build_pair_t v r);
         Returned (tmp, rng))
      (tmp, rng);
    (* sort drives according to the order *)
    tmp ← for_range 0 ndevs
      (fun i tmp =>
         for_range (i + 1) ndevs
           (fun j tmp =>
              ti ← load tmp i;
              tj ← load tmp j;
              if order ti >? order tj then
                tmp ← store tmp i tj;
                store tmp j ti
              else Returned tmp)
           tmp)
      tmp;
    (* store the sorted drives in out *)
    out ← for_range 0 ndevs
      (fun i out => ti ← load tmp i; store out i (value ti))
      out;
    Returned (out, rng).

(** [new_map]; the row table is the list of the rows, each row a block of
    its own.  Integer division by zero is undefined. *)
Definition new_map (ndevs ngroups nspares nrows : Z) (rng : Z)
  : outcome (map_t * Z) :=
  let gs := malloc_ints ngroups in
  groupsz ← (if ngroups =? 0 then Undefined
             else Returned (Z.quot (ndevs - nspares) ngroups));
  gs ← for_range 0 ngroups (fun i gs => store gs i groupsz) gs;
  let rows := replicate (Z.to_nat nrows) [] in
  '(rows, rng) ← for_range 0 nrows
    (fun i '(rows, rng) =>
       let row := malloc_ints ndevs in
       if i =? 0 then
         row ← for_range 0 ndevs (fun j row => store row j j) row;
         rows ← store rows i row;
         Returned (rows, rng)
       else
         prev ← load rows (i - 1);
         '(row, rng) ← permute_devs prev row ndevs rng;
         rows ← store rows i row;
         Returned (rows, rng))
    (rows, rng);
  Returned (Build_map_t ndevs ngroups gs nspares nrows rows 0
              (malloc_ints nspares), rng).

(** [develop_map]; [%] is the remainder of C ([Z.rem]); inside the loop on
    [j] the divisor [bmap->ndevs] is positive. *)
Definition develop_map (bmap : map_t) (rng : Z) : outcome (map_t * Z) :=
  '(dmap, rng) ← new_map (ndevs bmap) (ngroups bmap) (nspares bmap)
                   (nrows bmap * ndevs bmap) rng;
  drows ← for_range 0 (nrows bmap)
    (fun base drows =>
       for_range 0 (ndevs bmap)
         (fun add drows =>
            for_range 0 (ndevs bmap)
              (fun j drows =>
                 brow ← load (rows bmap) base;
                 v ← load brow j;
                 drow ← load drows (base * ndevs bmap + add);
                 drow ← store drow j (Z.rem (v + add) (ndevs bmap));
                 store drows (base * ndevs bmap + add) drow)
              drows)
         drows)
    (rows dmap);
  Returned (set_rows dmap drows, rng).

(** [is_broken]: the loop returns [1] at the first [i < nbroken] with
    [dev == broken[i]]. *)
Fixpoint is_broken_loop (n : nat) (i : Z) (map : map_t) (dev : Z)
  : outcome Z :=
  match n with
  | O => Returned 0
  | S n' =>
      b ← load (broken map) i;
      if dev =? b then Returned 1 else is_broken_loop n' (i + 1) map dev
  end.

Definition is_broken (map : map_t) (dev : Z) : outcome Z :=
  is_broken_loop (Z.to_nat (nbroken map)) 0 map dev.

(** The scan [for (k = 0; k < groupsz && !fix; k++) fix = is_broken(...)]
    of [eval_resilver], entered with [fix == 0]; the result is [fix]. *)
Fixpoint group_scan_loop (n : nat) (k : Z) (map : map_t) (each_row : list Z)
    (index : Z) : outcome Z :=
  match n with
  | O => Returned 0
  | S n' =>
      dev ← load each_row (index + k);
      fix_ ← is_broken map dev;
      if fix_ =? 0 then group_scan_loop n' (k + 1) map each_row index
      else Returned fix_
  end.

Definition group_scan (map : map_t) (each_row : list Z) (index groupsz : Z)
  : outcome Z :=
  group_scan_loop (Z.to_nat groupsz) 0 map each_row index.

(** The loop [while (is_broken(map, each_row[spareIndex]))
    { spareIndex++; assert(spareIndex < ndevs); }] of [eval_resilver],
    entered after [assert(spareIndex < ndevs)]; the result is the value of
    [spareIndex] at the exit.  [n] is [ndevs - spareIndex], positive at
    every entry of the loop test: the assertion stops the loop before [n]
    reaches [0]. *)
Fixpoint skip_broken (n : nat) (map : map_t) (each_row : list Z)
    (spareIndex : Z) : outcome Z :=
  match n with
  | O => Aborted
  | S n' =>
      dev ← load each_row spareIndex;
      b ← is_broken map dev;
      if b =? 0 then Returned spareIndex
      else
        let spareIndex := spareIndex + 1 in
        _ ← assert (spareIndex <? ndevs map);
        skip_broken n' map each_row spareIndex
  end.

(** The body of the loop on [k] over the slots of a group with a failure;
    the state is [(spareIndex, reads, writes)]. *)
Definition resilver_slot (map : map_t) (each_row : list Z) (index k : Z)
    (st : Z * list Z * list Z) : outcome (Z * list Z * list Z) :=
  let '(spareIndex, reads, writes) := st in
  dev ← load each_row (index + k);
  b ← is_broken map dev;
  if b =? 0 then
    r ← load reads dev;
    reads ← store reads dev (r + 1);
    Returned (spareIndex, reads, writes)
  else
    _ ← assert (spareIndex <? ndevs map);
    spareIndex ← skip_broken (Z.to_nat (ndevs map - spareIndex)) map
                   each_row spareIndex;
    sdev ← load each_row spareIndex;
    w ← load writes sdev;
    writes ← store writes sdev (w + 1);
    Returned (spareIndex + 1, reads, writes).

(** The statements of a group with a failure: [spareIndex] starts at the
    first spare slot, then the loop on [k]. *)
Definition resilver_failed_group (map : map_t) (each_row : list Z)
    (index groupsz : Z) (reads writes : list Z)
  : outcome (Z * list Z * list Z) :=
  let spareIndex := ndevs map - nspares map in
  for_range 0 groupsz (resilver_slot map each_row index)
    (spareIndex, reads, writes).

(** The body of the loop on [j] over the groups of a row; the state is
    [(index, reads, writes)]. *)
Definition resilver_group (map : map_t) (each_row : list Z) (j : Z)
    (st : Z * list Z * list Z) : outcome (Z * list Z * list Z) :=
  let '(index, reads, writes) := st in
  groupsz ← load (groupsz map) j;
  fix_ ← group_scan map each_row index groupsz;
  if fix_ =? 0 then
    (* if no failure in this group *)
    Returned (index + groupsz, reads, writes)
  else
    (* if there is failure in this group *)
    '(_, reads, writes) ←
      resilver_failed_group map each_row index groupsz reads writes;
    Returned (index + groupsz, reads, writes).

(** The body of the loop on [i] over the rows. *)
Definition resilver_row (map : map_t) (i : Z) (st : list Z * list Z)
  : outcome (list Z * list Z) :=
  let '(reads, writes) := st in
  each_row ← load (rows map) i;
  '(_, reads, writes) ←
    for_range 0 (ngroups map) (resilver_group map each_row)
      (0, reads, writes);
  Returned (reads, writes).

(** The counters [reads] and [writes] after the loop over all rows. *)
Definition resilver_rows (map : map_t) : outcome (list Z * list Z) :=
  reads ← vla (ndevs map) 0;
  writes ← vla (ndevs map) 0;
  for_range 0 (nrows map) (resilver_row map) (reads, writes).

(** The loop that finds the drive with most I/O; the state is
    [(max_read, max_write, max_ios)]. *)
Definition most_io (ndevs : Z) (reads writes : list Z) : outcome (Z * Z * Z) :=
  for_range 0 ndevs
    (fun i '(max_read, max_write, max_ios) =>
       r ← load reads i;
       w ← load writes i;
       Returned (if r >? max_read then r else max_read,
                 if w >? max_write then w else max_write,
                 if r + w >? max_ios then r + w else max_ios))
    (0, 0, 0).

(** [eval_resilver]; the map is passed by pointer, the result carries the
    map as the call leaves it.  The output of [printf] is not modelled. *)
Definition eval_resilver (map : map_t) (print : Z) : outcome (Z * map_t) :=
  '(reads, writes) ← resilver_rows map;
  '(_, _, max_ios) ← most_io (ndevs map) reads writes;
  Returned (max_ios, map).

(** The conversion of an [int] to [double], exact on the range of [int]. *)
Definition double_of_int (z : Z) : float :=
  if z <? 0 then PrimFloat.opp (PrimFloat.of_uint63 (Uint63.of_Z (- z)))
  else PrimFloat.of_uint63 (Uint63.of_Z z).

(** The locals of [eval_decluster] that the loops update. *)
Record decluster_t : Type := Build_decluster_t {
  worst1 : Z;
  worst2 : Z;
  sum : Z;
  sumsq : Z;
  max_ios : Z;
  iter_num : Z
}.

Definition int32 (z : Z) : Z := (z + 2 ^ 31) mod 2 ^ 32 - 2 ^ 31.

(** [iter_num++; sum += ios; sumsq += ios*ios;
     if (max_ios < ios) { max_ios = ios; worst1 = w1; worst2 = w2; }]
    on the [int] locals. *)
Definition accumulate (acc : decluster_t) (ios w1 w2 : Z) : decluster_t :=
  Build_decluster_t
    (if max_ios acc <? ios then w1 else worst1 acc)
    (if max_ios acc <? ios then w2 else worst2 acc)
    (int32 (sum acc + ios))
    (int32 (sumsq acc + int32 (ios * ios)))
    (if max_ios acc <? ios then ios else max_ios acc)
    (int32 (iter_num acc + 1)).

(** The loops of [eval_decluster] that inject the failures; the state is
    the map and the locals. *)
Definition inject_failures (map : map_t) (faults : Z)
  : outcome (map_t * decluster_t) :=
  for_range 0 (ndevs map)
    (fun f1 '(map, acc) =>
       b ← store (broken map) 0 f1;
       let map := set_broken map b in
       if faults <? 2 then
         (* evaluate the single failure *)
         '(ios, map) ← eval_resilver map 1;
         Returned (map, accumulate acc ios f1 (worst2 acc))
       else
         for_range (f1 + 1) (ndevs map)
           (fun f2 '(map, acc) =>
              (* evaluate the double failures *)
              b ← store (broken map) 1 f2;
              let map := set_broken map b in
              '(ios, map) ← eval_resilver map 1;
              Returned (map, accumulate acc ios f1 f2))
           (map, acc))
    (map, Build_decluster_t (-1) (-1) 0 0 0 0).

(** [eval_decluster]; the result carries the map as the call leaves it.
    [default: assert(0)] aborts. *)
Definition eval_decluster (map : map_t) (how faults print : Z)
  : outcome (float * map_t) :=
  let map := set_nbroken map faults in
  '(map, acc) ← inject_failures map faults;
  let map := set_nbroken map 0 in
  val ←
    (if how =? EVAL_WORST then Returned (double_of_int (max_ios acc))
     else if how =? EVAL_MEAN then
       Returned (PrimFloat.div (double_of_int (sum acc))
                   (double_of_int (iter_num acc)))
     else if how =? EVAL_RMS then
       Returned (PrimFloat.sqrt
                   (PrimFloat.div (double_of_int (sumsq acc))
                      (double_of_int (iter_num acc))))
     else _ ← assert false; Returned 0%float);
  Returned (PrimFloat.mul (PrimFloat.div val (double_of_int (nrows map)))
              (double_of_int (ngroups map)), map).

(** *** Well-formed dimensions and maps *)

(** The dimensions the program accepts: the groups have one size
    [groupsz = (ndevs - nspares) / ngroups] between [1] and
    [MAX_GROUPSIZE], they and the spares cover the devices, and the counts
    are within the limits of the source. *)
Definition valid_dims (ndevs ngroups nspares nrows : Z) : Prop :=
  let groupsz := Z.quot (ndevs - nspares) ngroups in
  0 < ngroups <= MAX_GROUPS /\
  0 <= nspares <= MAX_SPARES /\
  1 <= groupsz <= MAX_GROUPSIZE /\
  ngroups * groupsz + nspares = ndevs /\
  0 < nrows <= MAX_ROWS.

(** The sum of the sizes of the groups. *)
Definition sum_list (l : list Z) : Z := fold_right Z.add 0 l.

(** A map as [new_map] and [develop_map] build it: every row is a
    permutation of the devices, the groups lie before the spare slots, and
    [broken] has room for [nspares] devices. *)
Record wf_map (map : map_t) : Prop := Build_wf_map {
  wf_ndevs : 0 < ndevs map;
  wf_nspares : 0 <= nspares map <= ndevs map;
  wf_ngroups_pos : 0 < ngroups map;
  wf_ngroups : Z.of_nat (length (groupsz map)) = ngroups map;
  wf_groupsz : Forall (fun g => 0 <= g) (groupsz map);
  wf_groups : sum_list (groupsz map) <= ndevs map - nspares map;
  wf_nrows : Z.of_nat (length (rows map)) = nrows map;
  wf_rows : Forall (fun row => row ≡ₚ seqZ 0 (ndevs map)) (rows map);
  wf_broken : Z.of_nat (length (broken map)) = nspares map
}.

(** The number of calls of [mrand48] in [new_map]: [ndevs] for each row
    after the first one, none when [ndevs == 2]. *)
Definition new_map_draws (ndevs nrows : Z) : nat :=
  if ndevs =? 2 then O else Z.to_nat (ndevs * (nrows - 1)).

(** The slots of a row with their random tags: slot [j] holds the result
    of the [j]-th call of [mrand48] from the state [rng]. *)
Definition tagged (inp : list Z) (rng : Z) : list pair_t :=
  imap (fun j v =>
          Build_pair_t v (fst (mrand48 (Nat.iter j rand48_next rng)))) inp.

(** The tags of [tmp] ascend. *)
Definition sorted_by_order (tmp : list pair_t) : Prop :=
  forall a b x y, (a < b)%nat -> tmp !! a = Some x -> tmp !! b = Some y ->
                  order x <= order y.

(** The table of rows that [new_map] builds: row 0 is the identity, every
    other row comes from the row before it by [permute_devs] (for
    [ndevs != 2]: its devices in the ascending order of their random tags),
    and every row is a permutation of the devices. *)
Definition row_table (n : Z) (rws : list (list Z)) : Prop :=
  (forall row, rws !! 0%nat = Some row -> row = seqZ 0 n) /\
  (forall i prev row, rws !! i = Some prev -> rws !! S i = Some row ->
     exists out r,
       Z.of_nat (length out) = n /\
       permute_devs prev out n r =
         Returned (row, Nat.iter (if n =? 2 then O else Z.to_nat n)
                          rand48_next r) /\
       (n <> 2 ->
        exists tmp, tmp ≡ₚ tagged prev r /\ sorted_by_order tmp /\
                    row = value <$> tmp)) /\
  Forall (fun row => row ≡ₚ seqZ 0 n) rws.

(** The progress of the loops of [develop_map]: the table [drows] has the
    shape of the developed map, and every slot [j] of a row
    [base * ndevs + add] that lies before slot [pj] of row [pr] holds
    [(bmap->rows[base][j] + add) % ndevs]. *)
Definition develop_inv (bmap : map_t) (pr pj : Z) (drows : list (list Z))
  : Prop :=
  Z.of_nat (length drows) = nrows bmap * ndevs bmap /\
  Forall (fun drow => Z.of_nat (length drow) = ndevs bmap) drows /\
  forall base add j brow v,
    0 <= add < ndevs bmap ->
    base * ndevs bmap + add < pr \/ (base * ndevs bmap + add = pr /\ j < pj) ->
    load (rows bmap) base = Returned brow ->
    load brow j = Returned v ->
    exists drow,
      load drows (base * ndevs bmap + add) = Returned drow /\
      load drow j = Returned (Z.rem (v + add) (ndevs bmap)).

(** The map that [new_map(6, 2, 2, 3)] builds from the sample state
    [rand48_default] of the random stream: two groups of two devices and
    two spares. *)
Definition sample_map : map_t :=
  Build_map_t 6 2 [2; 2] 2 3
    [[0; 1; 2; 3; 4; 5]; [1; 5; 4; 2; 0; 3]; [5; 0; 1; 3; 4; 2]] 0 [0; 0].

(** *** The I/O of a resilver *)

(** The failed devices: the first [nbroken] cells of [broken]. *)
Definition broken_set (map : map_t) : list Z :=
  take (Z.to_nat (nbroken map)) (broken map).

(** [counters[dev]++]. *)
Definition bump (counters : list Z) (dev : Z) : list Z :=
  if dev <? 0 then counters
  else match counters !! Z.to_nat dev with
       | Some c => <[Z.to_nat dev := c + 1]> counters
       | None => counters
       end.

(** One I/O on each device of [devs], in order. *)
Definition tally (devs : list Z) (counters : list Z) : list Z :=
  fold_left bump devs counters.

(** The devices in the [groupsz] slots of a row from slot [index] on. *)
Definition group_devs (each_row : list Z) (index groupsz : Z) : list Z :=
  take (Z.to_nat groupsz) (drop (Z.to_nat index) each_row).

(** The devices in the slots of a row from slot [spareIndex] on that have
    not failed, in slot order. *)
Definition healthy_from (map : map_t) (each_row : list Z) (spareIndex : Z)
  : list Z :=
  filter (fun d => d ∉ broken_set map) (drop (Z.to_nat spareIndex) each_row).

(** The healthy spares of a row: the devices in its spare slots that have
    not failed, in slot order. *)
Definition healthy_spares (map : map_t) (each_row : list Z) : list Z :=
  healthy_from map each_row (ndevs map - nspares map).

(** The failed devices fit the spares: they are distinct and no more than
    [nspares]. *)
Definition failures_fit (map : map_t) : Prop :=
  0 <= nbroken map <= nspares map /\ NoDup (broken_set map).

(** The groups of a row as pairs [(index, groupsz)]: the first slot of the
    group and its size, for the sizes [gs] from slot [index] on. *)
Fixpoint group_slots (index : Z) (gs : list Z) : list (Z * Z) :=
  match gs with
  | [] => []
  | g :: gs' => (index, g) :: group_slots (index + g) gs'
  end.

(** The devices a group has read: every device of the group that has not
    failed, when a device of the group has failed. *)
Definition group_reads (map : map_t) (each_row : list Z) (grp : Z * Z)
  : list Z :=
  let devs := group_devs each_row (fst grp) (snd grp) in
  if decide (filter (fun d => d ∈ broken_set map) devs = []) then []
  else filter (fun d => d ∉ broken_set map) devs.

(** The devices a group has written: as many of the healthy spares of the
    row, from the first one on, as the group has failed devices. *)
Definition group_writes (map : map_t) (each_row : list Z) (grp : Z * Z)
  : list Z :=
  let devs := group_devs each_row (fst grp) (snd grp) in
  take (length (filter (fun d => d ∈ broken_set map) devs))
    (healthy_spares map each_row).

Definition row_reads (map : map_t) (each_row : list Z) : list Z :=
  concat (group_reads map each_row <$> group_slots 0 (groupsz map)).

Definition row_writes (map : map_t) (each_row : list Z) : list Z :=
  concat (group_writes map each_row <$> group_slots 0 (groupsz map)).

Definition map_reads (map : map_t) : list Z :=
  concat (row_reads map <$> rows map).

Definition map_writes (map : map_t) : list Z :=
  concat (row_writes map <$> rows map).

(** The largest element of a list of counters, [0] for none. *)
Definition max_of (l : list Z) : Z := fold_left Z.max l 0.

(** The sample map as [eval_decluster] passes it to [eval_resilver] for the
    double failure of the devices [0] and [2]. *)
Definition sample_failed : map_t :=
  set_broken (set_nbroken sample_map 2) [0; 2].

(** *** The failures that [eval_decluster] injects *)

(** The map with [nbroken = faults] and the devices [fs] in the first
    cells of [broken]. *)
Definition with_failures (map : map_t) (faults : Z) (fs : list Z) : map_t :=
  set_broken (set_nbroken map faults) (fs ++ drop (length fs) (broken map)).

(** The single failures [f1 < n], in the order of the loop. *)
Definition single_failures (n : Z) : list (list Z) :=
  (fun f1 => [f1]) <$> seqZ 0 n.

(** The pairs [f1 < f2 < n] with [f1 < k], in the order of the loops. *)
Definition double_failures (k n : Z) : list (list Z) :=
  f1 ← seqZ 0 k; (fun f2 => [f1; f2]) <$> seqZ (f1 + 1) (n - (f1 + 1)).

Definition failure_sets (n faults : Z) : list (list Z) :=
  if faults <? 2 then single_failures n else double_failures n n.

Definition sum_squares (l : list Z) : Z := sum_list ((fun x => x * x) <$> l).

(** The locals of [eval_decluster] hold the sum, the sum of the squares
    and the number of the results [ios], each as an [int], and the
    largest of them. *)
Definition acc_of (acc : decluster_t) (ios : list Z) : Prop :=
  sum acc = int32 (sum_list ios) /\
  sumsq acc = int32 (sum_squares ios) /\
  max_ios acc = max_of ios /\
  iter_num acc = int32 (Z.of_nat (length ios)).

(** [eval_resilver] on the map with the failures [fs] returns [io] and
    leaves the map as it is. *)
Definition resilver_result (map : map_t) (faults : Z) (fs : list Z) (io : Z)
  : Prop :=
  eval_resilver (with_failures map faults fs) 1 =
  Returned (io, with_failures map faults fs).

(** [eval_decluster] and [eval_resilver] leave the dimensions, the sizes of
    the groups and the rows of the map as they are. *)
Definition same_layout (map map' : map_t) : Prop :=
  ndevs map' = ndevs map /\
  ngroups map' = ngroups map /\
  groupsz map' = groupsz map /\
  nspares map' = nspares map /\
  nrows map' = nrows map /\
  rows map' = rows map.

(** The map that [new_map(3, 1, 1, 2)] builds from the sample state
    [rand48_default] of the random stream: one group of two devices and
    one spare. *)
Definition sample_one_spare : map_t :=
  Build_map_t 3 1 [2] 1 2 [[0; 1; 2]; [1; 2; 0]] 0 [0].

(** The table of the developed map: for every base row, in order, its
    [ndevs] shifts [add = 0, ..., ndevs - 1], each slot
    [(v + add) % ndevs]. *)
Definition developed_rows (bmap : map_t) : list (list Z) :=
  rows bmap ≫= fun brow : list Z =>
    (fun add => (fun v => Z.rem (v + add) (ndevs bmap)) <$> brow)
      <$> seqZ 0 (ndevs bmap).

(** The degraded groups of the map: the groups [(index, groupsz)] of all
    rows, in the order of the loops, that hold a failed device. *)
Definition degraded_groups (map : map_t) : list (Z * Z) :=
  rows map ≫= fun each_row : list Z =>
    filter (fun grp => filter (fun d => d ∈ broken_set map)
                         (group_devs each_row (fst grp) (snd grp)) <> [])
      (group_slots 0 (groupsz map)).

(** [draid_permutation_generate]; the heap is not part of the model, so
    the two calls of [free_map] leave no trace. *)
Definition draid_permutation_generate (rng : Z) : outcome (Z * Z) :=
  let ndevs := 12 in
  let ngroups := 2 in
  let nspares := 2 in
  let nrows := 100 in
  '(bmap, rng) ← new_map ndevs ngroups nspares nrows rng;
  '(val, bmap) ← eval_decluster bmap EVAL_MEAN 1 1;
  '(dmap, rng) ← develop_map bmap rng;
  Returned (0, rng).

(** [main]; the arguments are not used. *)
Definition main (rng : Z) : outcome (Z * Z) :=
  '(_, rng) ← draid_permutation_generate rng;
  Returned (0, rng).

End Draid.

(** * Properties *)

(** ** The outcome monad, arrays and loops *)

Lemma bind_Returned_l {A B} (a : A) (f : A -> outcome B) :
  Returned a ≫= f = f a.
Proof. reflexivity. Qed.

Section Outcome.
Context {A B : Type}.

Lemma bind_Returned (x : outcome A) (f : A -> outcome B) (b : B) :
  x ≫= f = Returned b <-> exists a, x = Returned a /\ f a = Returned b.
Proof.
  destruct x as [a| |]; simpl; split.
  - intros H. exists a. auto.
  - intros (a' & Ha & Hf). injection Ha as ->. exact Hf.
  - discriminate.
  - intros (a' & Ha & _). discriminate.
  - discriminate.
  - intros (a' & Ha & _). discriminate.
Qed.

Lemma load_Returned (a : list A) (i : Z) (x : A) :
  load a i = Returned x <-> 0 <= i /\ a !! Z.to_nat i = Some x.
Proof.
  unfold load. destruct (Z.ltb_spec i 0) as [Hi|Hi].
  - split; [discriminate | lia].
  - destruct (a !! Z.to_nat i) as [y|]; split.
    + intros [= ->]. auto.
    + intros [_ [= ->]]. reflexivity.
    + discriminate.
    + intros [_ [=]].
Qed.

Lemma load_nat (a : list A) (n : nat) (x : A) :
  a !! n = Some x -> load a (Z.of_nat n) = Returned x.
Proof. intros H. apply load_Returned. rewrite Nat2Z.id. split; [lia | exact H]. Qed.

Lemma load_in_bounds (a : list A) (i : Z) :
  0 <= i < Z.of_nat (length a) -> exists x, load a i = Returned x.
Proof.
  intros Hi. destruct (lookup_lt_is_Some_2 a (Z.to_nat i)) as [x Hx]; [lia|].
  exists x. apply load_Returned. split; [lia | exact Hx].
Qed.

Lemma load_bounds (a : list A) (i : Z) (x : A) :
  load a i = Returned x -> 0 <= i < Z.of_nat (length a).
Proof.
  intros [Hi Hx]%load_Returned. apply lookup_lt_Some in Hx. lia.
Qed.

Lemma load_fmap (f : A -> B) (a : list A) (i : Z) :
  load (f <$> a) i = x ← load a i; Returned (f x).
Proof.
  unfold load. destruct (i <? 0); [reflexivity|].
  rewrite list_lookup_fmap. destruct (a !! Z.to_nat i); reflexivity.
Qed.

Lemma store_Returned (a : list A) (i : Z) (x : A) (a' : list A) :
  store a i x = Returned a' <->
  0 <= i < Z.of_nat (length a) /\ a' = <[Z.to_nat i := x]> a.
Proof.
  unfold store.
  destruct (Z.leb_spec 0 i), (Z.ltb_spec i (Z.of_nat (length a))); simpl;
    split; try discriminate; try lia.
  - intros [= <-]. split; [lia | reflexivity].
  - intros [_ ->]. reflexivity.
Qed.

Lemma store_in_bounds (a : list A) (i : Z) (x : A) :
  0 <= i < Z.of_nat (length a) ->
  store a i x = Returned (<[Z.to_nat i := x]> a).
Proof. intros Hi. apply store_Returned. auto. Qed.
End Outcome.

Section Loops.
Context {St : Type}.
Implicit Types (body : Z -> St -> outcome St) (P : Z -> St -> Prop).

Lemma for_loop_ext body1 body2 n i st :
  (forall k s, i <= k < i + Z.of_nat n -> body1 k s = body2 k s) ->
  for_loop n i body1 st = for_loop n i body2 st.
Proof.
  revert i st. induction n as [|n IH]; intros i st Hb; [reflexivity|].
  simpl. rewrite Hb by lia. destruct (body2 i st) as [s| |]; simpl; auto.
  apply IH. intros k s' Hk. apply Hb. lia.
Qed.

(** Total correctness: an invariant that every iteration re-establishes,
    returning, holds at the exit, and the loop returns. *)
Lemma for_loop_total P body n i st :
  P i st ->
  (forall k s, i <= k < i + Z.of_nat n -> P k s ->
               exists s', body k s = Returned s' /\ P (k + 1) s') ->
  exists st', for_loop n i body st = Returned st' /\ P (i + Z.of_nat n) st'.
Proof.
  revert i st. induction n as [|n IH]; intros i st H0 Hstep.
  - exists st. split; [reflexivity|]. replace (i + Z.of_nat 0) with i by lia.
    exact H0.
  - destruct (Hstep i st ltac:(lia) H0) as (s1 & Hb & H1).
    destruct (IH (i + 1) s1 H1) as (s2 & Hl & H2).
    { intros k s Hk. apply Hstep. lia. }
    exists s2. simpl. rewrite Hb. simpl. split; [exact Hl|].
    replace (i + Z.of_nat (S n)) with (i + 1 + Z.of_nat n) by lia. exact H2.
Qed.

(** Partial correctness: when the loop returns, an invariant that every
    returning iteration preserves holds at the exit. *)
Lemma for_loop_partial P body n i st st' :
  P i st ->
  (forall k s s', i <= k < i + Z.of_nat n -> P k s ->
                  body k s = Returned s' -> P (k + 1) s') ->
  for_loop n i body st = Returned st' -> P (i + Z.of_nat n) st'.
Proof.
  revert i st. induction n as [|n IH]; intros i st H0 Hstep Hl.
  - injection Hl as <-. replace (i + Z.of_nat 0) with i by lia. exact H0.
  - simpl in Hl. apply bind_Returned in Hl as (s1 & Hb & Hl).
    replace (i + Z.of_nat (S n)) with (i + 1 + Z.of_nat n) by lia.
    apply (IH (i + 1) s1); [|intros k s s' Hk; apply Hstep; lia|exact Hl].
    apply (Hstep i st); [lia|exact H0|exact Hb].
Qed.

Lemma for_range_total P body lo hi st :
  lo <= hi -> P lo st ->
  (forall k s, lo <= k < hi -> P k s ->
               exists s', body k s = Returned s' /\ P (k + 1) s') ->
  exists st', for_range lo hi body st = Returned st' /\ P hi st'.
Proof.
  intros Hle H0 Hstep. unfold for_range.
  destruct (for_loop_total P body (Z.to_nat (hi - lo)) lo st H0)
    as (st' & Hl & HP).
  { intros k s Hk. apply Hstep. lia. }
  exists st'. split; [exact Hl|].
  replace (lo + Z.of_nat (Z.to_nat (hi - lo))) with hi in HP by lia. exact HP.
Qed.

Lemma for_range_empty body lo hi st :
  hi <= lo -> for_range lo hi body st = Returned st.
Proof.
  intros H. unfold for_range. replace (Z.to_nat (hi - lo)) with O by lia.
  reflexivity.
Qed.

Lemma for_range_ext body1 body2 lo hi st :
  (forall k s, lo <= k < hi -> body1 k s = body2 k s) ->
  for_range lo hi body1 st = for_range lo hi body2 st.
Proof.
  intros H. apply for_loop_ext. intros k s Hk. apply H. lia.
Qed.
Lemma for_range_preserves (Q : St -> Prop) body lo hi st st' :
Q st ->
(forall k s s', lo <= k < hi -> Q s -> body k s = Returned s' -> Q s') ->
for_range lo hi body st = Returned st' -> Q st'.
Proof.
intros H0 Hstep Hl. unfold for_range in Hl.
apply (for_loop_partial (fun _ s => Q s) body (Z.to_nat (hi - lo)) lo st st'
         H0); [|exact Hl].
intros k s s' Hk. apply Hstep. lia.
Qed.

End Loops.

(** A loop that loads the cells [i, i + n) of an array and folds them into
    its state. *)
Lemma for_loop_fold {A St} (f : St -> A -> St) (a : list A)
    (body : Z -> St -> outcome St) (n : nat) (i : nat) (st : St) :
  (forall k s, body k s = x ← load a k; Returned (f s x)) ->
  (i + n <= length a)%nat ->
  for_loop n (Z.of_nat i) body st = Returned (fold_left f (take n (drop i a)) st).
Proof.
  intros Hb. revert i st. induction n as [|n IH]; intros i st Hlen.
  - reflexivity.
  - destruct (lookup_lt_is_Some_2 a i) as [x Hx]; [lia|].
    simpl. rewrite Hb, (load_nat _ _ _ Hx). simpl.
    replace (Z.of_nat i + 1) with (Z.of_nat (S i)) by lia.
    rewrite IH by lia. rewrite (drop_S _ _ _ Hx). reflexivity.
Qed.

(** ** zfs_fletcher.c: the scalar kernels *)

Module FletcherProofs.
Import Fletcher.

Lemma fletcher_4_fold_words (swap : Z -> Z) (buf : list Z) (zcp : zio_cksum_t) :
  fold_left
    (fun '(a, b, c, d) w =>
       let a := u64 (a + swap w) in
       let b := u64 (b + a) in
       let c := u64 (c + b) in
       let d := u64 (d + c) in
       (a, b, c, d))
    buf (zc_word0 zcp, zc_word1 zcp, zc_word2 zcp, zc_word3 zcp) =
  let zc := fold_left (fun zc w => fletcher_4_round zc (swap w)) buf zcp in
  (zc_word0 zc, zc_word1 zc, zc_word2 zc, zc_word3 zc).
Proof.
  revert zcp. induction buf as [|w buf IH]; intros zcp; [reflexivity|].
  cbn [fold_left]. rewrite <- IH. reflexivity.
Qed.

(** The loop of the Fletcher-4 kernels is the fold of the rounds over the
    words of the buffer. *)
Lemma fletcher_4_loop_rounds (swap : Z -> Z) (buf : list Z) (size : Z)
    (zcp : zio_cksum_t) :
  size / 4 = Z.of_nat (length buf) ->
  fletcher_4_loop swap buf size zcp =
  let zc := fold_left (fun zc w => fletcher_4_round zc (swap w)) buf zcp in
  Returned (zc_word0 zc, zc_word1 zc, zc_word2 zc, zc_word3 zc).
Proof.
  intros Hsize. unfold fletcher_4_loop, for_range.
  rewrite Hsize, Z.sub_0_r, Nat2Z.id. change 0 with (Z.of_nat 0).
  rewrite (for_loop_fold
             (fun '(a, b, c, d) w =>
                let a := u64 (a + swap w) in
                let b := u64 (b + a) in
                let c := u64 (c + b) in
                let d := u64 (d + c) in
                (a, b, c, d)) buf);
    [|intros k [[[a b] c] d]; reflexivity|simpl; lia].
  rewrite drop_0, firstn_all, fletcher_4_fold_words. reflexivity.
Qed.

Lemma fletcher_4_scalar_rounds (buf : list Z) (size : Z) (zcp : zio_cksum_t) :
  size / 4 = Z.of_nat (length buf) ->
  fletcher_4_scalar buf size zcp = Returned (fold_left fletcher_4_round buf zcp).
Proof.
  intros Hsize. unfold fletcher_4_scalar.
  rewrite fletcher_4_loop_rounds by exact Hsize. simpl.
  destruct (fold_left _ buf zcp); reflexivity.
Qed.

Lemma u64_range (z : Z) : 0 <= u64 z < 2 ^ 64.
Proof. unfold u64. apply Z.mod_pos_bound. lia. Qed.

(** C2.  The Fletcher-4 scalar kernel starts from the accumulators
    [(a, b, c, d)] of the state it is passed, consumes the buffer as
    32-bit words, performs one round [a += w; b += a; c += b; d += c]
    (every sum modulo [2^64], so that the accumulators stay 64-bit words)
    for each word [w] in order -- one more word on the buffer is one more
    round on the fingerprint -- and writes the accumulators back as the
    fingerprint.  From the zero state, the four words [1, 2, 3, 4] give
    [a = 10, b = 20, c = 35, d = 56]. *)
Theorem fletcher_4_scalar_spec (buf : list Z) (size : Z) (zcp : zio_cksum_t) :
  size / 4 = Z.of_nat (length buf) ->
  fletcher_4_scalar [] 0 zcp = Returned zcp /\
  (exists zc, fletcher_4_scalar buf size zcp = Returned zc /\
     zc = fold_left fletcher_4_round buf zcp /\
     forall w, fletcher_4_scalar (buf ++ [w]) (size + 4) zcp =
       Returned (ZIO_SET_CHECKSUM
                   ((zc_word0 zc + w) mod 2 ^ 64)
                   ((zc_word1 zc + (zc_word0 zc + w) mod 2 ^ 64) mod 2 ^ 64)
                   ((zc_word2 zc + (zc_word1 zc + (zc_word0 zc + w) mod 2 ^ 64)
                                     mod 2 ^ 64) mod 2 ^ 64)
                   ((zc_word3 zc + (zc_word2 zc +
                       (zc_word1 zc + (zc_word0 zc + w) mod 2 ^ 64) mod 2 ^ 64)
                                     mod 2 ^ 64) mod 2 ^ 64))) /\
  (forall zc w,
     let zc' := fletcher_4_round zc w in
     0 <= zc_word0 zc' < 2 ^ 64 /\ 0 <= zc_word1 zc' < 2 ^ 64 /\
     0 <= zc_word2 zc' < 2 ^ 64 /\ 0 <= zc_word3 zc' < 2 ^ 64) /\
  fletcher_4_scalar [1; 2; 3; 4] 16 (fletcher_4_scalar_init zcp) =
    Returned (ZIO_SET_CHECKSUM 10 20 35 56).
Proof.
  intros Hsize. split; [|split; [|split]].
  - destruct zcp; reflexivity.
  - eexists. split; [apply fletcher_4_scalar_rounds, Hsize|].
    split; [reflexivity|]. intros w.
    rewrite fletcher_4_scalar_rounds.
    + rewrite fold_left_app. reflexivity.
    + rewrite length_app. simpl.
      replace (size + 4) with (size + 1 * 4) by lia.
      rewrite Z.div_add by lia. lia.
  - intros zc w. simpl. repeat split; apply u64_range.
  - reflexivity.
Qed.

Lemma fletcher_4_scalar_spec_witness :
  fletcher_4_scalar [7; 4294967295] 8 (ZIO_SET_CHECKSUM 1 2 3 (2 ^ 64 - 1)) =
  Returned (ZIO_SET_CHECKSUM 4294967303 4294967313 4294967326 4294967338).
Proof.
  destruct (fletcher_4_scalar_spec [7; 4294967295] 8
              (ZIO_SET_CHECKSUM 1 2 3 (2 ^ 64 - 1)) eq_refl)
    as (_ & (zc & Hrun & Hzc & _) & _ & _).
  rewrite Hrun, Hzc. reflexivity.
Defined.

(** C7.  For a buffer split on a 4-byte boundary into [buf1] followed by
    [buf2], the incremental entry point run from the zero state over
    [buf1] and then, from the state it left, over [buf2] gives the
    fingerprint of one run of the scalar kernel from the zero state over
    the whole buffer. *)
Theorem fletcher_4_incremental_split (buf1 buf2 : list Z) (size1 size2 : Z)
    (zcp : zio_cksum_t) :
  size1 = 4 * Z.of_nat (length buf1) ->
  size2 = 4 * Z.of_nat (length buf2) ->
  exists zc1 zc,
    fletcher_4_incremental_native buf1 size1 (fletcher_4_scalar_init zcp)
      = Returned zc1 /\
    fletcher_4_incremental_native buf2 size2 zc1 = Returned zc /\
    fletcher_4_scalar (buf1 ++ buf2) (size1 + size2)
      (fletcher_4_scalar_init zcp) = Returned zc.
Proof.
  intros H1 H2. unfold fletcher_4_incremental_native.
  eexists. eexists. split; [|split].
  - apply fletcher_4_scalar_rounds. subst size1.
    rewrite Z.mul_comm, Z.div_mul; lia.
  - apply fletcher_4_scalar_rounds. subst size2.
    rewrite Z.mul_comm, Z.div_mul; lia.
  - rewrite fletcher_4_scalar_rounds.
    + rewrite fold_left_app. reflexivity.
    + subst. rewrite length_app, <- Z.mul_add_distr_l, Z.mul_comm, Z.div_mul; lia.
Qed.

Lemma fletcher_4_incremental_split_witness :
  exists zc1 zc,
    fletcher_4_incremental_native [1; 2] 8
      (fletcher_4_scalar_init (ZIO_SET_CHECKSUM 9 9 9 9)) = Returned zc1 /\
    fletcher_4_incremental_native [3; 4] 8 zc1 = Returned zc /\
    fletcher_4_scalar ([1; 2] ++ [3; 4]) (8 + 8)
      (fletcher_4_scalar_init (ZIO_SET_CHECKSUM 9 9 9 9)) = Returned zc.
Proof.
  apply (fletcher_4_incremental_split [1; 2] [3; 4] 8 8
           (ZIO_SET_CHECKSUM 9 9 9 9)); reflexivity.
Defined.

(** C8.  The native kernel on the buffer whose words are byte-reversed is
    the byteswap kernel on the buffer itself: [fletcher_2_native] against
    [fletcher_2_byteswap] on 64-bit words, and [fletcher_4_scalar] against
    [fletcher_4_scalar_byteswap] on 32-bit words from the same state. *)
Theorem fletcher_byteswap_native (buf : list Z) (size : Z) (zcp : zio_cksum_t) :
  fletcher_2_native (BSWAP_64 <$> buf) size = fletcher_2_byteswap buf size /\
  fletcher_4_scalar (BSWAP_32 <$> buf) size zcp =
    fletcher_4_scalar_byteswap buf size zcp.
Proof.
  split.
  - unfold fletcher_2_native, fletcher_2_byteswap, fletcher_2_loop.
    f_equal. apply for_range_ext. intros k [[[a0 b0] a1] b1] _.
    rewrite !load_fmap.
    destruct (load buf (2 * k)) as [w0| |]; simpl; auto.
    destruct (load buf (2 * k + 1)) as [w1| |]; reflexivity.
  - unfold fletcher_4_scalar, fletcher_4_scalar_byteswap, fletcher_4_loop.
    f_equal. apply for_range_ext. intros k [[[a b] c] d] _.
    rewrite load_fmap. destruct (load buf k) as [w| |]; reflexivity.
Qed.

(** ** zfs_fletcher.c: the series of the accumulators *)

Lemma series_ext (wt wt' : Z -> Z) (f : list Z) :
  (forall i, 1 <= i <= Z.of_nat (length f) -> wt i = wt' i) ->
  series wt f = series wt' f.
Proof.
  induction f as [|w f IH]; intros H; [reflexivity|].
  cbn [series]. rewrite H by (cbn [length]; lia). rewrite IH; [reflexivity|].
  intros i Hi. apply H. cbn [length]. lia.
Qed.

Lemma series_add (wt wt' : Z -> Z) (f : list Z) :
  series (fun i => wt i + wt' i) f = series wt f + series wt' f.
Proof.
  induction f as [|w f IH]; [reflexivity|]. cbn [series]. rewrite IH. lia.
Qed.

Lemma series_app (wt : Z -> Z) (f g : list Z) :
  series wt (f ++ g) =
  series (fun i => wt (i + Z.of_nat (length g))) f + series wt g.
Proof.
  induction f as [|w f IH]; [reflexivity|].
  cbn [app series length]. rewrite IH, length_app.
  rewrite !Nat2Z.inj_succ, Nat2Z.inj_add.
  replace (Z.succ (Z.of_nat (length f)) + Z.of_nat (length g))
    with (Z.succ (Z.of_nat (length f) + Z.of_nat (length g))) by lia.
  lia.
Qed.

Lemma series_snoc (wt : Z -> Z) (f : list Z) (w : Z) :
  series wt (f ++ [w]) = series (fun i => wt (i + 1)) f + wt 1 * w.
Proof. rewrite series_app. cbn [series length]. change (Z.of_nat 1) with 1. lia. Qed.

Lemma triangular_succ (i : Z) : triangular (i + 1) = triangular i + (i + 1).
Proof.
  unfold triangular.
  replace ((i + 1) * (i + 1 + 1)) with (i * (i + 1) + (i + 1) * 2) by lia.
  apply Z.div_add. lia.
Qed.

Lemma triangular_double (i : Z) : 2 * triangular i = i * (i + 1).
Proof.
  unfold triangular.
  assert (H : (i * (i + 1)) mod 2 = 0).
  { rewrite Z.mul_mod, Z.add_mod by lia.
    pose proof (Z.mod_pos_bound i 2 ltac:(lia)) as Hb.
    assert (Hc : i mod 2 = 0 \/ i mod 2 = 1) by lia.
    destruct Hc as [-> | ->]; reflexivity. }
  pose proof (Z.div_mod (i * (i + 1)) 2 ltac:(lia)). lia.
Qed.

Lemma tetrahedral_succ (i : Z) :
  tetrahedral (i + 1) = tetrahedral i + triangular (i + 1).
Proof.
  unfold tetrahedral.
  pose proof (triangular_double (i + 1)) as Hd.
  replace ((i + 1) * (i + 1 + 1) * (i + 1 + 2))
    with (i * (i + 1) * (i + 2) + triangular (i + 1) * 6) by lia.
  apply Z.div_add. lia.
Qed.

Lemma u64_add_l (x y : Z) : u64 (u64 x + y) = u64 (x + y).
Proof. unfold u64. apply Zplus_mod_idemp_l. Qed.

Lemma u64_add_r (x y : Z) : u64 (x + u64 y) = u64 (x + y).
Proof. unfold u64. apply Zplus_mod_idemp_r. Qed.

(** The rounds from the zero state leave the four series, modulo
    [2^64]. *)
Lemma fletcher_4_rounds_series (f : list Z) :
  fold_left fletcher_4_round f (ZIO_SET_CHECKSUM 0 0 0 0) =
  ZIO_SET_CHECKSUM (u64 (series (fun _ => 1) f)) (u64 (series (fun i => i) f))
    (u64 (series triangular f)) (u64 (series tetrahedral f)).
Proof.
  induction f as [|w f IH] using rev_ind; [reflexivity|].
  rewrite fold_left_app, IH. cbn [fold_left]. unfold fletcher_4_round.
  cbn [zc_word0 zc_word1 zc_word2 zc_word3]. cbv zeta.
  repeat (rewrite u64_add_l || rewrite u64_add_r).
  rewrite !series_snoc.
  rewrite (series_ext (fun i => triangular (i + 1))
             (fun i => triangular i + (i + 1)))
    by (intros; apply triangular_succ).
  rewrite (series_ext (fun i => tetrahedral (i + 1))
             (fun i => tetrahedral i + (triangular i + (i + 1))))
    by (intros; rewrite tetrahedral_succ, triangular_succ; reflexivity).
  rewrite !series_add.
  change (triangular 1) with 1. change (tetrahedral 1) with 1.
  f_equal; f_equal; lia.
Qed.

(** X11.  The closed form of the Fletcher-4 fingerprint, as the header
    of the source gives it: from the zero state, the kernel leaves
    [a = sum f], [b = sum i * f], [c = sum i*(i+1)/2 * f] and
    [d = sum i*(i+1)*(i+2)/6 * f], where the word [f_(n-i)] has the
    index [i] (the last word counts once, the first one [n] times),
    each modulo [2^64]. *)
Theorem fletcher_4_scalar_series (buf : list Z) (size : Z) (zcp : zio_cksum_t) :
  size / 4 = Z.of_nat (length buf) ->
  fletcher_4_scalar buf size (fletcher_4_scalar_init zcp) =
  Returned (ZIO_SET_CHECKSUM
              (u64 (series (fun _ => 1) buf))
              (u64 (series (fun i => i) buf))
              (u64 (series triangular buf))
              (u64 (series tetrahedral buf))).
Proof.
  intros Hsize. rewrite fletcher_4_scalar_rounds by exact Hsize.
  unfold fletcher_4_scalar_init. rewrite fletcher_4_rounds_series. reflexivity.
Qed.

Lemma fletcher_4_scalar_series_witness :
  fletcher_4_scalar [5; 6; 7] 12
    (fletcher_4_scalar_init (ZIO_SET_CHECKSUM 1 1 1 1)) =
  Returned (ZIO_SET_CHECKSUM 18 34 55 81).
Proof.
  rewrite (fletcher_4_scalar_series [5; 6; 7] 12 (ZIO_SET_CHECKSUM 1 1 1 1))
    by reflexivity.
  reflexivity.
Defined.

(** A series of words in [[0, M]] is at most [M] times the sum [W n] of
    its [n] weights. *)
Lemma series_bound (wt W : Z -> Z) (M : Z) (f : list Z) :
  (forall i, 0 <= i -> 0 <= wt (i + 1)) ->
  W 0 = 0 ->
  (forall i, 0 <= i -> W (i + 1) = W i + wt (i + 1)) ->
  Forall (fun w => 0 <= w <= M) f ->
  0 <= series wt f <= M * W (Z.of_nat (length f)).
Proof.
  intros Hwt H0 HW. induction 1 as [|w f Hw _ IH].
  - cbn [series length]. change (Z.of_nat 0) with 0. rewrite H0. lia.
  - cbn [series length]. rewrite Nat2Z.inj_succ, <- Z.add_1_r.
    rewrite HW by lia.
    pose proof (Hwt (Z.of_nat (length f)) ltac:(lia)) as Hpos. nia.
Qed.

Lemma weight_sum_mono (wt W : Z -> Z) (n m : Z) :
  (forall i, 0 <= i -> 0 <= wt (i + 1)) ->
  (forall i, 0 <= i -> W (i + 1) = W i + wt (i + 1)) ->
  0 <= n <= m -> W n <= W m.
Proof.
  intros Hwt HW [Hn Hm].
  replace m with (n + Z.of_nat (Z.to_nat (m - n))) by lia.
  induction (Z.to_nat (m - n)) as [|k IH].
  - rewrite Z.add_0_r. lia.
  - rewrite Nat2Z.inj_succ, <- Z.add_1_r, Z.add_assoc, HW by lia.
    pose proof (Hwt (n + Z.of_nat k) ltac:(lia)). lia.
Qed.

Lemma tetrahedral_six (i : Z) :
  0 <= i -> 6 * tetrahedral i = i * (i + 1) * (i + 2).
Proof.
  intros Hi. pattern i. apply natlike_ind; [reflexivity| |exact Hi].
  intros k Hk IH. rewrite <- Z.add_1_r, tetrahedral_succ.
  pose proof (triangular_double (k + 1)). lia.
Qed.

Lemma triangular_nonneg (i : Z) : 0 <= i -> 0 <= triangular i.
Proof. intros Hi. pose proof (triangular_double i). nia. Qed.

Lemma tetrahedral_nonneg (i : Z) : 0 <= i -> 0 <= tetrahedral i.
Proof. intros Hi. pose proof (tetrahedral_six i Hi). nia. Qed.

(** The sum of the first [n] coefficients of [d_n]. *)
Lemma tetrahedral_sum_succ (i : Z) :
  0 <= i ->
  series tetrahedral (replicate (Z.to_nat (i + 1)) 1) =
  series tetrahedral (replicate (Z.to_nat i) 1) + tetrahedral (i + 1).
Proof.
  intros Hi. rewrite Z2Nat.inj_add by lia. change (Z.to_nat 1) with 1%nat.
  rewrite Nat.add_1_r. cbn [replicate series length].
  rewrite length_replicate, Nat2Z.inj_succ, Z2Nat.id by lia.
  rewrite <- Z.add_1_r. lia.
Qed.

Lemma u64_small (x : Z) : 0 <= x < 2 ^ 64 -> u64 x = x.
Proof. apply Z.mod_small. Qed.

(** X12.  The overflow analysis of the header of the source.  On a
    buffer of 32-bit words the accumulators [a] and [b] hold their
    series exactly, without wrapping, up to 32k words (128k bytes), and
    [c] and [d] up to 565 words: blocks of up to 2k do not overflow.
    The bound of [d] is sharp: for 566 words [0xffffffff] (2264 bytes)
    its series reaches [2^64]. *)
Theorem fletcher_4_no_overflow (buf : list Z) (size : Z) (zcp : zio_cksum_t) :
  size / 4 = Z.of_nat (length buf) ->
  Forall (fun w => 0 <= w < 2 ^ 32) buf ->
  exists zc,
    fletcher_4_scalar buf size (fletcher_4_scalar_init zcp) = Returned zc /\
    (Z.of_nat (length buf) <= 32 * 1024 ->
     zc_word0 zc = series (fun _ => 1) buf /\
     zc_word1 zc = series (fun i => i) buf) /\
    (Z.of_nat (length buf) <= 565 ->
     zc_word2 zc = series triangular buf /\
     zc_word3 zc = series tetrahedral buf) /\
    2 ^ 64 <= series tetrahedral (replicate 566 (2 ^ 32 - 1)).
Proof.
  intros Hsize Hwords. eexists.
  split; [rewrite fletcher_4_scalar_rounds by exact Hsize;
          unfold fletcher_4_scalar_init; apply f_equal,
            fletcher_4_rounds_series|].
  cbn [zc_word0 zc_word1 zc_word2 zc_word3].
  assert (Hw : Forall (fun w => 0 <= w <= 2 ^ 32 - 1) buf).
  { eapply Forall_impl; [exact Hwords|]. simpl. intros. lia. }
  set (n := Z.of_nat (length buf)) in *.
  assert (Hn : 0 <= n) by (unfold n; lia).
  split; [|split].
  - intros Hlen.
    pose proof (series_bound (fun _ => 1) (fun i => i) _ buf
                  ltac:(intros; cbv beta; lia) eq_refl ltac:(intros; cbv beta; lia) Hw) as Ha.
    pose proof (series_bound (fun i => i) triangular _ buf
                  ltac:(intros; cbv beta; lia) eq_refl
                  ltac:(intros; apply triangular_succ) Hw) as Hb.
    fold n in Ha, Hb.
    pose proof (weight_sum_mono (fun i => i) triangular n (32 * 1024)
                  ltac:(intros; cbv beta; lia) ltac:(intros; apply triangular_succ)
                  ltac:(lia)) as Hmono.
    change (triangular (32 * 1024)) with 536887296 in Hmono.
    split; apply u64_small; nia.
  - intros Hlen.
    pose proof (series_bound triangular tetrahedral _ buf
                  ltac:(intros; apply triangular_nonneg; lia) eq_refl
                  ltac:(intros; apply tetrahedral_succ) Hw) as Hc.
    pose proof (series_bound tetrahedral
                  (fun i => series tetrahedral (replicate (Z.to_nat i) 1))
                  _ buf
                  ltac:(intros; apply tetrahedral_nonneg; lia) eq_refl
                  ltac:(intros; apply tetrahedral_sum_succ; lia) Hw) as Hd.
    fold n in Hc, Hd.
    pose proof (weight_sum_mono triangular tetrahedral n 565
                  ltac:(intros; apply triangular_nonneg; lia)
                  ltac:(intros; apply tetrahedral_succ)
                  ltac:(lia)) as Hmc.
    pose proof (weight_sum_mono tetrahedral
                  (fun i => series tetrahedral (replicate (Z.to_nat i) 1))
                  n 565
                  ltac:(intros; apply tetrahedral_nonneg; lia)
                  ltac:(intros; apply tetrahedral_sum_succ; lia)
                  ltac:(lia)) as Hmd.
    cbv beta in Hmd.
    replace (tetrahedral 565) with 30220155 in Hmc by (vm_compute; reflexivity).
    replace (series tetrahedral (replicate (Z.to_nat 565) 1))
      with 4291262010 in Hmd by (vm_compute; reflexivity).
    split; apply u64_small; nia.
  - vm_compute. discriminate.
Qed.

Lemma fletcher_4_no_overflow_witness :
  exists zc,
    fletcher_4_scalar [4294967295; 4294967295] 8
      (fletcher_4_scalar_init (ZIO_SET_CHECKSUM 1 2 3 4)) = Returned zc /\
    zc_word3 zc = 5 * 4294967295.
Proof.
  destruct (fletcher_4_no_overflow [4294967295; 4294967295] 8
              (ZIO_SET_CHECKSUM 1 2 3 4) eq_refl)
    as (zc & Hrun & _ & Hcd & _).
  { repeat constructor; lia. }
  exists zc. split; [exact Hrun|].
  destruct Hcd as [_ ->]; [simpl; lia|reflexivity].
Defined.

(** A power of two that divides a product splits between the factors. *)
Lemma pow2_divide_mul (n : nat) :
  forall (a b : nat) (x y : Z),
    (a + b = n + 1)%nat ->
    (2 ^ Z.of_nat n | x * y) ->
    (2 ^ Z.of_nat a | x) \/ (2 ^ Z.of_nat b | y).
Proof.
  induction n as [|n IH]; intros a b x y Hab Hdiv.
  - destruct a as [|a]; [left|right].
    + apply Z.divide_1_l.
    + replace b with 0%nat by lia. apply Z.divide_1_l.
  - destruct a as [|a]; [left; apply Z.divide_1_l|].
    destruct b as [|b]; [right; apply Z.divide_1_l|].
    rewrite Nat2Z.inj_succ, Z.pow_succ_r in Hdiv by lia.
    assert (H2 : Z.even (x * y) = true).
    { apply Z.even_spec. destruct Hdiv as [q Hq]. exists (q * 2 ^ Z.of_nat n).
      lia. }
    rewrite Z.even_mul in H2. apply orb_true_iff in H2 as [H2|H2];
      apply Z.even_spec in H2 as [h ->].
    + assert (Hdiv' : (2 ^ Z.of_nat n | h * y)).
      { replace (2 * h * y) with (2 * (h * y)) in Hdiv by lia.
        rewrite Z.mul_divide_cancel_l in Hdiv by lia. exact Hdiv. }
      destruct (IH a (S b) h y ltac:(lia) Hdiv') as [H|H]; [left|right; exact H].
      rewrite Nat2Z.inj_succ, Z.pow_succ_r by lia.
      apply Z.mul_divide_mono_l, H.
    + assert (Hdiv' : (2 ^ Z.of_nat n | x * h)).
      { replace (x * (2 * h)) with (2 * (x * h)) in Hdiv by lia.
        rewrite Z.mul_divide_cancel_l in Hdiv by lia. exact Hdiv. }
      destruct (IH (S a) b x h ltac:(lia) Hdiv') as [H|H]; [left; exact H|right].
      rewrite Nat2Z.inj_succ, Z.pow_succ_r by lia.
      apply Z.mul_divide_mono_l, H.
Qed.

(** A coefficient that [2^16] does not divide carries every nonzero
    difference of two 32-bit words into the 64-bit accumulator. *)
Lemma u64_weight_differs (k x w w' : Z) :
  ~ (2 ^ 16 | k) -> 0 <= w < 2 ^ 32 -> 0 <= w' < 2 ^ 32 -> w <> w' ->
  u64 (x + k * w) <> u64 (x + k * w').
Proof.
  intros Hk Hw Hw' Hne Heq. unfold u64 in Heq.
  assert (Hdiv : (2 ^ 64 | k * (w - w'))).
  { apply Z.mod_divide; [lia|].
    replace (k * (w - w')) with ((x + k * w) - (x + k * w')) by lia.
    rewrite Zminus_mod, Heq, Z.sub_diag. reflexivity. }
  destruct (pow2_divide_mul 64 16 49 k (w - w') eq_refl Hdiv) as [H|H].
  - exact (Hk H).
  - apply Z.divide_abs_r in H. apply Z.divide_pos_le in H; [|lia].
    change (2 ^ Z.of_nat 49) with 562949953421312 in H. lia.
Qed.

Lemma odd_not_even (k : Z) : ~ (2 | 2 * k + 1).
Proof. intros [q Hq]. lia. Qed.

Lemma odd_mul_not_even (x y : Z) : ~ (2 | x) -> ~ (2 | y) -> ~ (2 | x * y).
Proof.
  intros Hx Hy H.
  destruct (pow2_divide_mul 1 1 1 x y eq_refl H); contradiction.
Qed.

Lemma pow2_too_large (n : nat) (x : Z) :
  0 < x < 2 ^ Z.of_nat n -> ~ (2 ^ Z.of_nat n | x).
Proof. intros Hx H. apply Z.divide_pos_le in H; lia. Qed.

Lemma triangular_low_bit (i : Z) :
  1 <= i <= 32 * 1024 -> ~ (2 ^ 16 | triangular i).
Proof.
  intros Hi H.
  assert (H2 : (2 ^ Z.of_nat 17 | i * (i + 1))).
  { rewrite <- triangular_double. change (2 ^ Z.of_nat 17) with (2 * 2 ^ 16).
    apply Z.mul_divide_mono_l, H. }
  destruct (Z.even i) eqn:He.
  - apply Z.even_spec in He as [k Hk].
    destruct (pow2_divide_mul 17 17 1 _ _ eq_refl H2) as [H17|H1].
    + revert H17. apply pow2_too_large. change (2 ^ Z.of_nat 17) with 131072.
      lia.
    + apply (odd_not_even k). rewrite <- Hk. exact H1.
  - rewrite <- Z.negb_odd in He. apply negb_false_iff, Z.odd_spec in He
      as [k Hk].
    destruct (pow2_divide_mul 17 1 17 _ _ eq_refl H2) as [H1|H17].
    + apply (odd_not_even k). rewrite <- Hk. exact H1.
    + revert H17. apply pow2_too_large. change (2 ^ Z.of_nat 17) with 131072.
      lia.
Qed.

Lemma tetrahedral_low_bit (i : Z) :
  1 <= i <= 32 * 1024 -> ~ (2 ^ 16 | tetrahedral i).
Proof.
  intros Hi H.
  assert (H2 : (2 ^ Z.of_nat 17 | i * (i + 1) * (i + 2))).
  { rewrite <- tetrahedral_six by lia.
    change (2 ^ Z.of_nat 17) with (2 * 2 ^ 16).
    replace (6 * tetrahedral i) with (2 * (3 * tetrahedral i)) by lia.
    apply Z.mul_divide_mono_l, Z.divide_mul_r, H. }
  pose proof (Z.div_mod i 4 ltac:(lia)) as Hq.
  pose proof (Z.mod_pos_bound i 4 ltac:(lia)) as Hr.
  set (q := i / 4) in *.
  assert (Hcase : i mod 4 = 0 \/ i mod 4 = 1 \/ i mod 4 = 2 \/ i mod 4 = 3)
    by lia.
  destruct Hcase as [Hc | [Hc | [Hc | Hc]]]; rewrite Hc in Hq.
  - replace (i * (i + 1) * (i + 2))
      with (2 * (i * ((2 * (2 * q) + 1) * (2 * q + 1)))) in H2 by lia.
    change (2 ^ Z.of_nat 17) with (2 * 2 ^ Z.of_nat 16) in H2.
    rewrite Z.mul_divide_cancel_l in H2 by lia.
    destruct (pow2_divide_mul 16 16 1 _ _ eq_refl H2) as [H16|H1].
    + revert H16. apply pow2_too_large. change (2 ^ Z.of_nat 16) with 65536.
      lia.
    + revert H1. apply odd_mul_not_even; apply odd_not_even.
  - replace (i * (i + 1) * (i + 2))
      with ((i + 1) * ((2 * (2 * q) + 1) * (2 * (2 * q + 1) + 1))) in H2
      by lia.
    destruct (pow2_divide_mul 17 17 1 _ _ eq_refl H2) as [H17|H1].
    + revert H17. apply pow2_too_large. change (2 ^ Z.of_nat 17) with 131072.
      lia.
    + revert H1. apply odd_mul_not_even; apply odd_not_even.
  - replace (i * (i + 1) * (i + 2))
      with (2 * ((i + 2) * ((2 * q + 1) * (2 * (2 * q + 1) + 1)))) in H2
      by lia.
    change (2 ^ Z.of_nat 17) with (2 * 2 ^ Z.of_nat 16) in H2.
    rewrite Z.mul_divide_cancel_l in H2 by lia.
    destruct (pow2_divide_mul 16 16 1 _ _ eq_refl H2) as [H16|H1].
    + revert H16. apply pow2_too_large. change (2 ^ Z.of_nat 16) with 65536.
      lia.
    + revert H1. apply odd_mul_not_even; apply odd_not_even.
  - replace (i * (i + 1) * (i + 2))
      with ((i + 1) * ((2 * (2 * q + 1) + 1) * (2 * (2 * q + 2) + 1))) in H2
      by lia.
    destruct (pow2_divide_mul 17 17 1 _ _ eq_refl H2) as [H17|H1].
    + revert H17. apply pow2_too_large. change (2 ^ Z.of_nat 17) with 131072.
      lia.
    + revert H1. apply odd_mul_not_even; apply odd_not_even.
Qed.

(** The coefficients of the four series over a block of up to 32k
    words: none is a multiple of [2^16]. *)
Lemma weights_low_bit (i : Z) :
  1 <= i <= 32 * 1024 ->
  ~ (2 ^ 16 | 1) /\ ~ (2 ^ 16 | i) /\
  ~ (2 ^ 16 | triangular i) /\ ~ (2 ^ 16 | tetrahedral i).
Proof.
  intros Hi. repeat split.
  - intros H. apply Z.divide_pos_le in H; lia.
  - intros H. apply Z.divide_pos_le in H; lia.
  - apply triangular_low_bit, Hi.
  - apply tetrahedral_low_bit, Hi.
Qed.

Lemma series_middle (wt : Z -> Z) (pre post : list Z) (w : Z) :
  series wt (pre ++ w :: post) =
  series (fun i => wt (i + Z.of_nat (length (w :: post)))) pre +
  series wt post + wt (Z.of_nat (length post) + 1) * w.
Proof.
  rewrite series_app. cbn [series length].
  rewrite Nat2Z.inj_succ, <- Z.add_1_r. lia.
Qed.

(** X13.  Every bit of every word affects every accumulator, for
    blocks of up to 128k: when one 32-bit word of a buffer of at most
    32k words changes, each of the four words of the fingerprint
    changes, although [c] and [d] may have wrapped. *)
Theorem fletcher_4_detects_word (pre post : list Z) (w w' size : Z)
    (zcp : zio_cksum_t) :
  size / 4 = Z.of_nat (length (pre ++ w :: post)) ->
  Z.of_nat (length (pre ++ w :: post)) <= 32 * 1024 ->
  0 <= w < 2 ^ 32 -> 0 <= w' < 2 ^ 32 -> w <> w' ->
  exists zc zc',
    fletcher_4_scalar (pre ++ w :: post) size (fletcher_4_scalar_init zcp) =
      Returned zc /\
    fletcher_4_scalar (pre ++ w' :: post) size (fletcher_4_scalar_init zcp) =
      Returned zc' /\
    zc_word0 zc <> zc_word0 zc' /\ zc_word1 zc <> zc_word1 zc' /\
    zc_word2 zc <> zc_word2 zc' /\ zc_word3 zc <> zc_word3 zc'.
Proof.
  intros Hsize Hlen Hw Hw' Hne.
  assert (Hsize' : size / 4 = Z.of_nat (length (pre ++ w' :: post))).
  { rewrite Hsize, !length_app. reflexivity. }
  eexists. eexists.
  split; [rewrite fletcher_4_scalar_rounds by exact Hsize;
          unfold fletcher_4_scalar_init; apply f_equal,
            fletcher_4_rounds_series|].
  split; [rewrite fletcher_4_scalar_rounds by exact Hsize';
          unfold fletcher_4_scalar_init; apply f_equal,
            fletcher_4_rounds_series|].
  cbn [zc_word0 zc_word1 zc_word2 zc_word3].
  rewrite length_app in Hlen. cbn [length] in Hlen.
  destruct (weights_low_bit (Z.of_nat (length post) + 1) ltac:(lia))
    as (Ha & Hb & Hc & Hd).
  rewrite !series_middle.
  repeat split; apply u64_weight_differs; assumption.
Qed.

Lemma fletcher_4_detects_word_witness :
  exists zc zc',
    fletcher_4_scalar ([1; 2] ++ 3 :: [4]) 16
      (fletcher_4_scalar_init (ZIO_SET_CHECKSUM 0 0 0 0)) = Returned zc /\
    fletcher_4_scalar ([1; 2] ++ 65539 :: [4]) 16
      (fletcher_4_scalar_init (ZIO_SET_CHECKSUM 0 0 0 0)) = Returned zc' /\
    zc_word0 zc <> zc_word0 zc' /\ zc_word1 zc <> zc_word1 zc' /\
    zc_word2 zc <> zc_word2 zc' /\ zc_word3 zc <> zc_word3 zc'.
Proof.
  apply (fletcher_4_detects_word [1; 2] [4] 3 65539 16
           (ZIO_SET_CHECKSUM 0 0 0 0)); try reflexivity; try lia.
  vm_compute. discriminate.
Defined.

(** ** zfs_fletcher.c: the two lanes of Fletcher-2 *)

Lemma load_app_r {A} (pre l : list A) (i : Z) (k : nat) :
  i = Z.of_nat (length pre + k) -> load (pre ++ l) i = load l (Z.of_nat k).
Proof.
  intros ->. unfold load.
  destruct (Z.ltb_spec (Z.of_nat (length pre + k)) 0); [lia|].
  destruct (Z.ltb_spec (Z.of_nat k) 0); [lia|].
  rewrite !Nat2Z.id, lookup_app_r by lia.
  replace (length pre + k - length pre)%nat with k by lia. reflexivity.
Qed.

Lemma fletcher_2_loop_pairs (swap : Z -> Z) (ps : list (Z * Z)) :
  forall (pre : list Z) (i : nat) (st : Z * Z * Z * Z),
    length pre = (2 * i)%nat ->
    for_loop (length ps) (Z.of_nat i)
      (fun k '(a0, b0, a1, b1) =>
         w0 ← load (pre ++ interleave ps) (2 * k);
         w1 ← load (pre ++ interleave ps) (2 * k + 1);
         let a0 := u64 (a0 + swap w0) in
         let a1 := u64 (a1 + swap w1) in
         let b0 := u64 (b0 + a0) in
         let b1 := u64 (b1 + a1) in
         Returned (a0, b0, a1, b1)) st =
    Returned
      (fold_left
         (fun '(a0, b0, a1, b1) p =>
            let a0 := u64 (a0 + swap (fst p)) in
            let a1 := u64 (a1 + swap (snd p)) in
            (a0, u64 (b0 + a0), a1, u64 (b1 + a1)))
         ps st).
Proof.
  induction ps as [|[x y] ps IH]; intros pre i [[[a0 b0] a1] b1] Hpre;
    [reflexivity|].
  cbn [length for_loop fold_left]. unfold interleave. rewrite bind_cons.
  fold (interleave ps). cbn [fst snd app].
  rewrite (load_app_r pre _ (2 * Z.of_nat i) 0), (load_app_r pre _ (2 * Z.of_nat i + 1) 1) by lia.
  change (load (x :: y :: interleave ps) (Z.of_nat 0)) with (Returned x : outcome Z).
  change (load (x :: y :: interleave ps) (Z.of_nat 1)) with (Returned y : outcome Z).
  rewrite !bind_Returned_l. cbv zeta.
  replace (Z.of_nat i + 1) with (Z.of_nat (S i)) by lia.
  specialize (IH (pre ++ [x; y]) (S i)).
  rewrite <- app_assoc in IH. cbn [app] in IH.
  apply IH. rewrite length_app. cbn [length]. lia.
Qed.

Lemma fletcher_2_fold_series (swap : Z -> Z) (ps : list (Z * Z)) :
  fold_left
    (fun '(a0, b0, a1, b1) p =>
       let a0 := u64 (a0 + swap (fst p)) in
       let a1 := u64 (a1 + swap (snd p)) in
       (a0, u64 (b0 + a0), a1, u64 (b1 + a1)))
    ps (0, 0, 0, 0) =
  (u64 (series (fun _ => 1) (swap <$> (fst <$> ps))),
   u64 (series (fun i => i) (swap <$> (fst <$> ps))),
   u64 (series (fun _ => 1) (swap <$> (snd <$> ps))),
   u64 (series (fun i => i) (swap <$> (snd <$> ps)))).
Proof.
  induction ps as [|[x y] ps IH] using rev_ind; [reflexivity|].
  rewrite fold_left_app, IH. cbn [fold_left fst snd]. cbv zeta.
  rewrite !fmap_app. cbn [fmap list_fmap fst snd].
  rewrite !series_snoc.
  repeat (rewrite u64_add_l || rewrite u64_add_r).
  rewrite !(series_add (fun i => i) (fun _ => 1)).
  f_equal; [f_equal; [f_equal|]|]; apply (f_equal u64); lia.
Qed.

Lemma fletcher_2_loop_lanes (swap : Z -> Z) (ps : list (Z * Z)) (size : Z) :
  size / 8 = 2 * Z.of_nat (length ps) ->
  fletcher_2_loop swap (interleave ps) size =
  Returned
    (u64 (series (fun _ => 1) (swap <$> (fst <$> ps))),
     u64 (series (fun i => i) (swap <$> (fst <$> ps))),
     u64 (series (fun _ => 1) (swap <$> (snd <$> ps))),
     u64 (series (fun i => i) (swap <$> (snd <$> ps)))).
Proof.
  intros Hsize. unfold fletcher_2_loop, for_range. cbv zeta. rewrite Hsize.
  replace ((2 * Z.of_nat (length ps) + 1) / 2 - 0) with (Z.of_nat (length ps)).
  2:{ rewrite Z.sub_0_r, Z.mul_comm, Z.div_add_l by lia.
      change (1 / 2) with 0. lia. }
  rewrite Nat2Z.id.
  pose proof (fletcher_2_loop_pairs swap ps [] 0 (0, 0, 0, 0) eq_refl) as H.
  cbn [app] in H. change (Z.of_nat 0) with 0 in H. rewrite H.
  rewrite fletcher_2_fold_series. reflexivity.
Qed.

(** X14.  Fletcher-2 is two second-order Fletcher checksums side by
    side: over a buffer of an even number of 64-bit words, the words at
    the even places feed the chain [(a0, b0)] and the words at the odd
    places the chain [(a1, b1)], and the fingerprint holds
    [a0 = sum f], [a1 = sum g], [b0 = sum i * f], [b1 = sum i * g]
    modulo [2^64], in this order; [fletcher_2_byteswap] does the same
    with the byte-reversed words. *)
Theorem fletcher_2_lanes (ps : list (Z * Z)) (size : Z) :
  size / 8 = 2 * Z.of_nat (length ps) ->
  fletcher_2_native (interleave ps) size =
    Returned (ZIO_SET_CHECKSUM
                (u64 (series (fun _ => 1) (fst <$> ps)))
                (u64 (series (fun _ => 1) (snd <$> ps)))
                (u64 (series (fun i => i) (fst <$> ps)))
                (u64 (series (fun i => i) (snd <$> ps)))) /\
  fletcher_2_byteswap (interleave ps) size =
    Returned (ZIO_SET_CHECKSUM
                (u64 (series (fun _ => 1) (BSWAP_64 <$> (fst <$> ps))))
                (u64 (series (fun _ => 1) (BSWAP_64 <$> (snd <$> ps))))
                (u64 (series (fun i => i) (BSWAP_64 <$> (fst <$> ps))))
                (u64 (series (fun i => i) (BSWAP_64 <$> (snd <$> ps))))).
Proof.
  intros Hsize. unfold fletcher_2_native, fletcher_2_byteswap.
  rewrite !fletcher_2_loop_lanes by exact Hsize.
  rewrite !list_fmap_id. split; reflexivity.
Qed.

Lemma fletcher_2_lanes_witness :
  fletcher_2_native (interleave [(1, 10); (2, 20); (3, 30)]) 48 =
  Returned (ZIO_SET_CHECKSUM 6 60 10 100).
Proof.
  rewrite (proj1 (fletcher_2_lanes [(1, 10); (2, 20); (3, 30)] 48 eq_refl)).
  reflexivity.
Defined.

Lemma for_loop_snoc {St} (body : Z -> St -> outcome St) (n : nat) :
  forall (i : Z) (st : St),
    for_loop (S n) i body st =
    st' ← for_loop n i body st; body (i + Z.of_nat n) st'.
Proof.
  induction n as [|n IH]; intros i st.
  - cbn [for_loop]. rewrite Z.add_0_r, bind_Returned_l.
    destruct (body i st); reflexivity.
  - change (for_loop (S (S n)) i body st)
      with (st1 ← body i st; for_loop (S n) (i + 1) body st1).
    change (for_loop (S n) i body st)
      with (st1 ← body i st; for_loop n (i + 1) body st1).
    destruct (body i st) as [st1| |]; try reflexivity.
    rewrite !bind_Returned_l, IH.
    replace (i + 1 + Z.of_nat n) with (i + Z.of_nat (S n)) by lia.
    reflexivity.
Qed.

Lemma load_beyond {A} (a : list A) (i : Z) :
  Z.of_nat (length a) <= i -> load a i = Undefined.
Proof.
  intros Hi. unfold load. destruct (Z.ltb_spec i 0); [reflexivity|].
  rewrite lookup_ge_None_2 by lia. reflexivity.
Qed.

Lemma fletcher_2_loop_odd (swap : Z -> Z) (buf : list Z) (size : Z) :
  size / 8 = Z.of_nat (length buf) -> Z.odd (Z.of_nat (length buf)) = true ->
  fletcher_2_loop swap buf size = Undefined.
Proof.
  intros Hsize Hodd. apply Z.odd_spec in Hodd as [m Hm].
  unfold fletcher_2_loop, for_range. cbv zeta. rewrite Hsize, Hm.
  replace ((2 * m + 1 + 1) / 2 - 0) with (m + 1).
  2:{ replace (2 * m + 1 + 1) with ((m + 1) * 2) by lia.
      rewrite Z.div_mul by lia. lia. }
  replace (Z.to_nat (m + 1)) with (S (Z.to_nat m)) by lia.
  rewrite for_loop_snoc.
  match goal with
  | |- context [for_loop ?n ?i ?b ?s] =>
      destruct (for_loop_total (fun _ _ => True) b n i s I)
        as ([[[a0 b0] a1] b1] & -> & _)
  end.
  { intros k [[[a0 b0] a1] b1] Hk _.
    destruct (load_in_bounds buf (2 * k) ltac:(lia)) as [w0 ->].
    destruct (load_in_bounds buf (2 * k + 1) ltac:(lia)) as [w1 ->].
    rewrite !bind_Returned_l. eexists. split; [reflexivity|exact I]. }
  rewrite bind_Returned_l.
  destruct (load_in_bounds buf (2 * (0 + Z.of_nat (Z.to_nat m))) ltac:(lia))
    as [w0 ->].
  rewrite bind_Returned_l, load_beyond by lia. reflexivity.
Qed.

(** X15.  The loop of Fletcher-2 consumes two 64-bit words in every
    iteration and tests the bound only before the first of them: on a
    buffer of an odd number of words, the last iteration reads [ip[1]]
    one word past the end of the buffer. *)
Theorem fletcher_2_odd_words (buf : list Z) (size : Z) :
  size / 8 = Z.of_nat (length buf) -> Z.odd (Z.of_nat (length buf)) = true ->
  fletcher_2_native buf size = Undefined /\
  fletcher_2_byteswap buf size = Undefined.
Proof.
  intros Hsize Hodd. unfold fletcher_2_native, fletcher_2_byteswap.
  rewrite !fletcher_2_loop_odd by assumption. split; reflexivity.
Qed.

Lemma fletcher_2_odd_words_witness :
  fletcher_2_native [1; 2; 3] 24 = Undefined /\
  fletcher_2_byteswap [1; 2; 3] 24 = Undefined.
Proof.
  apply (fletcher_2_odd_words [1; 2; 3] 24); reflexivity.
Defined.

(** Flipping the top bit of a 64-bit word adds [2^63] modulo [2^64]. *)
Lemma series_flip_two (wt : Z -> Z) (pre post : list Z) (x m y : Z) :
  series wt (pre ++ u64 (x + 2 ^ 63) :: m :: u64 (y + 2 ^ 63) :: post) =
  series wt (pre ++ x :: m :: y :: post) +
  wt (Z.of_nat (length post) + 3) * (u64 (x + 2 ^ 63) - x) +
  wt (Z.of_nat (length post) + 1) * (u64 (y + 2 ^ 63) - y).
Proof.
  rewrite !series_app. cbn [series length].
  rewrite !Nat2Z.inj_succ, <- !Z.add_1_r.
  replace (Z.of_nat (length post) + 1 + 1 + 1)
    with (Z.of_nat (length post) + 3) by lia.
  lia.
Qed.

Lemma u64_flip (x : Z) :
  exists c, u64 (x + 2 ^ 63) - x = 2 ^ 63 + 2 ^ 64 * c.
Proof.
  unfold u64. exists (- ((x + 2 ^ 63) / 2 ^ 64)).
  pose proof (Z.div_mod (x + 2 ^ 63) (2 ^ 64) ltac:(lia)). lia.
Qed.

Lemma u64_flip_two (wt : Z -> Z) (pre post : list Z) (x m y : Z) :
  (exists h, wt (Z.of_nat (length post) + 3) +
             wt (Z.of_nat (length post) + 1) = 2 * h) ->
  u64 (series wt (pre ++ u64 (x + 2 ^ 63) :: m :: u64 (y + 2 ^ 63) :: post)) =
  u64 (series wt (pre ++ x :: m :: y :: post)).
Proof.
  intros [h Hh]. rewrite series_flip_two.
  destruct (u64_flip x) as [c1 ->]. destruct (u64_flip y) as [c2 ->].
  set (w3 := wt (Z.of_nat (length post) + 3)) in *.
  set (w1 := wt (Z.of_nat (length post) + 1)) in *.
  set (s := series wt _).
  replace (s + w3 * (2 ^ 63 + 2 ^ 64 * c1) + w1 * (2 ^ 63 + 2 ^ 64 * c2))
    with (s + (h + w3 * c1 + w1 * c2) * 2 ^ 64).
  - unfold u64. apply Z_mod_plus_full.
  - change (2 ^ 64) with (2 * 2 ^ 63). nia.
Qed.

(** X16.  The weakness that the header of the source gives as the
    reason to deprecate Fletcher-2: the sums are taken modulo [2^64], so
    errors in the high bits may go unnoticed.  Flipping the top bit of
    two words of one lane that lie two iterations apart leaves the
    fingerprint as it is. *)
Theorem fletcher_2_high_bits (pre post : list (Z * Z)) (x1 y1 x2 y2 : Z)
    (m : Z * Z) (size : Z) :
  size / 8 = 2 * Z.of_nat (length (pre ++ (x1, y1) :: m :: (x2, y2) :: post)) ->
  fletcher_2_native
    (interleave (pre ++ (u64 (x1 + 2 ^ 63), y1) :: m ::
                        (u64 (x2 + 2 ^ 63), y2) :: post)) size =
  fletcher_2_native
    (interleave (pre ++ (x1, y1) :: m :: (x2, y2) :: post)) size.
Proof.
  intros Hsize.
  assert (Hsize' : size / 8 = 2 * Z.of_nat (length
            (pre ++ (u64 (x1 + 2 ^ 63), y1) :: m ::
                    (u64 (x2 + 2 ^ 63), y2) :: post))).
  { rewrite Hsize, !length_app. reflexivity. }
  unfold fletcher_2_native.
  rewrite (fletcher_2_loop_lanes _ _ _ Hsize).
  rewrite (fletcher_2_loop_lanes _ _ _ Hsize').
  rewrite !list_fmap_id, !fmap_app. cbn [fmap list_fmap fst snd].
  rewrite !u64_flip_two; [reflexivity| |].
  - exists (Z.of_nat (length (post.*1)) + 2). lia.
  - exists 1. reflexivity.
Qed.

Lemma fletcher_2_high_bits_witness :
  fletcher_2_native
    (interleave ([] ++ (u64 (1 + 2 ^ 63), 2) :: (3, 4) ::
                       (u64 (2 ^ 63 + 5 + 2 ^ 63), 6) :: [])) 48 =
  fletcher_2_native
    (interleave ([] ++ (1, 2) :: (3, 4) :: (2 ^ 63 + 5, 6) :: [])) 48.
Proof.
  apply (fletcher_2_high_bits [] [] 1 2 (2 ^ 63 + 5) 6 (3, 4) 48).
  reflexivity.
Defined.

(** ** zfs_fletcher.c: the choice of the implementation *)

Lemma N_of_ascii_inj (c d : Ascii.ascii) :
  Ascii.N_of_ascii c = Ascii.N_of_ascii d -> c = d.
Proof.
  intros H. rewrite <- (Ascii.ascii_N_embedding c), H.
  apply Ascii.ascii_N_embedding.
Qed.

(** [strncmp(selector, name, strlen(name)) == 0] says that [selector]
    starts with [name]. *)
Lemma strncmp_prefix (nm : string) :
  Forall (fun c => c <> Ascii.zero) (String.list_ascii_of_string nm) ->
  forall selector,
    (strncmp selector nm (strlen nm) =? 0) = String.prefix nm selector.
Proof.
  induction nm as [|c nm IH]; intros Hnul selector.
  - destruct selector; reflexivity.
  - cbn [String.list_ascii_of_string] in Hnul.
    apply Forall_cons in Hnul as [Hc Hnul].
    unfold strlen. cbn [String.length strncmp].
    destruct selector as [|d selector].
    + cbn [String.prefix strncmp]. apply Z.eqb_neq. intros H. apply Hc.
      apply N_of_ascii_inj. change (Ascii.N_of_ascii Ascii.zero) with 0%N. lia.
    + cbn [String.prefix strncmp].
      destruct (Ascii.eqb_spec d c) as [->|Hne].
      * destruct (Ascii.ascii_dec c c) as [_|Hcc]; [|contradiction].
        apply IH, Hnul.
      * destruct (Ascii.ascii_dec c d) as [->|_]; [contradiction|].
        apply Z.eqb_neq. intros H. apply Hne, N_of_ascii_inj. lia.
Qed.

Lemma selector_names_no_nul (kernel : bool) (nm : string) :
  nm ∈ selector_names kernel ->
  Forall (fun c => c <> Ascii.zero) (String.list_ascii_of_string nm).
Proof.
  intros Hin.
  assert (Hall : Forall (fun nm => Forall (fun c => c <> Ascii.zero)
                                     (String.list_ascii_of_string nm))
                   (selector_names false)).
  { repeat constructor; discriminate. }
  rewrite Forall_forall in Hall. apply Hall.
  destruct kernel; [|exact Hin].
  unfold selector_names in *. rewrite elem_of_app in *.
  destruct Hin as [Hin|Hin]; [left; exact Hin|inversion Hin].
Qed.

(** The search loop finds the first name that the selector starts
    with. *)
Lemma selector_search_spec (selector : string) (names : list string) :
  Forall (fun nm => Forall (fun c => c <> Ascii.zero)
                      (String.list_ascii_of_string nm)) names ->
  forall i0,
    let i := selector_search selector names i0 in
    (i = i0 + ARRAY_SIZE names /\
     Forall (fun nm => String.prefix nm selector = false) names) \/
    (exists (k : nat) nm,
        i = i0 + Z.of_nat k /\ names !! k = Some nm /\
        String.prefix nm selector = true /\
        Forall (fun nm' => String.prefix nm' selector = false) (take k names)).
Proof.
  unfold ARRAY_SIZE. induction 1 as [|nm names Hnm _ IH]; intros i0.
  - left. cbn [selector_search length]. split; [lia|constructor].
  - cbn [selector_search]. rewrite (strncmp_prefix nm Hnm).
    destruct (String.prefix nm selector) eqn:Hp.
    + right. exists 0%nat, nm. repeat split; [lia|exact Hp|constructor].
    + destruct (IH (i0 + 1)) as [[Hi Hall] | (k & nm' & Hi & Hk & Hp' & Hall)].
      * left. split; [cbn [length]; lia|]. constructor; assumption.
      * right. exists (S k), nm'. repeat split; [lia|exact Hk|exact Hp'|].
        cbn [take]. constructor; assumption.
Qed.

(** X17.  [fletcher_4_impl_set] takes the first name of [selector_names]
    that the selector starts with, whatever follows the name (a newline,
    say): it answers [0] and the index of this name is the new selector.
    A selector that starts with none of the names -- a proper prefix of
    a name as well, and [cycle] in the kernel -- is answered with
    [-EINVAL] and changes nothing. *)
Theorem fletcher_4_impl_set_selector (kernel : bool) (selector : string)
    (st : fletcher_4_state) :
  (fletcher_4_impl_set kernel selector st = (- EINVAL, st) /\
   Forall (fun nm => String.prefix nm selector = false)
     (selector_names kernel)) \/
  (exists (k : nat) nm st',
      fletcher_4_impl_set kernel selector st = (0, st') /\
      selector_names kernel !! k = Some nm /\
      String.prefix nm selector = true /\
      Forall (fun nm' => String.prefix nm' selector = false)
        (take k (selector_names kernel)) /\
      fletcher_4_impl_selector st' = Z.of_nat k /\
      fletcher_4_fastest st' = fletcher_4_fastest st /\
      cycle_count st' = cycle_count st).
Proof.
  unfold fletcher_4_impl_set. cbv zeta.
  destruct (selector_search_spec selector (selector_names kernel)
              ltac:(apply Forall_forall; intros nm;
                    apply selector_names_no_nul) 0)
    as [[Hi Hall] | (k & nm & Hi & Hk & Hp & Hall)]; cbv zeta in Hi;
    rewrite Hi.
  - left. rewrite (proj2 (Z.leb_le _ _)) by lia. auto.
  - right. exists k, nm. apply lookup_lt_Some in Hk as Hlt.
    rewrite (proj2 (Z.leb_gt _ _)) by (unfold ARRAY_SIZE; lia).
    destruct (Z.eqb_spec (fletcher_4_impl_selector st) (0 + Z.of_nat k))
      as [He|_]; eexists; (split; [reflexivity|]);
      cbn [fletcher_4_impl_selector fletcher_4_fastest cycle_count];
      repeat split; auto; lia.
Qed.

(** The three names, for a selector of any length. *)
Lemma selector_search_names (kernel : bool) (selector : string) :
  selector_search selector (selector_names kernel) 0 =
  if String.prefix "fastest" selector then 0
  else if String.prefix "scalar" selector then 1
  else if kernel then 2
  else if String.prefix "cycle" selector then 2 else 3.
Proof.
  unfold selector_names.
  destruct kernel; cbn [app selector_search];
    rewrite !strncmp_prefix by (repeat constructor; discriminate);
    repeat match goal with |- context [String.prefix ?a ?b] =>
      destruct (String.prefix a b) end; reflexivity.
Qed.

(** The benchmark of [fletcher_4_init] finds the scalar implementation,
    however often the clock lets it run. *)
Lemma fletcher_4_init_fastest (kernel : bool) (bench : Z -> nat)
    (st : fletcher_4_state) :
  fletcher_4_init kernel bench st =
  Returned (snd (fletcher_4_impl_set kernel "fastest"
                   (Build_fletcher_4_state (fletcher_4_chosen st)
                      (Some fletcher_4_scalar_calls)
                      (fletcher_4_impl_selector st) (cycle_count st)))).
Proof.
  unfold fletcher_4_init, for_range, fletcher_4_algos, ARRAY_SIZE.
  change (Z.to_nat (Z.of_nat (length [fletcher_4_scalar_calls]) - 0))
    with 1%nat.
  cbn [for_loop].
  change (load [fletcher_4_scalar_calls] 0)
    with (Returned fletcher_4_scalar_calls : outcome fletcher_4_func_t).
  rewrite !bind_Returned_l. cbn [valid fletcher_4_scalar_calls].
  destruct (Z.gtb_spec (1 + Z.of_nat (bench 0)) 0) as [_|Hle]; [|lia].
  rewrite !bind_Returned_l.
  change (load [fletcher_4_scalar_calls] 0)
    with (Returned fletcher_4_scalar_calls : outcome fletcher_4_func_t).
  rewrite bind_Returned_l. reflexivity.
Qed.

Lemma fletcher_4_init_static (kernel : bool) (bench : Z -> nat) :
  fletcher_4_init kernel bench fletcher_4_static =
  Returned (Build_fletcher_4_state (Some fletcher_4_scalar_calls)
              (Some fletcher_4_scalar_calls) FLETCHER_FASTEST 0).
Proof.
  rewrite fletcher_4_init_fastest. unfold fletcher_4_impl_set.
  rewrite selector_search_names. destruct kernel; reflexivity.
Qed.

(** Once [fletcher_4_fastest] and [fletcher_4_chosen] point to the scalar
    implementation, [fletcher_4_impl_set] keeps them there. *)
Lemma fletcher_4_impl_set_keeps (kernel : bool) (selector : string)
    (st : fletcher_4_state) :
  fletcher_4_chosen st = Some fletcher_4_scalar_calls ->
  fletcher_4_fastest st = Some fletcher_4_scalar_calls ->
  let st' := snd (fletcher_4_impl_set kernel selector st) in
  fletcher_4_chosen st' = Some fletcher_4_scalar_calls /\
  fletcher_4_fastest st' = Some fletcher_4_scalar_calls.
Proof.
  intros Hc Hf. unfold fletcher_4_impl_set. cbv zeta.
  destruct (_ <=? _); [auto|]. destruct (_ =? _); [auto|].
  cbn [snd fletcher_4_chosen fletcher_4_fastest]. split; [|exact Hf].
  destruct (_ =? FLETCHER_FASTEST); [exact Hf|].
  destruct (_ || _); [reflexivity|exact Hc].
Qed.

Lemma fletcher_4_impl_sets_keep (kernel : bool) (selectors : list string) :
  forall st,
    fletcher_4_chosen st = Some fletcher_4_scalar_calls ->
    fletcher_4_fastest st = Some fletcher_4_scalar_calls ->
    let st' := fold_left
                 (fun st selector =>
                    snd (fletcher_4_impl_set kernel selector st))
                 selectors st in
    fletcher_4_chosen st' = Some fletcher_4_scalar_calls /\
    fletcher_4_fastest st' = Some fletcher_4_scalar_calls.
Proof.
  induction selectors as [|selector selectors IH]; intros st Hc Hf;
    [split; assumption|].
  cbn [fold_left].
  destruct (fletcher_4_impl_set_keeps kernel selector st Hc Hf) as [Hc' Hf'].
  apply IH; assumption.
Qed.

Lemma cycle_loop_scalar (fuel : nat) (count : Z) :
  cycle_loop (S fuel) count =
  Some (Returned (fletcher_4_scalar_calls, (count + 1) mod 2 ^ 32)).
Proof.
  cbn [cycle_loop]. cbv zeta. unfold ARRAY_SIZE, fletcher_4_algos.
  cbn [length]. change (Z.of_nat 1) with 1. rewrite Z.mod_1_r. reflexivity.
Qed.

(** X18.  After [fletcher_4_init] on the initial values of the static
    variables, and after any calls of [fletcher_4_impl_set] that follow
    it, [fletcher_4_chosen] is not [NULL], and [fletcher_4_native] and
    [fletcher_4_byteswap] compute the scalar kernels from the zero state,
    whatever [zcp] held before and however the benchmark went.  The
    static variables stay as they are, but for [cycle_count], which a
    call in the cycle mode of the user build increments. *)
Theorem fletcher_4_init_dispatch (kernel : bool) (bench : Z -> nat)
    (selectors : list string) (fuel : nat) (buf : list Z) (size : Z)
    (zcp : zio_cksum_t) :
  exists st0 st',
    fletcher_4_init kernel bench fletcher_4_static = Returned st0 /\
    let st := fold_left
                (fun st selector =>
                   snd (fletcher_4_impl_set kernel selector st))
                selectors st0 in
    fletcher_4_chosen st = Some fletcher_4_scalar_calls /\
    fletcher_4_native kernel (S fuel) buf size zcp st =
      Some (zc ← fletcher_4_scalar buf size (ZIO_SET_CHECKSUM 0 0 0 0);
            Returned (zc, st')) /\
    fletcher_4_byteswap kernel (S fuel) buf size zcp st =
      Some (zc ← fletcher_4_scalar_byteswap buf size
                   (ZIO_SET_CHECKSUM 0 0 0 0);
            Returned (zc, st')) /\
    fletcher_4_chosen st' = fletcher_4_chosen st /\
    fletcher_4_fastest st' = fletcher_4_fastest st /\
    fletcher_4_impl_selector st' = fletcher_4_impl_selector st /\
    cycle_count st' =
      if negb kernel && (fletcher_4_impl_selector st =? FLETCHER_CYCLE)
      then (cycle_count st + 1) mod 2 ^ 32 else cycle_count st.
Proof.
  eexists.
  destruct (fletcher_4_impl_sets_keep kernel selectors
              (Build_fletcher_4_state (Some fletcher_4_scalar_calls)
                 (Some fletcher_4_scalar_calls) FLETCHER_FASTEST 0)
              eq_refl eq_refl) as [Hc Hf].
  cbv zeta in Hc, Hf.
  set (st := fold_left _ selectors _) in *.
  exists (if negb kernel && (fletcher_4_impl_selector st =? FLETCHER_CYCLE)
          then Build_fletcher_4_state (fletcher_4_chosen st)
                 (fletcher_4_fastest st) (fletcher_4_impl_selector st)
                 ((cycle_count st + 1) mod 2 ^ 32)
          else st).
  split; [apply fletcher_4_init_static|]. cbv zeta. fold st.
  split; [exact Hc|].
  unfold fletcher_4_native, fletcher_4_byteswap, fletcher_4_impl_get.
  destruct (negb kernel && (fletcher_4_impl_selector st =? FLETCHER_CYCLE)).
  - rewrite cycle_loop_scalar. repeat split.
  - rewrite Hc. repeat split.
Qed.

(** X19.  Without [fletcher_4_init] the pointer [fletcher_4_chosen] is
    [NULL], and [fletcher_4_impl_set] does not help: the selector is
    [FLETCHER_SCALAR] from the start, so that the name [scalar] is
    taken for a selector that is set already, and [fastest] copies
    [fletcher_4_fastest], which is [NULL] as well.  But for the cycle
    mode of the user build, [fletcher_4_native] and
    [fletcher_4_byteswap] then call through the null pointer. *)
Theorem fletcher_4_native_before_init (kernel : bool) (selector : string)
    (fuel : nat) (buf : list Z) (size : Z) (zcp : zio_cksum_t) :
  kernel = true \/ String.prefix "cycle" selector = false ->
  let st := snd (fletcher_4_impl_set kernel selector fletcher_4_static) in
  fletcher_4_chosen st = None /\
  fletcher_4_native kernel fuel buf size zcp st = Some Undefined /\
  fletcher_4_byteswap kernel fuel buf size zcp st = Some Undefined.
Proof.
  intros Hsel. unfold fletcher_4_impl_set. cbv zeta.
  rewrite selector_search_names.
  assert (Hcases :
    (if String.prefix "fastest" selector then 0
     else if String.prefix "scalar" selector then 1
     else if kernel then 2
     else if String.prefix "cycle" selector then 2 else 3) = 0 \/
    (if String.prefix "fastest" selector then 0
     else if String.prefix "scalar" selector then 1
     else if kernel then 2
     else if String.prefix "cycle" selector then 2 else 3) = 1 \/
    (if String.prefix "fastest" selector then 0
     else if String.prefix "scalar" selector then 1
     else if kernel then 2
     else if String.prefix "cycle" selector then 2 else 3) =
    ARRAY_SIZE (selector_names kernel)).
  { destruct (String.prefix "fastest" selector); [auto|].
    destruct (String.prefix "scalar" selector); [auto|].
    destruct Hsel as [-> | ->]; [auto|]. destruct kernel; auto. }
  destruct Hcases as [-> | [-> | ->]].
  - destruct kernel; repeat split.
  - destruct kernel; repeat split.
  - rewrite Z.leb_refl. destruct kernel; repeat split.
Qed.

Lemma fletcher_4_native_before_init_witness :
  fletcher_4_native true 1 [1; 2] 8 (ZIO_SET_CHECKSUM 0 0 0 0)
    (snd (fletcher_4_impl_set true "scalar" fletcher_4_static)) =
  Some Undefined.
Proof.
  apply (fletcher_4_native_before_init true "scalar" 1 [1; 2] 8
           (ZIO_SET_CHECKSUM 0 0 0 0)).
  left. reflexivity.
Defined.

(** X20.  A call of [fletcher_4_impl_set] with [fastest] that comes
    before [fletcher_4_init] -- a module parameter is set before the
    module is initialised -- leaves the selector at [FLETCHER_FASTEST]
    and [fletcher_4_chosen] at [NULL].  [fletcher_4_init] then finds the
    fastest implementation, but its own call of [fletcher_4_impl_set]
    returns early, for the selector is [fastest] already:
    [fletcher_4_chosen] stays [NULL] and [fletcher_4_native] calls
    through it. *)
Theorem fletcher_4_init_after_fastest (kernel : bool) (selector : string)
    (bench : Z -> nat) (fuel : nat) (buf : list Z) (size : Z)
    (zcp : zio_cksum_t) :
  String.prefix "fastest" selector = true ->
  exists st,
    fletcher_4_init kernel bench
      (snd (fletcher_4_impl_set kernel selector fletcher_4_static)) =
      Returned st /\
    fletcher_4_impl_selector st = FLETCHER_FASTEST /\
    fletcher_4_fastest st = Some fletcher_4_scalar_calls /\
    fletcher_4_chosen st = None /\
    fletcher_4_native kernel fuel buf size zcp st = Some Undefined /\
    fletcher_4_byteswap kernel fuel buf size zcp st = Some Undefined.
Proof.
  intros Hsel. eexists. split.
  - rewrite fletcher_4_init_fastest. unfold fletcher_4_impl_set. cbv zeta.
    rewrite !selector_search_names, Hsel.
    replace (ARRAY_SIZE (selector_names kernel) <=? 0) with false
      by (destruct kernel; reflexivity).
    reflexivity.
  - destruct kernel; repeat split.
Qed.

Lemma fletcher_4_init_after_fastest_witness :
  exists st,
    fletcher_4_init false (fun _ => 7%nat)
      (snd (fletcher_4_impl_set false "fastest" fletcher_4_static)) =
      Returned st /\
    fletcher_4_impl_selector st = FLETCHER_FASTEST /\
    fletcher_4_fastest st = Some fletcher_4_scalar_calls /\
    fletcher_4_chosen st = None /\
    fletcher_4_native false 1 [1; 2] 8 (ZIO_SET_CHECKSUM 0 0 0 0) st =
      Some Undefined /\
    fletcher_4_byteswap false 1 [1; 2] 8 (ZIO_SET_CHECKSUM 0 0 0 0) st =
      Some Undefined.
Proof.
  apply (fletcher_4_init_after_fastest false "fastest" (fun _ => 7%nat) 1
           [1; 2] 8 (ZIO_SET_CHECKSUM 0 0 0 0)).
  reflexivity.
Defined.

End FletcherProofs.

(** ** draid.c: permutation maps *)

Module DraidProofs.
Import Draid.

Lemma insert_head_perm {A} (l : list A) (j : nat) (y a : A) :
  l !! j = Some y -> y :: <[j := a]> l ≡ₚ a :: l.
Proof.
  revert j. induction l as [|b l IH]; intros [|j] Hj; try discriminate.
  - injection Hj as ->. apply perm_swap.
  - simpl in *. rewrite perm_swap, (IH j Hj). apply perm_swap.
Qed.

(** Exchanging two cells of an array permutes it. *)
Lemma exchange_perm {A} (l : list A) (i j : nat) (x y : A) :
  l !! i = Some x -> l !! j = Some y -> <[j := x]> (<[i := y]> l) ≡ₚ l.
Proof.
  revert i j. induction l as [|a l IH]; intros [|i] [|j] Hi Hj;
    try discriminate; simpl in *.
  - injection Hi as <-. reflexivity.
  - injection Hi as ->. apply (insert_head_perm l j y x Hj).
  - injection Hj as ->. apply (insert_head_perm l i x y Hi).
  - f_equiv. apply IH; assumption.
Qed.

Lemma length_malloc_ints (n : Z) : length (malloc_ints n) = Z.to_nat n.
Proof. apply length_replicate. Qed.

(** The loop that fills row 0 leaves the identity permutation. *)
Lemma identity_row (n : Z) (row : list Z) :
  Z.of_nat (length row) = n ->
  for_range 0 n (fun j row => store row j j) row = Returned (seqZ 0 n).
Proof.
  intros Hlen.
  destruct (for_range_total
    (fun k (r : list Z) => length r = length row /\
       forall j, Z.of_nat j < k -> r !! j = Some (Z.of_nat j))
    (fun j row => store row j j) 0 n row) as (r & Hr & Hl & Hall).
  - lia.
  - split; [reflexivity|]. intros j Hj. lia.
  - intros k s Hk [Hl Hs]. eexists. split.
    + apply store_in_bounds. lia.
    + split; [rewrite length_insert; exact Hl|].
      intros j Hj. destruct (decide (j = Z.to_nat k)) as [->|Hne].
      * rewrite list_lookup_insert_eq by lia. f_equal. lia.
      * rewrite list_lookup_insert_ne by lia. apply Hs. lia.
  - rewrite Hr. f_equal. apply list_eq. intros j.
    destruct (decide (Z.of_nat j < n)) as [Hj|Hj].
    + rewrite Hall by exact Hj. symmetry. rewrite lookup_seqZ_lt by exact Hj.
      reflexivity.
    + rewrite lookup_seqZ_ge by lia. apply lookup_ge_None. lia.
Qed.

Lemma mrand48_state (rng : Z) : snd (mrand48 rng) = rand48_next rng.
Proof. reflexivity. Qed.

Lemma tagged_values (inp : list Z) (rng : Z) : value <$> tagged inp rng = inp.
Proof.
  apply list_eq. intros j. unfold tagged.
  rewrite list_lookup_fmap, list_lookup_imap.
  destruct (inp !! j); reflexivity.
Qed.

Lemma length_tagged (inp : list Z) (rng : Z) :
  length (tagged inp rng) = length inp.
Proof. unfold tagged. apply length_imap. Qed.

(** The first loop of [permute_devs] tags the slots. *)
Lemma permute_fill_tagged (inp : list Z) (n : Z) (tmp : list pair_t) (rng : Z) :
  Z.of_nat (length inp) = n -> Z.of_nat (length tmp) = n ->
  for_range 0 n
    (fun i '(tmp, rng) =>
       v ← load inp i;
       let '(r, rng) := mrand48 rng in
       tmp ← store tmp i (Build_pair_t v r);
       Returned (tmp, rng))
    (tmp, rng) =
  Returned (tagged inp rng, Nat.iter (Z.to_nat n) rand48_next rng).
Proof.
  intros Hinp Htmp.
  destruct (for_range_total
    (fun k '(t, r) => length t = length tmp /\
       r = Nat.iter (Z.to_nat k) rand48_next rng /\
       forall j, Z.of_nat j < k -> t !! j = tagged inp rng !! j)
    (fun i '(tmp, rng) =>
         v ← load inp i;
         let '(r, rng) := mrand48 rng in
         tmp ← store tmp i (Build_pair_t v r);
         Returned (tmp, rng)) 0 n (tmp, rng)) as ([t r] & Hrun & Hl & Hr & Hall).
  - lia.
  - split; [reflexivity|]. split; [reflexivity|]. intros j Hj. lia.
  - intros k [t r] Hk (Hl & Hr & Hall).
    destruct (load_in_bounds inp k) as [v Hv]; [lia|].
    rewrite Hv, bind_Returned_l.
    destruct (mrand48 r) as [x r'] eqn:Hdraw.
    rewrite store_in_bounds by lia. rewrite bind_Returned_l.
    eexists. split; [reflexivity|].
    split; [rewrite length_insert; exact Hl|]. split.
    + replace (Z.to_nat (k + 1)) with (S (Z.to_nat k)) by lia. simpl.
      rewrite <- Hr, <- (mrand48_state r), Hdraw. reflexivity.
    + intros j Hj. destruct (decide (j = Z.to_nat k)) as [->|Hne].
      * rewrite list_lookup_insert_eq by lia.
        unfold tagged. rewrite list_lookup_imap.
        apply load_Returned in Hv as [_ ->]. cbv beta.
        rewrite <- Hr, Hdraw. reflexivity.
      * rewrite list_lookup_insert_ne by lia. apply Hall. lia.
  - rewrite Hrun, Hr. f_equal. f_equal.
    apply list_eq. intros j.
    destruct (decide (Z.of_nat j < n)) as [Hj|Hj].
    + apply Hall. exact Hj.
    + rewrite (proj2 (lookup_ge_None t j)) by lia.
      symmetry. apply lookup_ge_None. rewrite length_tagged. lia.
Qed.

(** The second loop of [permute_devs], an exchange sort, permutes [tmp]
    into ascending tags. *)
Lemma permute_sort_sorted (n : Z) (tmp : list pair_t) :
  Z.of_nat (length tmp) = n ->
  exists tmp',
    for_range 0 n
      (fun i tmp =>
         for_range (i + 1) n
           (fun j tmp =>
              ti ← load tmp i;
              tj ← load tmp j;
              if order ti >? order tj then
                tmp ← store tmp i tj;
                store tmp j ti
              else Returned tmp)
           tmp)
      tmp = Returned tmp' /\ tmp' ≡ₚ tmp /\ sorted_by_order tmp'.
Proof.
  intros Hlen.
  destruct (for_range_total
    (fun i t => t ≡ₚ tmp /\
       forall a b x y, Z.of_nat a < i -> (a < b)%nat ->
         t !! a = Some x -> t !! b = Some y -> order x <= order y)
    (fun i tmp =>
       for_range (i + 1) n
         (fun j tmp =>
            ti ← load tmp i;
            tj ← load tmp j;
            if order ti >? order tj then
              tmp ← store tmp i tj;
              store tmp j ti
            else Returned tmp)
         tmp) 0 n tmp) as (t & Hrun & Hperm & Hsorted).
  - lia.
  - split; [reflexivity|]. intros a b x y Ha. lia.
  - intros i t Hi [Ht Hs].
    destruct (for_range_total
      (fun j s => s ≡ₚ tmp /\
         (forall a b x y, Z.of_nat a < i -> (a < b)%nat ->
            s !! a = Some x -> s !! b = Some y -> order x <= order y) /\
         (forall b x y, i < Z.of_nat b < j ->
            s !! Z.to_nat i = Some x -> s !! b = Some y ->
            order x <= order y))
      (fun j tmp =>
         ti ← load tmp i;
         tj ← load tmp j;
         if order ti >? order tj then
           tmp ← store tmp i tj;
           store tmp j ti
         else Returned tmp) (i + 1) n t) as (s & Hrun & Hsp & Hss & Hsi).
    + lia.
    + split; [exact Ht|]. split; [exact Hs|]. intros b x y Hb. lia.
    + intros j s Hj (Hsp & Hss & Hsi).
      pose proof (Permutation_length Hsp) as Hls.
      destruct (load_in_bounds s i) as [ti Hti]; [lia|].
      destruct (load_in_bounds s j) as [tj Htj]; [lia|].
      rewrite Hti, bind_Returned_l, Htj, bind_Returned_l.
      apply load_Returned in Hti as [_ Hti]. apply load_Returned in Htj as [_ Htj].
      destruct (Z.gtb_spec (order ti) (order tj)) as [Hgt|Hle].
      * rewrite store_in_bounds by lia. rewrite bind_Returned_l.
        rewrite store_in_bounds by (rewrite length_insert; lia).
        eexists. split; [reflexivity|]. split; [|split].
        -- rewrite <- Hsp. apply exchange_perm; assumption.
        -- intros a b x y Ha Hab Hx Hy.
           rewrite list_lookup_insert_ne in Hx by lia.
           rewrite list_lookup_insert_ne in Hx by lia.
           destruct (decide (b = Z.to_nat j)) as [->|Hbj].
           { rewrite list_lookup_insert_eq in Hy
               by (rewrite length_insert; lia).
             injection Hy as <-.
             apply (Hss a (Z.to_nat i) x ti); [lia|lia|exact Hx|exact Hti]. }
           rewrite list_lookup_insert_ne in Hy by lia.
           destruct (decide (b = Z.to_nat i)) as [->|Hbi].
           { rewrite list_lookup_insert_eq in Hy by lia. injection Hy as <-.
             apply (Hss a (Z.to_nat j) x tj); [lia|lia|exact Hx|exact Htj]. }
           rewrite list_lookup_insert_ne in Hy by lia.
           apply (Hss a b x y); assumption.
        -- intros b x y Hb Hx Hy.
           rewrite list_lookup_insert_ne in Hx by lia.
           rewrite list_lookup_insert_eq in Hx by lia. injection Hx as <-.
           destruct (decide (b = Z.to_nat j)) as [->|Hbj].
           { rewrite list_lookup_insert_eq in Hy
               by (rewrite length_insert; lia).
             injection Hy as <-. lia. }
           rewrite list_lookup_insert_ne in Hy by lia.
           rewrite list_lookup_insert_ne in Hy by lia.
           pose proof (Hsi b ti y ltac:(lia) Hti Hy). lia.
      * eexists. split; [reflexivity|]. split; [exact Hsp|].
        split; [exact Hss|]. intros b x y Hb Hx Hy.
        rewrite Hti in Hx. injection Hx as <-.
        destruct (decide (b = Z.to_nat j)) as [->|Hbj].
        -- rewrite Htj in Hy. injection Hy as <-. lia.
        -- apply (Hsi b ti y); [lia|exact Hti|exact Hy].
    + exists s. split; [exact Hrun|]. split; [exact Hsp|].
      intros a b x y Ha Hab Hx Hy.
      destruct (decide (Z.of_nat a < i)) as [Hlt|Hge].
      * apply (Hss a b x y); assumption.
      * assert (a = Z.to_nat i) as -> by lia.
        apply (Hsi b x y); [|exact Hx|exact Hy].
        apply lookup_lt_Some in Hy. rewrite (Permutation_length Hsp) in Hy. lia.
  - exists t. split; [exact Hrun|]. split; [exact Hperm|].
    intros a b x y Hab Hx Hy. apply (Hsorted a b x y); try assumption.
    apply lookup_lt_Some in Hx. rewrite (Permutation_length Hperm) in Hx. lia.
Qed.

Lemma permute_store (n : Z) (tmp : list pair_t) (out : list Z) :
  Z.of_nat (length tmp) = n -> Z.of_nat (length out) = n ->
  for_range 0 n (fun i out => ti ← load tmp i; store out i (value ti)) out
  = Returned (value <$> tmp).
Proof.
  intros Htmp Hout.
  destruct (for_range_total
    (fun k (o : list Z) => length o = length out /\
       forall j, Z.of_nat j < k -> o !! j = value <$> (tmp !! j))
    (fun i out => ti ← load tmp i; store out i (value ti)) 0 n out)
    as (o & Hrun & Hl & Hall).
  - lia.
  - split; [reflexivity|]. intros j Hj. lia.
  - intros k o Hk [Hl Hall].
    destruct (load_in_bounds tmp k) as [ti Hti]; [lia|].
    rewrite Hti. simpl. rewrite store_in_bounds by lia.
    eexists. split; [reflexivity|]. split; [rewrite length_insert; exact Hl|].
    intros j Hj. destruct (decide (j = Z.to_nat k)) as [->|Hne].
    + rewrite list_lookup_insert_eq by lia.
      apply load_Returned in Hti as [_ ->]. reflexivity.
    + rewrite list_lookup_insert_ne by lia. apply Hall. lia.
  - rewrite Hrun. f_equal. apply list_eq. intros j. rewrite list_lookup_fmap.
    destruct (decide (Z.of_nat j < n)) as [Hj|Hj].
    + apply Hall. exact Hj.
    + rewrite (proj2 (lookup_ge_None tmp j)) by lia. apply lookup_ge_None. lia.
Qed.

(** [permute_devs] for [ndevs != 2]: the devices of [in] in the order of
    their random tags. *)
Lemma permute_devs_sorted (inp out : list Z) (n : Z) (rng : Z) :
  0 < n -> n <> 2 ->
  Z.of_nat (length inp) = n -> Z.of_nat (length out) = n ->
  exists tmp,
    permute_devs inp out n rng =
      Returned (value <$> tmp, Nat.iter (Z.to_nat n) rand48_next rng) /\
    tmp ≡ₚ tagged inp rng /\ sorted_by_order tmp.
Proof.
  intros Hn Hne Hinp Hout. unfold permute_devs, vla.
  destruct (Z.leb_spec n 0) as [?|_]; [lia|]. rewrite bind_Returned_l.
  destruct (Z.eqb_spec n 2) as [?|_]; [contradiction|].
  rewrite permute_fill_tagged, bind_Returned_l
    by (rewrite ?length_replicate; lia).
  assert (Hl1 : Z.of_nat (length (tagged inp rng)) = n).
  { rewrite length_tagged. exact Hinp. }
  destruct (permute_sort_sorted n (tagged inp rng) Hl1)
    as (tmp & Hsort & Hperm & Hsorted).
  rewrite Hsort, bind_Returned_l.
  rewrite permute_store;
    [|rewrite (Permutation_length Hperm); exact Hl1|exact Hout].
  rewrite bind_Returned_l. exists tmp. auto.
Qed.

Lemma permute_devs_perm (inp out : list Z) (n : Z) (rng : Z) :
  0 < n -> Z.of_nat (length inp) = n -> Z.of_nat (length out) = n ->
  exists out',
    permute_devs inp out n rng =
      Returned (out', Nat.iter (if n =? 2 then O else Z.to_nat n)
                        rand48_next rng) /\
    out' ≡ₚ inp.
Proof.
  intros Hn Hinp Hout. destruct (Z.eqb_spec n 2) as [->|Hne].
  - unfold permute_devs.
    destruct inp as [|i [|j [|? ?]]]; simpl in Hinp; try lia.
    destruct out as [|o0 [|o1 [|? ?]]]; simpl in Hout; try lia.
    eexists. split; [reflexivity|]. apply perm_swap.
  - destruct (permute_devs_sorted inp out n rng Hn Hne Hinp Hout)
      as (tmp & Hrun & Hperm & _).
    eexists. split; [exact Hrun|]. rewrite Hperm, tagged_values. reflexivity.
Qed.

(** The loop that fills [groupsz]. *)
Lemma groupsz_fill (n g : Z) :
  for_range 0 n (fun i gs => store gs i g) (malloc_ints n) =
  Returned (replicate (Z.to_nat n) g).
Proof.
  destruct (Z.le_gt_cases n 0) as [Hn|Hn].
  { rewrite for_range_empty by lia. unfold malloc_ints.
    replace (Z.to_nat n) with O by lia. reflexivity. }
  destruct (for_range_total
    (fun k (gs : list Z) => length gs = Z.to_nat n /\
       forall j, Z.of_nat j < k -> gs !! j = Some g)
    (fun i gs => store gs i g) 0 n (malloc_ints n)) as (gs & Hrun & Hl & Hall).
  - lia.
  - split; [apply length_malloc_ints|]. intros j Hj. lia.
  - intros k s Hk [Hl Hs]. rewrite store_in_bounds by lia.
    eexists. split; [reflexivity|]. split; [rewrite length_insert; exact Hl|].
    intros j Hj. destruct (decide (j = Z.to_nat k)) as [->|Hne].
    + rewrite list_lookup_insert_eq by lia. reflexivity.
    + rewrite list_lookup_insert_ne by lia. apply Hs. lia.
  - rewrite Hrun. f_equal. apply list_eq. intros j.
    destruct (decide (Z.of_nat j < n)) as [Hj|Hj].
    + rewrite Hall by exact Hj. symmetry. apply lookup_replicate_2. lia.
    + rewrite (proj2 (lookup_ge_None gs j)) by lia. symmetry.
      apply lookup_ge_None. rewrite length_replicate. lia.
Qed.

Lemma new_map_draws_0 (n k : Z) : 0 < n -> k <= 1 -> new_map_draws n k = O.
Proof. intros Hn Hk. unfold new_map_draws. destruct (n =? 2); [reflexivity|nia]. Qed.

Lemma new_map_draws_succ (n k : Z) (rng : Z) :
  0 < n -> 1 <= k ->
  Nat.iter (if n =? 2 then O else Z.to_nat n) rand48_next
    (Nat.iter (new_map_draws n k) rand48_next rng) =
  Nat.iter (new_map_draws n (k + 1)) rand48_next rng.
Proof.
  intros Hn Hk. unfold new_map_draws. destruct (n =? 2); [reflexivity|].
  rewrite <- Nat.iter_add. f_equal. nia.
Qed.

Lemma new_map_rows (n nrows : Z) (rng : Z) :
  0 < n -> 0 <= nrows ->
  exists rws,
    for_range 0 nrows
      (fun i '(rows, rng) =>
         let row := malloc_ints n in
         if i =? 0 then
           row ← for_range 0 n (fun j row => store row j j) row;
           rows ← store rows i row;
           Returned (rows, rng)
         else
           prev ← load rows (i - 1);
           '(row, rng) ← permute_devs prev row n rng;
           rows ← store rows i row;
           Returned (rows, rng))
      (replicate (Z.to_nat nrows) [], rng) =
    Returned (rws, Nat.iter (new_map_draws n nrows) rand48_next rng) /\
    Z.of_nat (length rws) = nrows /\ row_table n rws.
Proof.
  intros Hn Hnrows.
  destruct (for_range_total
    (fun k '(rws, r) =>
       Z.of_nat (length rws) = nrows /\
       r = Nat.iter (new_map_draws n k) rand48_next rng /\
       row_table n (take (Z.to_nat k) rws))
    (fun i '(rows, rng) =>
         let row := malloc_ints n in
         if i =? 0 then
           row ← for_range 0 n (fun j row => store row j j) row;
           rows ← store rows i row;
           Returned (rows, rng)
         else
           prev ← load rows (i - 1);
           '(row, rng) ← permute_devs prev row n rng;
           rows ← store rows i row;
           Returned (rows, rng)) 0 nrows (replicate (Z.to_nat nrows) [], rng))
    as ([rws r] & Hrun & Hl & Hr & Htab).
  - exact Hnrows.
  - split; [rewrite length_replicate; lia|]. split.
    + rewrite new_map_draws_0 by lia. reflexivity.
    + simpl. split; [|split]; [intros ? [=]|intros ? ? ? [=]|constructor].
  - intros k [rws r] Hk (Hl & Hr & Htab).
    assert (Hlm : Z.of_nat (length (malloc_ints n)) = n).
    { rewrite length_malloc_ints. lia. }
    cbv beta iota zeta.
    destruct (Z.eqb_spec k 0) as [->|Hk0].
    + rewrite identity_row by exact Hlm. rewrite bind_Returned_l.
      rewrite store_in_bounds by lia. rewrite bind_Returned_l.
      eexists. split; [reflexivity|].
      split; [rewrite length_insert; exact Hl|]. split.
      * rewrite Hr, !new_map_draws_0 by lia. reflexivity.
      * destruct rws as [|r0 rws]; [simpl in Hl; lia|]. simpl.
        split; [|split].
        -- intros row [= <-]. reflexivity.
        -- intros [|i] ? ? ? Hi; discriminate Hi.
        -- constructor; [reflexivity|constructor].
    + destruct Htab as (H0 & Hnext & Hperm).
      destruct (lookup_lt_is_Some_2 rws (Z.to_nat (k - 1))) as [prev Hprev];
        [lia|].
      assert (Hpp : prev ≡ₚ seqZ 0 n).
      { rewrite Forall_lookup in Hperm. apply (Hperm (Z.to_nat (k - 1))).
        rewrite lookup_take_lt by lia. exact Hprev. }
      assert (Hlp : Z.of_nat (length prev) = n).
      { rewrite (Permutation_length Hpp), length_seqZ. lia. }
      rewrite (proj2 (load_Returned rws (k - 1) prev)) by (split; [lia|exact Hprev]).
      rewrite bind_Returned_l.
      destruct (permute_devs_perm prev (malloc_ints n) n r Hn Hlp Hlm)
        as (row & Hrow & Hrp).
      rewrite Hrow, bind_Returned_l. simpl.
      rewrite store_in_bounds by lia. rewrite bind_Returned_l.
      eexists. split; [reflexivity|].
      split; [rewrite length_insert; exact Hl|]. split.
      * rewrite Hr. apply new_map_draws_succ; lia.
      * replace (Z.to_nat (k + 1)) with (S (Z.to_nat k)) by lia.
        assert (Htk : take (S (Z.to_nat k)) (<[Z.to_nat k := row]> rws) =
                      take (Z.to_nat k) rws ++ [row]).
        { rewrite (take_S_r _ _ row) by (apply list_lookup_insert_eq; lia).
          rewrite take_insert_ge by lia. reflexivity. }
        rewrite Htk.
        assert (Hlt : length (take (Z.to_nat k) rws) = Z.to_nat k).
        { rewrite length_take. lia. }
        split; [|split].
        -- intros row0 Hrow0. apply H0.
           rewrite lookup_app_l in Hrow0 by lia. exact Hrow0.
        -- intros i p q Hp Hq.
           destruct (decide (S i < Z.to_nat k)%nat) as [Hi|Hi].
           ++ rewrite lookup_app_l in Hp by lia.
              rewrite lookup_app_l in Hq by lia. apply (Hnext i); assumption.
           ++ destruct (decide (S i = Z.to_nat k)) as [Hik|Hik].
              ** rewrite lookup_app_l in Hp by lia.
                 rewrite lookup_app_r in Hq by lia.
                 replace (S i - length (take (Z.to_nat k) rws))%nat with O
                   in Hq by lia.
                 injection Hq as <-.
                 rewrite lookup_take_lt in Hp by lia.
                 replace i with (Z.to_nat (k - 1)) in Hp by lia.
                 rewrite Hprev in Hp. injection Hp as <-.
                 exists (malloc_ints n), r. split; [exact Hlm|].
                 split; [exact Hrow|]. intros Hne.
                 destruct (permute_devs_sorted prev (malloc_ints n) n r
                             Hn Hne Hlp Hlm) as (tmp & Hrun' & Hpt & Hst).
                 rewrite Hrow in Hrun'. injection Hrun' as Hrt _.
                 exists tmp. auto.
              ** apply lookup_lt_Some in Hq. rewrite length_app in Hq.
                 simpl in Hq. lia.
        -- apply Forall_app. split; [exact Hperm|].
           constructor; [|constructor]. rewrite Hrp. exact Hpp.
  - exists rws. rewrite Hrun, Hr. split; [reflexivity|].
    split; [exact Hl|]. rewrite firstn_all2 in Htab by lia. exact Htab.
Qed.

(** [new_map] returns: the fields it sets, the state of the random stream
    and the table of rows. *)
Lemma new_map_returns (n ngroups nspares nrows : Z) (rng : Z) :
  0 < n -> ngroups <> 0 -> 0 <= nrows ->
  exists rws,
    new_map n ngroups nspares nrows rng =
      Returned (Build_map_t n ngroups
                  (replicate (Z.to_nat ngroups) (Z.quot (n - nspares) ngroups))
                  nspares nrows rws 0 (malloc_ints nspares),
                Nat.iter (new_map_draws n nrows) rand48_next rng) /\
    Z.of_nat (length rws) = nrows /\ row_table n rws.
Proof.
  intros Hn Hg Hnrows. unfold new_map.
  destruct (Z.eqb_spec ngroups 0) as [?|_]; [contradiction|].
  rewrite bind_Returned_l, groupsz_fill, bind_Returned_l.
  destruct (new_map_rows n nrows rng Hn Hnrows) as (rws & Hrun & Hl & Htab).
  cbv zeta in Hrun |- *. rewrite Hrun, bind_Returned_l. exists rws. auto.
Qed.

Lemma sum_list_replicate (k : nat) (g : Z) :
  sum_list (replicate k g) = Z.of_nat k * g.
Proof. induction k as [|k IH]; [reflexivity|]. simpl replicate. unfold sum_list in *. simpl. lia. Qed.

(** A map that [new_map] returns is well formed. *)
Lemma new_map_wf (n ng ns nr : Z) (rng : Z) :
  0 < n -> 0 < ng -> 0 <= ns <= n -> 0 <= nr ->
  exists map,
    new_map n ng ns nr rng =
      Returned (map, Nat.iter (new_map_draws n nr) rand48_next rng) /\
    wf_map map /\
    ndevs map = n /\ ngroups map = ng /\ nspares map = ns /\
    nrows map = nr /\ nbroken map = 0.
Proof.
  intros Hn Hg Hs Hnrows.
  destruct (new_map_returns n ng ns nr rng Hn ltac:(lia) Hnrows)
    as (rws & Hrun & Hl & Htab).
  eexists. split; [exact Hrun|]. split; [|simpl; auto].
  assert (Hq : 0 <= Z.quot (n - ns) ng /\
               ng * Z.quot (n - ns) ng <= n - ns).
  { rewrite Z.quot_div_nonneg by lia. split.
    - apply Z.div_pos; lia.
    - apply Z.mul_div_le. lia. }
  constructor; simpl.
  - exact Hn.
  - exact Hs.
  - exact Hg.
  - rewrite length_replicate. lia.
  - apply Forall_replicate. lia.
  - rewrite sum_list_replicate. lia.
  - exact Hl.
  - apply Htab.
  - rewrite length_malloc_ints. lia.
Qed.

Lemma valid_dims_inv (n ng ns nr : Z) :
  valid_dims n ng ns nr ->
  0 < n /\ 0 < ng /\ 0 <= ns <= n /\ 0 < nr.
Proof.
  unfold valid_dims. intros (Hg & Hs & Hq & Hsum & Hr). nia.
Qed.

(** C1.  For valid dimensions [new_map] returns a map whose table has
    [nrows] rows: row 0 is the identity permutation [0, 1, ..., ndevs-1],
    every row [i + 1] is what [permute_devs] returns for row [i] (the two
    slots exchanged when [ndevs == 2], no random number drawn; otherwise
    the slots of row [i] sorted by the ascending order of freshly drawn
    random tags), and every row is a permutation of [0, 1, ..., ndevs-1]. *)
Theorem new_map_rows_permutations (n ng ns nr : Z) (rng : Z) :
  valid_dims n ng ns nr ->
  exists map rng',
    new_map n ng ns nr rng = Returned (map, rng') /\
    ndevs map = n /\
    Z.of_nat (length (rows map)) = nr /\
    rows map !! 0%nat = Some (seqZ 0 n) /\
    (forall i prev row,
       rows map !! i = Some prev -> rows map !! S i = Some row ->
       exists out r r',
         Z.of_nat (length out) = n /\
         permute_devs prev out n r = Returned (row, r') /\
         (n <> 2 ->
          exists tmp, tmp ≡ₚ tagged prev r /\ sorted_by_order tmp /\
                      row = value <$> tmp)) /\
    (forall a b o0 o1 r,
       permute_devs [a; b] [o0; o1] 2 r = Returned ([b; a], r)) /\
    (forall row, row ∈ rows map -> row ≡ₚ seqZ 0 n).
Proof.
  intros Hv. destruct (valid_dims_inv _ _ _ _ Hv) as (Hn & Hg & Hs & Hr).
  destruct (new_map_returns n ng ns nr rng Hn ltac:(lia) ltac:(lia))
    as (rws & Hrun & Hl & H0 & Hnext & Hperm).
  eexists. eexists. split; [exact Hrun|]. simpl.
  split; [reflexivity|]. split; [exact Hl|]. split; [|split; [|split]].
  - destruct rws as [|r0 rws]; [simpl in Hl; lia|].
    simpl. f_equal. apply H0. reflexivity.
  - intros i prev row Hp Hq.
    destruct (Hnext i prev row Hp Hq) as (out & r & Hout & Hpd & Hsort).
    exists out, r. eauto.
  - reflexivity.
  - intros row Hin. rewrite Forall_forall in Hperm. apply Hperm, Hin.
Qed.

Lemma new_map_rows_permutations_witness :
  exists map rng',
    new_map 12 2 2 100 rand48_default = Returned (map, rng') /\
    ndevs map = 12 /\
    Z.of_nat (length (rows map)) = 100 /\
    rows map !! 0%nat = Some (seqZ 0 12) /\
    (forall i prev row,
       rows map !! i = Some prev -> rows map !! S i = Some row ->
       exists out r r',
         Z.of_nat (length out) = 12 /\
         permute_devs prev out 12 r = Returned (row, r') /\
         (12 <> 2 ->
          exists tmp, tmp ≡ₚ tagged prev r /\ sorted_by_order tmp /\
                      row = value <$> tmp)) /\
    (forall a b o0 o1 r,
       permute_devs [a; b] [o0; o1] 2 r = Returned ([b; a], r)) /\
    (forall row, row ∈ rows map -> row ≡ₚ seqZ 0 12).
Proof.
  apply (new_map_rows_permutations 12 2 2 100 rand48_default).
  unfold valid_dims. vm_compute. intuition discriminate.
Defined.

Lemma wf_row_length (map : map_t) (i : Z) (row : list Z) :
  wf_map map -> load (rows map) i = Returned row ->
  Z.of_nat (length row) = ndevs map /\ row ≡ₚ seqZ 0 (ndevs map).
Proof.
  intros Hwf [Hi Hrow]%load_Returned.
  pose proof (wf_rows map Hwf) as Hp. rewrite Forall_lookup in Hp.
  specialize (Hp _ _ Hrow). split; [|exact Hp].
  rewrite (Permutation_length Hp), length_seqZ. pose proof (wf_ndevs map Hwf). lia.
Qed.

Lemma wf_row_range (map : map_t) (i j : Z) (row : list Z) (v : Z) :
  wf_map map -> load (rows map) i = Returned row -> load row j = Returned v ->
  0 <= v < ndevs map.
Proof.
  intros Hwf Hrow [Hj Hv]%load_Returned.
  destruct (wf_row_length map i row Hwf Hrow) as [_ Hp].
  apply list_elem_of_lookup_2 in Hv. rewrite Hp in Hv.
  apply elem_of_seqZ in Hv. lia.
Qed.

Lemma load_insert_eq {A} (a : list A) (i : Z) (x : A) :
  0 <= i < Z.of_nat (length a) -> load (<[Z.to_nat i := x]> a) i = Returned x.
Proof.
  intros Hi. apply load_Returned. split; [lia|].
  apply list_lookup_insert_eq. lia.
Qed.

Lemma load_insert_ne {A} (a : list A) (i j : Z) (x : A) :
  0 <= i -> 0 <= j -> i <> j -> load (<[Z.to_nat i := x]> a) j = load a j.
Proof.
  intros Hi Hj Hne. unfold load. destruct (j <? 0); [reflexivity|].
  rewrite list_lookup_insert_ne by lia. reflexivity.
Qed.

(** One store of the innermost loop of [develop_map]. *)
Lemma develop_step (bmap : map_t) (base add j : Z) (drows : list (list Z)) :
  wf_map bmap ->
  0 <= base < nrows bmap -> 0 <= add < ndevs bmap -> 0 <= j < ndevs bmap ->
  develop_inv bmap (base * ndevs bmap + add) j drows ->
  exists drows',
    (brow ← load (rows bmap) base;
     v ← load brow j;
     drow ← load drows (base * ndevs bmap + add);
     drow ← store drow j (Z.rem (v + add) (ndevs bmap));
     store drows (base * ndevs bmap + add) drow) = Returned drows' /\
    develop_inv bmap (base * ndevs bmap + add) (j + 1) drows'.
Proof.
  intros Hwf Hbase Hadd Hj (Hlen & Hrows & Hdone).
  set (N := ndevs bmap) in *.
  assert (Hpos : 0 <= base * N + add < nrows bmap * N) by nia.
  destruct (load_in_bounds (rows bmap) base) as [brow Hbrow].
  { rewrite (wf_nrows bmap Hwf). exact Hbase. }
  destruct (wf_row_length bmap base brow Hwf Hbrow) as [Hlb _].
  destruct (load_in_bounds brow j) as [v Hv]; [fold N in Hlb; lia|].
  destruct (load_in_bounds drows (base * N + add)) as [drow Hdrow]; [lia|].
  assert (Hld : Z.of_nat (length drow) = N).
  { rewrite Forall_lookup in Hrows. apply load_Returned in Hdrow as [_ Hd].
    apply (Hrows _ _ Hd). }
  rewrite Hbrow, bind_Returned_l, Hv, bind_Returned_l, Hdrow, bind_Returned_l.
  rewrite store_in_bounds by lia. rewrite bind_Returned_l.
  rewrite store_in_bounds by lia.
  eexists. split; [reflexivity|]. split; [|split].
  - rewrite length_insert. exact Hlen.
  - apply Forall_insert; [exact Hrows|]. rewrite length_insert. exact Hld.
  - intros base' add' j' brow' v' Hadd' Hbefore Hbrow' Hv'.
    pose proof (load_bounds _ _ _ Hbrow') as Hb'.
    pose proof (load_bounds _ _ _ Hv') as Hj'.
    destruct (decide (base' * N + add' = base * N + add)) as [Heq|Hne].
    + assert (base' = base) as ->.
      { destruct (Z.lt_trichotomy base' base) as [?|[?|?]];
          [nia|assumption|nia]. }
      assert (add' = add) as -> by lia.
      rewrite Hbrow in Hbrow'. injection Hbrow' as <-.
      rewrite load_insert_eq by lia. eexists. split; [reflexivity|].
      destruct (decide (j' = j)) as [->|Hjne].
      * rewrite Hv in Hv'. injection Hv' as <-.
        apply load_insert_eq. lia.
      * rewrite load_insert_ne by lia.
        destruct (Hdone base add j' brow v' Hadd) as (drow' & Hd' & Hvd');
          [right; lia|exact Hbrow|exact Hv'|].
        rewrite Hdrow in Hd'. injection Hd' as <-. exact Hvd'.
    + rewrite load_insert_ne by nia.
      apply (Hdone base' add' j' brow' v' Hadd'); [left; lia|assumption..].
Qed.

Lemma develop_inv_next_row (bmap : map_t) (pr : Z) (drows : list (list Z)) :
  wf_map bmap ->
  develop_inv bmap pr (ndevs bmap) drows -> develop_inv bmap (pr + 1) 0 drows.
Proof.
  intros Hwf (Hlen & Hrows & Hdone). split; [exact Hlen|]. split; [exact Hrows|].
  intros base add j brow v Hadd Hbefore Hbrow Hv.
  apply (Hdone base add j brow v Hadd); [|assumption..].
  pose proof (load_bounds _ _ _ Hv) as Hj.
  destruct (wf_row_length bmap base brow Hwf Hbrow) as [Hlb _].
  lia.
Qed.

Lemma develop_inv_same_row (bmap : map_t) (pr pr' : Z) (drows : list (list Z)) :
  pr = pr' ->
  develop_inv bmap pr 0 drows -> develop_inv bmap pr' 0 drows.
Proof. intros ->. auto. Qed.

(** The three nested loops of [develop_map] fill the table. *)
Lemma develop_loops (bmap : map_t) (drows : list (list Z)) :
  wf_map bmap ->
  develop_inv bmap 0 0 drows ->
  exists drows',
    for_range 0 (nrows bmap)
      (fun base drows =>
         for_range 0 (ndevs bmap)
           (fun add drows =>
              for_range 0 (ndevs bmap)
                (fun j drows =>
                   brow ← load (rows bmap) base;
                   v ← load brow j;
                   drow ← load drows (base * ndevs bmap + add);
                   drow ← store drow j (Z.rem (v + add) (ndevs bmap));
                   store drows (base * ndevs bmap + add) drow)
                drows)
           drows)
      drows = Returned drows' /\
    develop_inv bmap (nrows bmap * ndevs bmap) 0 drows'.
Proof.
  intros Hwf H0. pose proof (wf_ndevs bmap Hwf) as Hn.
  pose proof (wf_nrows bmap Hwf) as Hr.
  apply (for_range_total (fun k d => develop_inv bmap (k * ndevs bmap) 0 d));
    [lia|exact H0|].
  intros base d1 Hbase H1.
  destruct (for_range_total
    (fun k d => develop_inv bmap (base * ndevs bmap + k) 0 d)
    (fun add drows =>
       for_range 0 (ndevs bmap)
         (fun j drows =>
            brow ← load (rows bmap) base;
            v ← load brow j;
            drow ← load drows (base * ndevs bmap + add);
            drow ← store drow j (Z.rem (v + add) (ndevs bmap));
            store drows (base * ndevs bmap + add) drow)
         drows) 0 (ndevs bmap) d1) as (d2 & Hrun & H2).
  - lia.
  - rewrite Z.add_0_r. exact H1.
  - intros add d3 Hadd H3.
    destruct (for_range_total
      (fun k d => develop_inv bmap (base * ndevs bmap + add) k d)
      (fun j drows =>
         brow ← load (rows bmap) base;
         v ← load brow j;
         drow ← load drows (base * ndevs bmap + add);
         drow ← store drow j (Z.rem (v + add) (ndevs bmap));
         store drows (base * ndevs bmap + add) drow)
      0 (ndevs bmap) d3) as (d4 & Hrun4 & H4).
    + lia.
    + exact H3.
    + intros j d5 Hj H5. apply develop_step; assumption.
    + exists d4. split; [exact Hrun4|].
      apply (develop_inv_same_row bmap (base * ndevs bmap + add + 1));
        [lia|]. apply develop_inv_next_row; assumption.
  - exists d2. split; [exact Hrun|].
    apply (develop_inv_same_row bmap (base * ndevs bmap + ndevs bmap));
      [lia|exact H2].
Qed.

(** [develop_map] returns: the fields of the developed map, the state of
    the random stream that [new_map] leaves, and the filled table. *)
Lemma develop_map_returns (bmap : map_t) (rng : Z) :
  wf_map bmap ->
  exists drows,
    develop_map bmap rng =
      Returned (Build_map_t (ndevs bmap) (ngroups bmap)
                  (replicate (Z.to_nat (ngroups bmap))
                     (Z.quot (ndevs bmap - nspares bmap) (ngroups bmap)))
                  (nspares bmap) (nrows bmap * ndevs bmap) drows 0
                  (malloc_ints (nspares bmap)),
                Nat.iter (new_map_draws (ndevs bmap)
                            (nrows bmap * ndevs bmap)) rand48_next rng) /\
    develop_inv bmap (nrows bmap * ndevs bmap) 0 drows.
Proof.
  intros Hwf. pose proof (wf_ndevs bmap Hwf) as Hn.
  pose proof (wf_nrows bmap Hwf) as Hr.
  pose proof (wf_ngroups_pos bmap Hwf) as Hg.
  unfold develop_map.
  destruct (new_map_returns (ndevs bmap) (ngroups bmap) (nspares bmap)
              (nrows bmap * ndevs bmap) rng) as (rws & Hnew & Hl & Htab);
    [lia|lia|nia|].
  rewrite Hnew, bind_Returned_l. cbn [rows].
  destruct (develop_loops bmap rws Hwf) as (drows & Hrun & Hinv).
  { split; [exact Hl|]. split.
    - destruct Htab as (_ & _ & Hperm). eapply Forall_impl; [exact Hperm|].
      intros row Hp. simpl in Hp. rewrite (Permutation_length Hp), length_seqZ. lia.
    - intros base add j brow v Hadd Hbefore Hbrow Hv.
      pose proof (load_bounds _ _ _ Hbrow). pose proof (load_bounds _ _ _ Hv).
      nia. }
  rewrite Hrun, bind_Returned_l. exists drows. split; [reflexivity|exact Hinv].
Qed.

(** The filled table is determined by the base map. *)
Lemma develop_inv_unique (bmap : map_t) (d1 d2 : list (list Z)) :
  wf_map bmap ->
  develop_inv bmap (nrows bmap * ndevs bmap) 0 d1 ->
  develop_inv bmap (nrows bmap * ndevs bmap) 0 d2 ->
  d1 = d2.
Proof.
  intros Hwf (Hl1 & Hr1 & Hd1) (Hl2 & Hr2 & Hd2).
  pose proof (wf_ndevs bmap Hwf) as Hn. pose proof (wf_nrows bmap Hwf) as Hr.
  set (N := ndevs bmap) in *.
  apply list_eq. intros i.
  destruct (decide (Z.of_nat i < nrows bmap * N)) as [Hi|Hi].
  2:{ rewrite (proj2 (lookup_ge_None d1 i)), (proj2 (lookup_ge_None d2 i)) by lia.
      reflexivity. }
  pose proof (Z.div_mod (Z.of_nat i) N ltac:(lia)) as Hdm.
  pose proof (Z.mod_pos_bound (Z.of_nat i) N Hn) as Hmod.
  set (base := Z.of_nat i / N) in *. set (add := Z.of_nat i mod N) in *.
  assert (Hbase : 0 <= base < nrows bmap).
  { split; [apply Z.div_pos; lia|apply Z.div_lt_upper_bound; lia]. }
  destruct (load_in_bounds (rows bmap) base) as [brow Hbrow]; [lia|].
  destruct (wf_row_length bmap base brow Hwf Hbrow) as [Hlb _]. fold N in Hlb.
  destruct (lookup_lt_is_Some_2 d1 i) as [r1 Hi1]; [lia|].
  destruct (lookup_lt_is_Some_2 d2 i) as [r2 Hi2]; [lia|].
  rewrite Hi1, Hi2. f_equal.
  assert (Hlr1 : Z.of_nat (length r1) = N).
  { rewrite Forall_lookup in Hr1. apply (Hr1 _ _ Hi1). }
  assert (Hlr2 : Z.of_nat (length r2) = N).
  { rewrite Forall_lookup in Hr2. apply (Hr2 _ _ Hi2). }
  apply list_eq. intros j.
  destruct (decide (Z.of_nat j < N)) as [Hj|Hj].
  2:{ rewrite (proj2 (lookup_ge_None r1 j)), (proj2 (lookup_ge_None r2 j)) by lia.
      reflexivity. }
  destruct (load_in_bounds brow (Z.of_nat j)) as [v Hv]; [lia|].
  assert (Hidx : Z.to_nat (base * N + add) = i) by lia.
  destruct (Hd1 base add (Z.of_nat j) brow v Hmod ltac:(left; nia) Hbrow Hv)
    as (r1' & [_ Hr1']%load_Returned & [_ Hv1]%load_Returned).
  destruct (Hd2 base add (Z.of_nat j) brow v Hmod ltac:(left; nia) Hbrow Hv)
    as (r2' & [_ Hr2']%load_Returned & [_ Hv2]%load_Returned).
  rewrite Hidx in Hr1', Hr2'. rewrite Hi1 in Hr1'. rewrite Hi2 in Hr2'.
  injection Hr1' as <-. injection Hr2' as <-.
  rewrite Nat2Z.id in Hv1, Hv2. rewrite Hv1, Hv2. reflexivity.
Qed.

(** C4.  [develop_map] applied to a base map returns a map of the same
    shape with [nrows * ndevs] rows in which, for every base row [r],
    every shift [s] in [[0, ndevs)] and every slot [j], slot [j] of the
    developed row [r * ndevs + s] is [(base.rows[r][j] + s) mod ndevs]. *)
Theorem develop_map_rows (bmap : map_t) (rng : Z) :
  wf_map bmap ->
  exists dmap rng',
    develop_map bmap rng = Returned (dmap, rng') /\
    ndevs dmap = ndevs bmap /\ ngroups dmap = ngroups bmap /\
    nspares dmap = nspares bmap /\
    nrows dmap = nrows bmap * ndevs bmap /\
    Z.of_nat (length (rows dmap)) = nrows bmap * ndevs bmap /\
    forall r s j brow v,
      0 <= s < ndevs bmap ->
      load (rows bmap) r = Returned brow ->
      load brow j = Returned v ->
      exists drow,
        load (rows dmap) (r * ndevs bmap + s) = Returned drow /\
        load drow j = Returned ((v + s) mod ndevs bmap).
Proof.
  intros Hwf. destruct (develop_map_returns bmap rng Hwf)
    as (drows & Hrun & Hl & Hrows & Hdone).
  eexists. eexists. split; [exact Hrun|]. cbn [ndevs ngroups nspares nrows rows].
  repeat (split; [reflexivity|]). split; [exact Hl|].
  intros r s j brow v Hs Hbrow Hv.
  pose proof (load_bounds _ _ _ Hbrow) as Hr.
  rewrite (wf_nrows bmap Hwf) in Hr.
  pose proof (wf_row_range bmap r j brow v Hwf Hbrow Hv) as Hrange.
  rewrite <- Z.rem_mod_nonneg by lia.
  apply (Hdone r s j brow v Hs); [left; nia|assumption..].
Qed.

Lemma sample_map_new :
  new_map 6 2 2 3 rand48_default = Returned (sample_map, 16567311332730).
Proof. vm_compute. reflexivity. Qed.

Lemma sample_map_wf : wf_map sample_map.
Proof.
  constructor; simpl; try lia.
  - apply (bool_decide_unpack _). vm_compute. exact I.
  - repeat constructor; apply (bool_decide_unpack _); vm_compute; exact I.
Qed.

Lemma develop_map_rows_witness :
  exists dmap rng',
    develop_map sample_map rand48_default = Returned (dmap, rng') /\
    ndevs dmap = 6 /\ ngroups dmap = 2 /\ nspares dmap = 2 /\
    nrows dmap = 18 /\
    Z.of_nat (length (rows dmap)) = 18 /\
    forall r s j brow v,
      0 <= s < 6 ->
      load (rows sample_map) r = Returned brow ->
      load brow j = Returned v ->
      exists drow,
        load (rows dmap) (r * 6 + s) = Returned drow /\
        load drow j = Returned ((v + s) mod 6).
Proof. apply (develop_map_rows sample_map rand48_default sample_map_wf). Defined.

(** C5, as the code has it.  The map that [develop_map] returns is a
    function of the base map alone: it is the same for every state of the
    random stream.  [develop_map] does consult the stream, through
    [new_map]: it leaves the stream advanced by the
    [ndevs * (nrows * ndevs - 1)] draws of the rows that [new_map] permutes
    (and [develop_map] then overwrites); there is no draw when
    [ndevs == 2]. *)
Theorem develop_map_random_stream (bmap : map_t) (rng1 rng2 : Z) :
  wf_map bmap ->
  let draws := if ndevs bmap =? 2 then O
               else Z.to_nat (ndevs bmap * (nrows bmap * ndevs bmap - 1)) in
  exists dmap,
    develop_map bmap rng1 = Returned (dmap, Nat.iter draws rand48_next rng1) /\
    develop_map bmap rng2 = Returned (dmap, Nat.iter draws rand48_next rng2).
Proof.
  intros Hwf draws.
  destruct (develop_map_returns bmap rng1 Hwf) as (d1 & Hrun1 & Hinv1).
  destruct (develop_map_returns bmap rng2 Hwf) as (d2 & Hrun2 & Hinv2).
  rewrite (develop_inv_unique bmap d2 d1 Hwf Hinv2 Hinv1) in Hrun2.
  eexists. split; [exact Hrun1|exact Hrun2].
Qed.

Lemma develop_map_random_stream_witness :
  exists dmap,
    develop_map sample_map 0 = Returned (dmap, Nat.iter 102 rand48_next 0) /\
    develop_map sample_map 1 = Returned (dmap, Nat.iter 102 rand48_next 1).
Proof. apply (develop_map_random_stream sample_map 0 1 sample_map_wf). Defined.

(** C5 fails as stated: on the sample map, from the state in which
    [new_map(6, 2, 2, 3)] left the random stream, [develop_map] leaves the
    stream in another state than it found it. *)
Lemma develop_map_advances_stream :
  exists dmap rng',
    develop_map sample_map 16567311332730 = Returned (dmap, rng') /\
    rng' <> 16567311332730.
Proof.
  eexists. eexists. split; [vm_compute; reflexivity|]. discriminate.
Qed.

(** ** draid.c: the resilver evaluator *)

Lemma is_broken_loop_spec (map : map_t) (dev : Z) (n i : nat) :
  (i + n <= length (broken map))%nat ->
  is_broken_loop n (Z.of_nat i) map dev =
  Returned (if decide (dev ∈ take n (drop i (broken map))) then 1 else 0).
Proof.
  revert i. induction n as [|n IH]; intros i Hlen.
  - cbn [is_broken_loop]. rewrite take_0.
    destruct (decide (dev ∈ [])) as [Hin|_]; [|reflexivity].
    apply elem_of_nil in Hin. contradiction.
  - destruct (lookup_lt_is_Some_2 (broken map) i) as [b Hb]; [lia|].
    simpl. rewrite (load_nat _ _ _ Hb), bind_Returned_l.
    rewrite (drop_S _ _ _ Hb). simpl.
    destruct (Z.eqb_spec dev b) as [->|Hne].
    + rewrite decide_True; [reflexivity|]. apply list_elem_of_here.
    + replace (Z.of_nat i + 1) with (Z.of_nat (S i)) by lia.
      rewrite IH by lia.
      destruct (decide (dev ∈ take n (drop (S i) (broken map)))) as [Hin|Hin].
      * rewrite decide_True; [reflexivity|]. apply list_elem_of_further, Hin.
      * rewrite decide_False; [reflexivity|].
        intros [?|?]%elem_of_cons; contradiction.
Qed.

Lemma is_broken_spec (map : map_t) (dev : Z) :
  nbroken map <= Z.of_nat (length (broken map)) ->
  is_broken map dev =
  Returned (if decide (dev ∈ broken_set map) then 1 else 0).
Proof.
  intros Hn. unfold is_broken, broken_set.
  apply (is_broken_loop_spec map dev (Z.to_nat (nbroken map)) 0). lia.
Qed.

Lemma group_scan_loop_spec (map : map_t) (each_row : list Z) (index : Z)
    (n k : nat) :
  nbroken map <= Z.of_nat (length (broken map)) ->
  0 <= index ->
  (Z.to_nat index + k + n <= length each_row)%nat ->
  group_scan_loop n (Z.of_nat k) map each_row index =
  Returned
    (if decide (filter (fun d => d ∈ broken_set map)
                  (take n (drop (Z.to_nat index + k) each_row)) = [])
     then 0 else 1).
Proof.
  intros Hb Hindex. revert k. induction n as [|n IH]; intros k Hlen.
  - reflexivity.
  - destruct (lookup_lt_is_Some_2 each_row (Z.to_nat index + k)) as [d Hd];
      [lia|].
    simpl. rewrite (proj2 (load_Returned each_row (index + Z.of_nat k) d)).
    2:{ split; [lia|]. replace (Z.to_nat (index + Z.of_nat k))
          with (Z.to_nat index + k)%nat by lia. exact Hd. }
    rewrite bind_Returned_l, is_broken_spec, bind_Returned_l by exact Hb.
    rewrite (drop_S _ _ _ Hd). cbn [take]. rewrite filter_cons.
    destruct (decide (d ∈ broken_set map)) as [Hin|Hin]; cbn [Z.eqb].
    + destruct (decide (_ = [])) as [?|_]; [discriminate|reflexivity].
    + replace (Z.of_nat k + 1) with (Z.of_nat (S k)) by lia.
      rewrite IH by lia. rewrite Nat.add_succ_r. reflexivity.
Qed.

Lemma group_scan_spec (map : map_t) (each_row : list Z) (index groupsz : Z) :
  nbroken map <= Z.of_nat (length (broken map)) ->
  0 <= index -> 0 <= groupsz ->
  index + groupsz <= Z.of_nat (length each_row) ->
  group_scan map each_row index groupsz =
  Returned
    (if decide (filter (fun d => d ∈ broken_set map)
                  (group_devs each_row index groupsz) = [])
     then 0 else 1).
Proof.
  intros Hb Hi Hg Hlen. unfold group_scan, group_devs.
  change 0 with (Z.of_nat 0) at 1.
  rewrite (group_scan_loop_spec map each_row index (Z.to_nat groupsz) 0)
    by lia.
  rewrite Nat.add_0_r. reflexivity.
Qed.

(** The fuel of [skip_broken] is exact: below [ndevs], the function is the
    loop test followed, for a failed device, by the body of the loop and
    the loop again. *)
Lemma skip_broken_unfold (map : map_t) (each_row : list Z) (spareIndex : Z) :
  spareIndex < ndevs map ->
  skip_broken (Z.to_nat (ndevs map - spareIndex)) map each_row spareIndex =
  dev ← load each_row spareIndex;
  b ← is_broken map dev;
  if b =? 0 then Returned spareIndex
  else
    _ ← assert (spareIndex + 1 <? ndevs map);
    skip_broken (Z.to_nat (ndevs map - (spareIndex + 1))) map each_row
      (spareIndex + 1).
Proof.
  intros Hlt.
  replace (Z.to_nat (ndevs map - spareIndex))
    with (S (Z.to_nat (ndevs map - (spareIndex + 1)))) by lia.
  reflexivity.
Qed.

(** The loop that skips the failed spares stops at the first healthy
    device from [spareIndex] on, when there is one. *)
Lemma skip_broken_spec (map : map_t) (each_row : list Z) (n : nat)
    (spareIndex : Z) (d : Z) (rest : list Z) :
  nbroken map <= Z.of_nat (length (broken map)) ->
  Z.of_nat (length each_row) = ndevs map ->
  0 <= spareIndex ->
  Z.of_nat n = ndevs map - spareIndex ->
  healthy_from map each_row spareIndex = d :: rest ->
  exists s,
    skip_broken n map each_row spareIndex = Returned s /\
    spareIndex <= s < ndevs map /\
    load each_row s = Returned d /\
    healthy_from map each_row (s + 1) = rest.
Proof.
  intros Hb Hlen. revert spareIndex.
  induction n as [|n IH]; intros c Hc Hn Hh; unfold healthy_from in Hh.
  - rewrite drop_ge in Hh by lia. discriminate.
  - destruct (lookup_lt_is_Some_2 each_row (Z.to_nat c)) as [d0 Hd0]; [lia|].
    assert (Hload : load each_row c = Returned d0).
    { apply load_Returned. split; [lia|exact Hd0]. }
    simpl. rewrite Hload, bind_Returned_l, is_broken_spec, bind_Returned_l
      by exact Hb.
    rewrite (drop_S _ _ _ Hd0), filter_cons in Hh.
    replace (S (Z.to_nat c)) with (Z.to_nat (c + 1)) in Hh by lia.
    destruct (decide (d0 ∈ broken_set map)) as [Hin|Hin].
    + rewrite decide_False in Hh by auto. simpl.
      assert (Hlt : c + 1 < ndevs map).
      { destruct (Z.lt_ge_cases (c + 1) (ndevs map)) as [?|Hge]; [assumption|].
        rewrite drop_ge in Hh by lia. discriminate. }
      unfold assert. rewrite (proj2 (Z.ltb_lt _ _) Hlt), bind_Returned_l.
      destruct (IH (c + 1)) as (s & Hs & Hrange & Hld & Hrest);
        [lia|lia|exact Hh|].
      exists s. split; [exact Hs|]. split; [lia|]. auto.
    + rewrite decide_True in Hh by auto. injection Hh as <- <-. simpl.
      exists c. split; [reflexivity|]. split; [lia|]. auto.
Qed.

Lemma length_bump (c : list Z) (d : Z) : length (bump c d) = length c.
Proof.
  unfold bump. destruct (d <? 0); [reflexivity|].
  destruct (c !! Z.to_nat d); [apply length_insert|reflexivity].
Qed.

(** [tally] counts: the counter of a device grows by the number of its
    occurrences in [devs]. *)
Lemma tally_lookup (devs c : list Z) (d : nat) (x : Z) :
  c !! d = Some x ->
  tally devs c !! d =
  Some (x + Z.of_nat (length (filter (fun e => e = Z.of_nat d) devs))).
Proof.
  revert c x. induction devs as [|e devs IH]; intros c x Hx.
  - simpl. rewrite Hx. f_equal. lia.
  - unfold tally in *. cbn [fold_left]. rewrite filter_cons.
    destruct (decide (e = Z.of_nat d)) as [->|Hne].
    + rewrite (IH _ (x + 1)).
      * f_equal. cbn [length]. lia.
      * unfold bump. destruct (Z.ltb_spec (Z.of_nat d) 0); [lia|].
        rewrite Nat2Z.id, Hx. apply list_lookup_insert_eq.
        apply lookup_lt_Some in Hx. exact Hx.
    + apply IH. unfold bump. destruct (e <? 0) eqn:He; [exact Hx|].
      destruct (c !! Z.to_nat e); [|exact Hx].
      rewrite list_lookup_insert_ne; [exact Hx|].
      apply Z.ltb_ge in He. lia.
Qed.

Lemma length_tally (devs c : list Z) : length (tally devs c) = length c.
Proof.
  revert c. induction devs as [|d devs IH]; intros c; [reflexivity|].
  unfold tally in *. simpl. rewrite IH. apply length_bump.
Qed.

Lemma tally_snoc (devs c : list Z) (d : Z) :
  tally (devs ++ [d]) c = bump (tally devs c) d.
Proof. unfold tally. rewrite fold_left_app. reflexivity. Qed.

(** [counters[dev]++] inside the array. *)
Lemma increment_spec (c : list Z) (d : Z) :
  0 <= d < Z.of_nat (length c) ->
  (r ← load c d; store c d (r + 1)) = Returned (bump c d).
Proof.
  intros Hd. destruct (lookup_lt_is_Some_2 c (Z.to_nat d)) as [r Hr]; [lia|].
  rewrite (proj2 (load_Returned c d r)) by (split; [lia|exact Hr]).
  rewrite bind_Returned_l, store_in_bounds by lia.
  unfold bump. destruct (Z.ltb_spec d 0); [lia|]. rewrite Hr. reflexivity.
Qed.

Lemma bind_assoc {A B C} (x : outcome A) (f : A -> outcome B)
    (g : B -> outcome C) :
  (x ≫= f) ≫= g = x ≫= (fun a => f a ≫= g).
Proof. destruct x; reflexivity. Qed.

(** A slot whose device has not failed: one read of the device. *)
Lemma resilver_slot_healthy (map : map_t) (each_row : list Z) (index k : Z)
    (c : Z) (reads writes : list Z) (dev : Z) :
  nbroken map <= Z.of_nat (length (broken map)) ->
  load each_row (index + k) = Returned dev ->
  dev ∉ broken_set map ->
  0 <= dev < Z.of_nat (length reads) ->
  resilver_slot map each_row index k (c, reads, writes) =
  Returned (c, bump reads dev, writes).
Proof.
  intros Hb Hdev Hh Hrange. unfold resilver_slot.
  rewrite Hdev, bind_Returned_l, is_broken_spec, bind_Returned_l by exact Hb.
  rewrite decide_False by exact Hh. cbn [Z.eqb].
  rewrite <- bind_assoc, increment_spec by exact Hrange. reflexivity.
Qed.

(** A slot whose device has failed: one write to the first healthy device
    from the cursor on; the cursor moves behind its slot. *)
Lemma resilver_slot_failed (map : map_t) (each_row : list Z) (index k : Z)
    (c : Z) (reads writes : list Z) (dev d : Z) (rest : list Z) :
  nbroken map <= Z.of_nat (length (broken map)) ->
  Z.of_nat (length each_row) = ndevs map ->
  load each_row (index + k) = Returned dev ->
  dev ∈ broken_set map ->
  0 <= c ->
  healthy_from map each_row c = d :: rest ->
  0 <= d < Z.of_nat (length writes) ->
  exists s,
    resilver_slot map each_row index k (c, reads, writes) =
      Returned (s + 1, reads, bump writes d) /\
    c <= s < ndevs map /\
    load each_row s = Returned d /\
    healthy_from map each_row (s + 1) = rest.
Proof.
  intros Hb Hlen Hdev Hf Hc Hh Hrange. unfold resilver_slot.
  rewrite Hdev, bind_Returned_l, is_broken_spec, bind_Returned_l by exact Hb.
  rewrite decide_True by exact Hf. cbn [Z.eqb].
  assert (Hlt : c < ndevs map).
  { destruct (Z.lt_ge_cases c (ndevs map)) as [?|Hge]; [assumption|].
    unfold healthy_from in Hh. rewrite drop_ge in Hh by lia. discriminate. }
  unfold assert at 1. rewrite (proj2 (Z.ltb_lt _ _) Hlt), bind_Returned_l.
  destruct (skip_broken_spec map each_row (Z.to_nat (ndevs map - c)) c d rest)
    as (s & Hs & Hsr & Hld & Hrest); [assumption|assumption|assumption|lia|assumption|].
  rewrite Hs, bind_Returned_l, Hld, bind_Returned_l.
  rewrite <- bind_assoc, increment_spec by exact Hrange.
  exists s. auto.
Qed.

Lemma group_devs_lookup (each_row : list Z) (index groupsz k : Z) :
  0 <= index -> 0 <= k < groupsz ->
  index + groupsz <= Z.of_nat (length each_row) ->
  exists dev,
    load each_row (index + k) = Returned dev /\
    take (Z.to_nat (k + 1)) (group_devs each_row index groupsz) =
    take (Z.to_nat k) (group_devs each_row index groupsz) ++ [dev].
Proof.
  intros Hi Hk Hlen.
  destruct (load_in_bounds each_row (index + k)) as [dev Hdev]; [lia|].
  exists dev. split; [exact Hdev|].
  replace (Z.to_nat (k + 1)) with (S (Z.to_nat k)) by lia.
  apply take_S_r. unfold group_devs.
  rewrite lookup_take_lt by lia. rewrite lookup_drop.
  apply load_Returned in Hdev as [_ Hdev].
  replace (Z.to_nat index + Z.to_nat k)%nat with (Z.to_nat (index + k)) by lia.
  exact Hdev.
Qed.

Lemma filter_take_length {A} (P : A -> Prop) `{!forall x, Decision (P x)}
    (l : list A) (n : nat) :
  (length (filter P (take n l)) <= length (filter P l))%nat.
Proof.
  rewrite <- (take_drop n l) at 2. rewrite filter_app, length_app. lia.
Qed.

(** The loop over the slots of a group, when the row has enough healthy
    spares for the failed devices of the group. *)
Lemma resilver_failed_group_returns (map : map_t) (each_row : list Z)
    (index groupsz : Z) (reads writes : list Z) :
  nbroken map <= Z.of_nat (length (broken map)) ->
  Z.of_nat (length each_row) = ndevs map ->
  Forall (fun d => 0 <= d < ndevs map) each_row ->
  0 <= nspares map <= ndevs map ->
  0 <= index -> 0 <= groupsz -> index + groupsz <= ndevs map ->
  Z.of_nat (length reads) = ndevs map ->
  Z.of_nat (length writes) = ndevs map ->
  let devs := group_devs each_row index groupsz in
  let b := length (filter (fun d => d ∈ broken_set map) devs) in
  (b <= length (healthy_spares map each_row))%nat ->
  exists cursor,
    resilver_failed_group map each_row index groupsz reads writes =
      Returned (cursor,
                tally (filter (fun d => d ∉ broken_set map) devs) reads,
                tally (take b (healthy_spares map each_row)) writes) /\
    ndevs map - nspares map <= cursor <= ndevs map /\
    healthy_from map each_row cursor = drop b (healthy_spares map each_row).
Proof.
  intros Hb Hlen Hrange Hs Hi Hg Hig Hlr Hlw devs b Hcount.
  set (spares := healthy_spares map each_row) in *.
  destruct (for_range_total
    (fun k '(c, r, w) =>
       let seen := take (Z.to_nat k) devs in
       let bk := length (filter (fun d => d ∈ broken_set map) seen) in
       r = tally (filter (fun d => d ∉ broken_set map) seen) reads /\
       w = tally (take bk spares) writes /\
       healthy_from map each_row c = drop bk spares /\
       ndevs map - nspares map <= c <= ndevs map)
    (resilver_slot map each_row index) 0 groupsz
    (ndevs map - nspares map, reads, writes))
    as ([[c r] w] & Hrun & Hr & Hw & Hh & Hc).
  - exact Hg.
  - simpl. repeat split; try reflexivity; lia.
  - intros k [[c r] w] Hk (Hr & Hw & Hh & Hc).
    destruct (group_devs_lookup each_row index groupsz k) as (dev & Hdev & Htk);
      [lia|lia|lia|].
    fold devs in Htk. cbv zeta. rewrite Htk, !filter_app, !filter_cons, !filter_nil.
    set (seen := take (Z.to_nat k) devs) in *.
    set (bk := length (filter (fun d => d ∈ broken_set map) seen)) in *.
    assert (Hdr : 0 <= dev < ndevs map).
    { rewrite Forall_forall in Hrange. apply Hrange.
      apply load_Returned in Hdev as [_ Hdev].
      eapply list_elem_of_lookup_2, Hdev. }
    destruct (decide (dev ∈ broken_set map)) as [Hf|Hf].
    + rewrite decide_False by auto. rewrite app_nil_r, length_app.
      cbn [length].
      assert (Hbk : (bk < length spares)%nat).
      { pose proof (filter_take_length (fun d => d ∈ broken_set map) devs
                      (Z.to_nat (k + 1))) as Hle.
        rewrite Htk, filter_app, filter_cons, decide_True, length_app in Hle
          by exact Hf.
        simpl in Hle. fold seen bk b in Hle. lia. }
      destruct (lookup_lt_is_Some_2 spares bk Hbk) as [d Hd].
      rewrite (drop_S _ _ _ Hd) in Hh.
      assert (Hdrange : 0 <= d < ndevs map).
      { rewrite Forall_forall in Hrange. apply Hrange.
        apply list_elem_of_lookup_2 in Hd. unfold spares, healthy_spares,
          healthy_from in Hd.
        apply list_elem_of_filter in Hd as [_ Hd].
        eapply (subseteq_drop _ each_row), Hd. }
      destruct (resilver_slot_failed map each_row index k c r w dev d
                  (drop (S bk) spares)) as (s & Hslot & Hsr & _ & Hrest);
        try assumption; [lia| |].
      { subst w. rewrite length_tally. lia. }
      rewrite Hslot. eexists. split; [reflexivity|]. cbv beta iota.
      split; [exact Hr|]. split; [|split].
      * fold bk. replace (bk + 1)%nat with (S bk) by lia.
        rewrite (take_S_r _ _ _ Hd), tally_snoc, Hw. reflexivity.
      * fold bk. replace (bk + 1)%nat with (S bk) by lia. exact Hrest.
      * lia.
    + rewrite decide_True by auto. rewrite app_nil_r.
      rewrite (resilver_slot_healthy map each_row index k c r w dev);
        try assumption.
      2:{ subst r. rewrite length_tally. lia. }
      eexists. split; [reflexivity|]. cbv beta iota.
      split; [rewrite tally_snoc, Hr; reflexivity|]. auto.
  - exists c. unfold resilver_failed_group. rewrite Hrun.
    assert (Hall : take (Z.to_nat groupsz) devs = devs).
    { apply take_ge. unfold devs, group_devs. rewrite length_take. lia. }
    cbv zeta in Hr, Hw, Hh. rewrite Hall in Hr, Hw, Hh. subst r w.
    split; [reflexivity|]. split; [exact Hc|exact Hh].
Qed.

Lemma group_spares_sublist {A} (l : list A) (i g lo : nat) :
  (i + g <= lo)%nat -> take g (drop i l) ++ drop lo l `sublist_of` l.
Proof.
  intros Hle. rewrite <- (take_drop i l) at 3. apply sublist_inserts_l.
  rewrite <- (take_drop g (drop i l)) at 2.
  apply sublist_app; [reflexivity|]. rewrite drop_drop.
  replace lo with (i + g + (lo - (i + g)))%nat by lia.
  rewrite <- drop_drop. apply sublist_drop.
Qed.

(** A row has enough healthy spares for the failed devices of any of its
    groups, as long as the failed devices are distinct and no more than
    the spares. *)
Lemma spares_suffice (map : map_t) (each_row : list Z) (index groupsz : Z) :
  NoDup each_row -> NoDup (broken_set map) ->
  Z.of_nat (length (broken_set map)) <= nspares map ->
  Z.of_nat (length each_row) = ndevs map ->
  0 <= nspares map <= ndevs map ->
  0 <= index -> 0 <= groupsz ->
  index + groupsz <= ndevs map - nspares map ->
  (length (filter (fun d => d ∈ broken_set map)
             (group_devs each_row index groupsz))
   <= length (healthy_spares map each_row))%nat.
Proof.
  intros Hnd Hndb Hnb Hlen Hs Hi Hg Hig.
  set (lo := Z.to_nat (ndevs map - nspares map)).
  set (devs := group_devs each_row index groupsz).
  set (spares := drop lo each_row).
  assert (Hsub : devs ++ spares `sublist_of` each_row).
  { apply group_spares_sublist. lia. }
  assert (Hfail : (length (filter (fun d => d ∈ broken_set map) (devs ++ spares))
                   <= length (broken_set map))%nat).
  { apply submseteq_length, NoDup_submseteq.
    - apply NoDup_filter. eapply sublist_NoDup; [exact Hnd|exact Hsub].
    - intros x Hx. apply list_elem_of_filter in Hx as [Hx _]. exact Hx. }
  rewrite filter_app, length_app in Hfail.
  pose proof (Permutation_length
                (filter_app_complement (fun d => d ∈ broken_set map) spares))
    as Hpart.
  rewrite length_app in Hpart.
  assert (Hls : length spares = Z.to_nat (nspares map)).
  { unfold spares. rewrite length_drop. lia. }
  unfold healthy_spares, healthy_from. fold lo spares devs. lia.
Qed.

Lemma wf_row_facts (map : map_t) (each_row : list Z) :
  wf_map map -> each_row ∈ rows map ->
  Z.of_nat (length each_row) = ndevs map /\
  NoDup each_row /\
  Forall (fun d => 0 <= d < ndevs map) each_row.
Proof.
  intros Hwf Hin. pose proof (wf_rows map Hwf) as Hp.
  rewrite Forall_forall in Hp. specialize (Hp _ Hin).
  pose proof (wf_ndevs map Hwf) as Hn. split; [|split].
  - rewrite (Permutation_length Hp), length_seqZ. lia.
  - rewrite Hp. apply NoDup_seqZ.
  - rewrite Hp. apply Forall_seqZ. intros d Hd. lia.
Qed.

Lemma failures_fit_inv (map : map_t) :
  wf_map map -> failures_fit map ->
  nbroken map <= Z.of_nat (length (broken map)) /\
  Z.of_nat (length (broken_set map)) <= nspares map.
Proof.
  intros Hwf [Hn _]. pose proof (wf_broken map Hwf) as Hb.
  unfold broken_set. rewrite length_take. lia.
Qed.

(** The body of the loop over the groups, on a well-formed map whose
    failures fit. *)
Lemma resilver_group_returns (map : map_t) (each_row : list Z) (j : Z)
    (index g : Z) (reads writes : list Z) :
  wf_map map -> failures_fit map -> each_row ∈ rows map ->
  load (groupsz map) j = Returned g ->
  0 <= index -> 0 <= g -> index + g <= ndevs map - nspares map ->
  Z.of_nat (length reads) = ndevs map ->
  Z.of_nat (length writes) = ndevs map ->
  let devs := group_devs each_row index g in
  let b := length (filter (fun d => d ∈ broken_set map) devs) in
  resilver_group map each_row j (index, reads, writes) =
  Returned (index + g,
            tally (if decide (b = O) then []
                   else filter (fun d => d ∉ broken_set map) devs) reads,
            tally (take b (healthy_spares map each_row)) writes).
Proof.
  intros Hwf Hfit Hrow Hg Hi Hg0 Hig Hlr Hlw devs b.
  destruct (wf_row_facts map each_row Hwf Hrow) as (Hlen & Hnd & Hrange).
  destruct (failures_fit_inv map Hwf Hfit) as [Hb Hnb].
  pose proof (wf_nspares map Hwf) as Hs.
  unfold resilver_group. rewrite Hg, bind_Returned_l.
  rewrite group_scan_spec, bind_Returned_l by lia. fold devs.
  destruct (decide (filter (fun d => d ∈ broken_set map) devs = [])) as [He|He].
  - cbn [Z.eqb]. subst b. rewrite He. reflexivity.
  - cbn [Z.eqb].
    destruct (resilver_failed_group_returns map each_row index g reads writes)
      as (c & Hrun & _); try assumption; try lia.
    { apply spares_suffice; try assumption; apply Hfit. }
    rewrite Hrun, bind_Returned_l. fold devs b.
    rewrite decide_False; [reflexivity|].
    subst b. destruct (filter _ devs); [contradiction|discriminate].
Qed.

Lemma resilver_group_io (map : map_t) (each_row : list Z) (j : Z)
    (index g : Z) (reads writes : list Z) :
  wf_map map -> failures_fit map -> each_row ∈ rows map ->
  load (groupsz map) j = Returned g ->
  0 <= index -> 0 <= g -> index + g <= ndevs map - nspares map ->
  Z.of_nat (length reads) = ndevs map ->
  Z.of_nat (length writes) = ndevs map ->
  resilver_group map each_row j (index, reads, writes) =
  Returned (index + g,
            tally (group_reads map each_row (index, g)) reads,
            tally (group_writes map each_row (index, g)) writes).
Proof.
  intros Hwf Hfit Hrow Hg Hi Hg0 Hig Hlr Hlw.
  rewrite (resilver_group_returns map each_row j index g reads writes)
    by assumption.
  unfold group_reads, group_writes. cbn [fst snd].
  destruct (decide (filter _ (group_devs each_row index g) = [])) as [He|He].
  - rewrite He. reflexivity.
  - rewrite decide_False; [reflexivity|].
    destruct (filter _ (group_devs each_row index g));
      [contradiction|discriminate].
Qed.

Lemma tally_app (l1 l2 c : list Z) : tally (l1 ++ l2) c = tally l2 (tally l1 c).
Proof. unfold tally. apply fold_left_app. Qed.

Lemma group_slots_snoc (index : Z) (gs : list Z) (g : Z) :
  group_slots index (gs ++ [g]) =
  group_slots index gs ++ [(index + sum_list gs, g)].
Proof.
  revert index. induction gs as [|g0 gs IH]; intros index.
  - simpl. rewrite Z.add_0_r. reflexivity.
  - simpl. rewrite IH. unfold sum_list. simpl.
    rewrite Z.add_assoc. reflexivity.
Qed.

Lemma sum_list_app (l1 l2 : list Z) :
  sum_list (l1 ++ l2) = sum_list l1 + sum_list l2.
Proof.
  unfold sum_list. induction l1 as [|x l1 IH]; simpl; [reflexivity|].
  rewrite IH. lia.
Qed.

Lemma sum_list_nonneg (l : list Z) :
  Forall (fun g => 0 <= g) l -> 0 <= sum_list l.
Proof.
  induction 1 as [|x l Hx _ IH]; unfold sum_list in *; simpl; lia.
Qed.

Lemma sum_list_take (l : list Z) (n : nat) :
  Forall (fun g => 0 <= g) l ->
  0 <= sum_list (take n l) <= sum_list l.
Proof.
  intros Hl. rewrite <- (take_drop n l) at 3. rewrite sum_list_app.
  pose proof (sum_list_nonneg (take n l) (Forall_take _ _ _ Hl)).
  pose proof (sum_list_nonneg (drop n l) (Forall_drop _ _ _ Hl)). lia.
Qed.

(** The I/O of one row: the reads and the writes of its groups. *)
Lemma resilver_row_io (map : map_t) (i : Z) (each_row : list Z)
    (reads writes : list Z) :
  wf_map map -> failures_fit map ->
  load (rows map) i = Returned each_row ->
  Z.of_nat (length reads) = ndevs map ->
  Z.of_nat (length writes) = ndevs map ->
  resilver_row map i (reads, writes) =
  Returned (tally (row_reads map each_row) reads,
            tally (row_writes map each_row) writes).
Proof.
  intros Hwf Hfit Hrow Hlr Hlw.
  assert (Hin : each_row ∈ rows map).
  { apply load_Returned in Hrow as [_ Hrow]. eapply list_elem_of_lookup_2, Hrow. }
  pose proof (wf_ngroups map Hwf) as Hng.
  pose proof (wf_groupsz map Hwf) as Hgs.
  pose proof (wf_groups map Hwf) as Hsum.
  unfold resilver_row. rewrite Hrow, bind_Returned_l.
  destruct (for_range_total
    (fun k '(index, r, w) =>
       let done := group_slots 0 (take (Z.to_nat k) (groupsz map)) in
       index = sum_list (take (Z.to_nat k) (groupsz map)) /\
       r = tally (concat (group_reads map each_row <$> done)) reads /\
       w = tally (concat (group_writes map each_row <$> done)) writes)
    (resilver_group map each_row) 0 (ngroups map) (0, reads, writes))
    as ([[index r] w] & Hrun & Hindex & Hr & Hw).
  - lia.
  - simpl. auto.
  - intros k [[index r] w] Hk (Hindex & Hr & Hw).
    destruct (load_in_bounds (groupsz map) k) as [g Hg]; [lia|].
    assert (Htk : take (Z.to_nat (k + 1)) (groupsz map) =
                  take (Z.to_nat k) (groupsz map) ++ [g]).
    { replace (Z.to_nat (k + 1)) with (S (Z.to_nat k)) by lia.
      apply take_S_r. apply load_Returned in Hg as [_ Hg]. exact Hg. }
    pose proof (sum_list_take (groupsz map) (Z.to_nat k) Hgs) as Hlo.
    pose proof (sum_list_take (groupsz map) (Z.to_nat (k + 1)) Hgs) as Hhi.
    rewrite Htk, sum_list_app in Hhi. unfold sum_list at 2 in Hhi.
    simpl in Hhi.
    assert (Hg0 : 0 <= g).
    { rewrite Forall_forall in Hgs. apply Hgs.
      apply load_Returned in Hg as [_ Hg]. eapply list_elem_of_lookup_2, Hg. }
    rewrite (resilver_group_io map each_row k index g r w); try assumption;
      try lia.
    2:{ subst r. rewrite length_tally. exact Hlr. }
    2:{ subst w. rewrite length_tally. exact Hlw. }
    eexists. split; [reflexivity|]. cbv beta iota zeta.
    rewrite Htk, group_slots_snoc, !fmap_app, !concat_app, !tally_app.
    rewrite sum_list_app. unfold sum_list at 2. simpl.
    rewrite !app_nil_r, Z.add_0_r, Z.add_0_l, <- Hindex, <- Hr, <- Hw.
    auto.
  - rewrite Hrun, bind_Returned_l. cbv zeta in Hr, Hw.
    rewrite take_ge in Hr, Hw by lia. subst r w. reflexivity.
Qed.

(** The counters after the loop over all rows. *)
Lemma resilver_rows_io (map : map_t) :
  wf_map map -> failures_fit map ->
  resilver_rows map =
  Returned (tally (map_reads map) (replicate (Z.to_nat (ndevs map)) 0),
            tally (map_writes map) (replicate (Z.to_nat (ndevs map)) 0)).
Proof.
  intros Hwf Hfit. pose proof (wf_ndevs map Hwf) as Hn.
  pose proof (wf_nrows map Hwf) as Hnr.
  unfold resilver_rows, vla.
  destruct (Z.leb_spec (ndevs map) 0) as [?|_]; [lia|].
  rewrite !bind_Returned_l.
  set (zeros := replicate (Z.to_nat (ndevs map)) 0).
  assert (Hlz : Z.of_nat (length zeros) = ndevs map).
  { unfold zeros. rewrite length_replicate. lia. }
  destruct (for_range_total
    (fun k '(r, w) =>
       let done := take (Z.to_nat k) (rows map) in
       r = tally (concat (row_reads map <$> done)) zeros /\
       w = tally (concat (row_writes map <$> done)) zeros)
    (resilver_row map) 0 (nrows map) (zeros, zeros))
    as ([r w] & Hrun & Hr & Hw).
  - lia.
  - simpl. auto.
  - intros k [r w] Hk (Hr & Hw).
    destruct (load_in_bounds (rows map) k) as [row Hrow]; [lia|].
    rewrite (resilver_row_io map k row r w); try assumption.
    2:{ subst r. rewrite length_tally. exact Hlz. }
    2:{ subst w. rewrite length_tally. exact Hlz. }
    eexists. split; [reflexivity|]. cbv beta iota zeta.
    replace (Z.to_nat (k + 1)) with (S (Z.to_nat k)) by lia.
    apply load_Returned in Hrow as [_ Hrow].
    rewrite (take_S_r _ _ _ Hrow), !fmap_app, !concat_app, !tally_app.
    simpl. rewrite !app_nil_r, <- Hr, <- Hw. auto.
  - rewrite Hrun. cbv zeta in Hr, Hw. rewrite take_ge in Hr, Hw by lia.
    subst r w. reflexivity.
Qed.

Lemma max_of_snoc (l : list Z) (x : Z) : max_of (l ++ [x]) = Z.max (max_of l) x.
Proof. unfold max_of. rewrite fold_left_app. reflexivity. Qed.

Lemma gtb_max (x m : Z) : (if x >? m then x else m) = Z.max m x.
Proof. rewrite Z.gtb_ltb. destruct (Z.ltb_spec m x); lia. Qed.

(** The loop that finds the drive with most I/O. *)
Lemma most_io_spec (n : Z) (reads writes : list Z) :
  Z.of_nat (length reads) = n -> Z.of_nat (length writes) = n ->
  most_io n reads writes =
  Returned (max_of reads, max_of writes, max_of (zip_with Z.add reads writes)).
Proof.
  intros Hlr Hlw. unfold most_io.
  destruct (for_range_total
    (fun k '(mr, mw, mi) =>
       mr = max_of (take (Z.to_nat k) reads) /\
       mw = max_of (take (Z.to_nat k) writes) /\
       mi = max_of (take (Z.to_nat k) (zip_with Z.add reads writes)))
    (fun i '(max_read, max_write, max_ios) =>
       r ← load reads i;
       w ← load writes i;
       Returned (if r >? max_read then r else max_read,
                 if w >? max_write then w else max_write,
                 if r + w >? max_ios then r + w else max_ios))
    0 n (0, 0, 0)) as ([[mr mw] mi] & Hrun & Hr & Hw & Hi).
  - lia.
  - simpl. auto.
  - intros k [[mr mw] mi] Hk (Hr & Hw & Hi).
    destruct (load_in_bounds reads k) as [r Hrk]; [lia|].
    destruct (load_in_bounds writes k) as [w Hwk]; [lia|].
    rewrite Hrk, bind_Returned_l, Hwk, bind_Returned_l.
    eexists. split; [reflexivity|]. cbv beta iota.
    apply load_Returned in Hrk as [_ Hrk]. apply load_Returned in Hwk as [_ Hwk].
    replace (Z.to_nat (k + 1)) with (S (Z.to_nat k)) by lia.
    rewrite (take_S_r _ _ _ Hrk), (take_S_r _ _ _ Hwk).
    rewrite (take_S_r _ _ (r + w)).
    2:{ rewrite lookup_zip_with, Hrk, Hwk. reflexivity. }
    rewrite !max_of_snoc, !gtb_max, Hr, Hw, Hi. auto.
  - rewrite Hrun. rewrite !take_ge in Hr, Hw, Hi
      by (rewrite ?length_zip_with; lia).
    subst. reflexivity.
Qed.

(** [eval_resilver] on a well-formed map whose failures fit the spares:
    the largest sum of the reads and the writes of a device. *)
Lemma eval_resilver_io (map : map_t) (print : Z) :
  wf_map map -> failures_fit map ->
  eval_resilver map print =
  Returned
    (max_of (zip_with Z.add
               (tally (map_reads map) (replicate (Z.to_nat (ndevs map)) 0))
               (tally (map_writes map) (replicate (Z.to_nat (ndevs map)) 0))),
     map).
Proof.
  intros Hwf Hfit. pose proof (wf_ndevs map Hwf) as Hn.
  unfold eval_resilver.
  rewrite resilver_rows_io, bind_Returned_l by assumption.
  rewrite most_io_spec, bind_Returned_l
    by (rewrite length_tally, length_replicate; lia).
  reflexivity.
Qed.

Lemma group_slots_bounds (gs : list Z) (i0 index g : Z) :
  Forall (fun g => 0 <= g) gs ->
  (index, g) ∈ group_slots i0 gs ->
  i0 <= index /\ 0 <= g /\ index + g <= i0 + sum_list gs.
Proof.
  intros Hgs. revert i0. induction Hgs as [|g0 gs Hg0 Hgs IH]; intros i0 Hin.
  - apply elem_of_nil in Hin. contradiction.
  - pose proof (sum_list_nonneg gs Hgs) as Hs.
    unfold sum_list in *. simpl in *.
    apply elem_of_cons in Hin as [[= -> ->]|Hin]; [lia|].
    specialize (IH _ Hin). lia.
Qed.

Lemma healthy_spares_facts (map : map_t) (each_row : list Z) (n : nat) :
  NoDup each_row ->
  let written := take n (healthy_spares map each_row) in
  NoDup written /\
  Forall (fun d => (d ∉ broken_set map) /\
                   d ∈ drop (Z.to_nat (ndevs map - nspares map)) each_row)
    written.
Proof.
  intros Hnd written. split.
  - eapply sublist_NoDup; [|apply sublist_take].
    apply NoDup_filter. eapply sublist_NoDup; [exact Hnd|apply sublist_drop].
  - apply Forall_take. apply Forall_forall. intros d Hd.
    apply list_elem_of_filter in Hd. exact Hd.
Qed.

(** C3, as the code has it.  On a well-formed map whose failed devices are
    distinct and no more than the spares, the loop body of [eval_resilver]
    for a row returns, and the row adds to the counters the reads and the
    writes of its groups.  For every group of the row with [b] failed
    devices: a group without failure reads and writes nothing; in a group
    with a failure every slot whose device has not failed produces exactly
    one read, of its device, and the [b] failed slots produce exactly one
    write each, to the first [b] healthy spares of the row in slot order,
    which are distinct, healthy and in spare slots.  The cursor is local
    to the group: it starts at the first spare slot for every group with a
    failure (so two such groups of a row write to the same spares), moves
    left to right past exactly the [b] healthy spares it wrote, and never
    exceeds [ndevs]. *)
Theorem resilver_row_spec (map : map_t) (i : Z) (each_row : list Z)
    (reads writes : list Z) :
  wf_map map -> failures_fit map ->
  load (rows map) i = Returned each_row ->
  Z.of_nat (length reads) = ndevs map ->
  Z.of_nat (length writes) = ndevs map ->
  resilver_row map i (reads, writes) =
    Returned (tally (row_reads map each_row) reads,
              tally (row_writes map each_row) writes) /\
  forall index g, (index, g) ∈ group_slots 0 (groupsz map) ->
    let devs := group_devs each_row index g in
    let b := length (filter (fun d => d ∈ broken_set map) devs) in
    let written := take b (healthy_spares map each_row) in
    group_reads map each_row (index, g) =
      (if decide (b = O) then []
       else filter (fun d => d ∉ broken_set map) devs) /\
    group_writes map each_row (index, g) = written /\
    length written = b /\
    NoDup written /\
    Forall (fun d => (d ∉ broken_set map) /\
                     d ∈ drop (Z.to_nat (ndevs map - nspares map)) each_row)
      written /\
    forall r w,
      Z.of_nat (length r) = ndevs map -> Z.of_nat (length w) = ndevs map ->
      exists cursor,
        resilver_failed_group map each_row index g r w =
          Returned (cursor,
                    tally (filter (fun d => d ∉ broken_set map) devs) r,
                    tally written w) /\
        ndevs map - nspares map <= cursor <= ndevs map /\
        healthy_from map each_row cursor =
          drop b (healthy_spares map each_row).
Proof.
  intros Hwf Hfit Hrow Hlr Hlw.
  split; [apply resilver_row_io; assumption|].
  intros index g Hin devs b written.
  assert (Hinr : each_row ∈ rows map).
  { apply load_Returned in Hrow as [_ Hrow]. eapply list_elem_of_lookup_2, Hrow. }
  destruct (wf_row_facts map each_row Hwf Hinr) as (Hlen & Hnd & Hrange).
  destruct (failures_fit_inv map Hwf Hfit) as [Hb Hnb].
  pose proof (wf_nspares map Hwf) as Hs.
  pose proof (wf_groups map Hwf) as Hsum.
  destruct (group_slots_bounds _ _ _ _ (wf_groupsz map Hwf) Hin)
    as (Hi & Hg & Hig).
  assert (Hcount : (b <= length (healthy_spares map each_row))%nat).
  { apply spares_suffice; try assumption; try lia. apply Hfit. }
  destruct (healthy_spares_facts map each_row b Hnd) as [Hndw Hfw].
  split; [|split; [|split; [|split; [|split]]]].
  - unfold group_reads. cbn [fst snd]. fold devs.
    destruct (decide (filter (fun d => d ∈ broken_set map) devs = []))
      as [He|He].
    + rewrite decide_True; [reflexivity|]. subst b. rewrite He. reflexivity.
    + rewrite decide_False; [reflexivity|]. subst b.
      destruct (filter _ devs); [contradiction|discriminate].
  - reflexivity.
  - unfold written. rewrite length_take. lia.
  - exact Hndw.
  - exact Hfw.
  - intros r w Hr Hw.
    apply resilver_failed_group_returns; try assumption; lia.
Qed.

Lemma sample_failed_wf : wf_map sample_failed.
Proof.
  constructor; simpl; try lia.
  - apply (bool_decide_unpack _). vm_compute. exact I.
  - repeat constructor; apply (bool_decide_unpack _); vm_compute; exact I.
Qed.

Lemma sample_failed_fit : failures_fit sample_failed.
Proof.
  split; [simpl; lia|]. apply (bool_decide_unpack _). vm_compute. exact I.
Qed.

Lemma resilver_row_spec_witness :
  resilver_row sample_failed 1 (replicate 6 0, replicate 6 0) =
  Returned ([0; 0; 0; 0; 1; 0], [0; 0; 0; 1; 0; 0]).
Proof.
  destruct (resilver_row_spec sample_failed 1 [1; 5; 4; 2; 0; 3]
              (replicate 6 0) (replicate 6 0) sample_failed_wf
              sample_failed_fit eq_refl eq_refl eq_refl) as [Hrun _].
  rewrite Hrun. vm_compute. reflexivity.
Defined.

(** C3 fails as stated.  In row 0 of the sample map with the devices [0]
    and [2] failed, the failed slot of the first group and the failed slot
    of the second group both write to device [4]: the cursor is back at
    the first spare slot for the second group, and the spare device [5] is
    not written. *)
Lemma resilver_row_shares_spare :
  wf_map sample_failed /\ failures_fit sample_failed /\
  exists reads writes,
    resilver_row sample_failed 0 (replicate 6 0, replicate 6 0) =
      Returned (reads, writes) /\
    reads = [0; 1; 0; 1; 0; 0] /\
    writes = [0; 0; 0; 0; 2; 0] /\
    ~ (forall d c, writes !! d = Some c -> c <= 1).
Proof.
  split; [exact sample_failed_wf|]. split; [exact sample_failed_fit|].
  eexists. eexists. split; [vm_compute; reflexivity|].
  split; [reflexivity|]. split; [reflexivity|].
  intros H. specialize (H 4%nat 2 eq_refl). lia.
Qed.

(** ** draid.c: the decluster evaluator *)

Lemma int32_add_l (x y : Z) : int32 (int32 x + y) = int32 (x + y).
Proof.
  unfold int32. f_equal.
  replace ((x + 2 ^ 31) mod 2 ^ 32 - 2 ^ 31 + y + 2 ^ 31)
    with ((x + 2 ^ 31) mod 2 ^ 32 + y) by lia.
  rewrite Zplus_mod_idemp_l. f_equal. lia.
Qed.

Lemma int32_add_r (x y : Z) : int32 (x + int32 y) = int32 (x + y).
Proof. rewrite Z.add_comm, int32_add_l. f_equal. lia. Qed.


Lemma acc_of_accumulate (acc : decluster_t) (ios : list Z) (io w1 w2 : Z) :
  acc_of acc ios -> acc_of (accumulate acc io w1 w2) (ios ++ [io]).
Proof.
  intros (Hs & Hq & Hm & Hn). unfold acc_of, accumulate, sum_squares.
  cbn [sum sumsq max_ios iter_num].
  rewrite fmap_app, !sum_list_app, max_of_snoc, length_app.
  unfold sum_squares in Hq. rewrite Hs, Hq, Hm, Hn.
  rewrite int32_add_r, !int32_add_l.
  cbn [fmap list_fmap]. unfold sum_list. cbn [fold_right].
  repeat split.
  - f_equal. lia.
  - f_equal. lia.
  - destruct (Z.ltb_spec (max_of ios) io); lia.
  - f_equal. cbn [length]. lia.
Qed.

Lemma with_failures_wf (map : map_t) (faults : Z) (fs : list Z) :
  wf_map map -> Z.of_nat (length fs) <= nspares map ->
  wf_map (with_failures map faults fs).
Proof.
  intros [] Hfs. constructor; simpl; try assumption.
  rewrite length_app, length_drop. lia.
Qed.

Lemma with_failures_fit (map : map_t) (fs : list Z) :
  wf_map map -> Z.of_nat (length fs) <= nspares map -> NoDup fs ->
  failures_fit (with_failures map (Z.of_nat (length fs)) fs).
Proof.
  intros Hwf Hfs Hnd. split; simpl; [lia|].
  unfold broken_set. simpl. rewrite Nat2Z.id, take_app_length. exact Hnd.
Qed.

(** [eval_resilver] returns on the map with distinct failures that fit. *)
Lemma resilver_result_exists (map : map_t) (fs : list Z) :
  wf_map map -> Z.of_nat (length fs) <= nspares map -> NoDup fs ->
  exists io, resilver_result map (Z.of_nat (length fs)) fs io.
Proof.
  intros Hwf Hfs Hnd. eexists. unfold resilver_result.
  apply eval_resilver_io.
  - apply with_failures_wf; assumption.
  - apply with_failures_fit; assumption.
Qed.

Lemma store_first (bk b0 : list Z) (f1 : Z) :
  (1 <= length bk)%nat -> drop 1 bk = drop 1 b0 -> length bk = length b0 ->
  <[0%nat := f1]> bk = [f1] ++ drop 1 b0.
Proof.
  intros Hl Hd Hlen. destruct bk as [|x bk]; [simpl in Hl; lia|].
  cbn [drop] in Hd. rewrite drop_0 in Hd. simpl. rewrite Hd. reflexivity.
Qed.

(** The loop of [eval_decluster] for single failures. *)
Lemma inject_single (map : map_t) :
  wf_map map -> 1 <= nspares map ->
  exists ios bk acc,
    Forall2 (resilver_result map 1) (single_failures (ndevs map)) ios /\
    inject_failures (set_nbroken map 1) 1 =
      Returned (set_broken (set_nbroken map 1) bk, acc) /\
    acc_of acc ios.
Proof.
  intros Hwf Hsp. pose proof (wf_ndevs map Hwf) as Hn.
  pose proof (wf_broken map Hwf) as Hbl.
  destruct (for_range_total
    (fun k '(m, acc) =>
       exists ios bk,
         Forall2 (resilver_result map 1) (single_failures k) ios /\
         acc_of acc ios /\
         m = set_broken (set_nbroken map 1) bk /\
         length bk = length (broken map) /\
         drop 1 bk = drop 1 (broken map))
    (fun f1 '(map, acc) =>
       b ← store (broken map) 0 f1;
       let map := set_broken map b in
       if 1 <? 2 then
         '(ios, map) ← eval_resilver map 1;
         Returned (map, accumulate acc ios f1 (worst2 acc))
       else
         for_range (f1 + 1) (ndevs map)
           (fun f2 '(map, acc) =>
              b ← store (broken map) 1 f2;
              let map := set_broken map b in
              '(ios, map) ← eval_resilver map 1;
              Returned (map, accumulate acc ios f1 f2))
           (map, acc))
    0 (ndevs map) (set_nbroken map 1, Build_decluster_t (-1) (-1) 0 0 0 0))
    as ([m acc] & Hrun & ios & bk & Hios & Hacc & Hm & _).
  - lia.
  - exists [], (broken map). split; [constructor|].
    split; [repeat split|]. split; [destruct map; reflexivity|auto].
  - intros k [m acc] Hk (ios & bk & Hios & Hacc & -> & Hlbk & Hdrop).
    cbn [broken set_broken]. rewrite store_in_bounds by lia.
    rewrite bind_Returned_l. cbv zeta. cbn [Z.ltb Z.compare Pos.compare Pos.compare_cont].
    change (Z.to_nat 0) with 0%nat.
    rewrite (store_first bk (broken map) k) by (auto; lia).
    destruct (resilver_result_exists map [k] Hwf) as [io Hio];
      [simpl; lia|apply NoDup_singleton|].
    change (Z.of_nat (length [k])) with 1 in Hio.
    pose proof Hio as Hio'. unfold resilver_result, with_failures in Hio'.
    cbn [length] in Hio'.
    change (set_broken (set_broken (set_nbroken map 1) bk)
              ([k] ++ drop 1 (broken map)))
      with (set_broken (set_nbroken map 1) ([k] ++ drop 1 (broken map))).
    rewrite Hio', bind_Returned_l.
    eexists. split; [reflexivity|].
    exists (ios ++ [io]), ([k] ++ drop 1 (broken map)).
    split; [|split; [|split; [|split]]].
    + unfold single_failures. replace (k + 1) with (Z.of_nat (S (Z.to_nat k)))
        by lia.
      rewrite seqZ_S, fmap_app. apply Forall2_app.
      * unfold single_failures in Hios.
        replace (Z.of_nat (Z.to_nat k)) with k by lia. exact Hios.
      * constructor; [|constructor]. simpl.
        replace (0 + Z.of_nat (Z.to_nat k)) with k by lia. exact Hio.
    + apply acc_of_accumulate, Hacc.
    + reflexivity.
    + simpl. rewrite length_drop. lia.
    + reflexivity.
  - exists ios, bk, acc. split; [exact Hios|]. split; [|exact Hacc].
    rewrite <- Hm. exact Hrun.
Qed.

Lemma seqZ_snoc (m n : Z) : 0 <= n -> seqZ m (n + 1) = seqZ m n ++ [m + n].
Proof. intros Hn. rewrite seqZ_app by lia. reflexivity. Qed.

Lemma double_failures_succ (k n : Z) :
  0 <= k ->
  double_failures (k + 1) n =
  double_failures k n ++ ((fun f2 => [k; f2]) <$> seqZ (k + 1) (n - (k + 1))).
Proof.
  intros Hk. unfold double_failures.
  rewrite seqZ_snoc, bind_app, bind_singleton by lia. reflexivity.
Qed.

Lemma store_second_of (bk b0 : list Z) (f1 f2 : Z) :
  (2 <= length bk)%nat -> bk !! 0%nat = Some f1 -> drop 2 bk = drop 2 b0 ->
  <[1%nat := f2]> bk = [f1; f2] ++ drop 2 b0.
Proof.
  intros Hl H0 Hd. destruct bk as [|x [|y bk]]; simpl in Hl; try lia.
  cbn [drop] in Hd. rewrite drop_0 in Hd. injection H0 as ->.
  simpl. rewrite Hd. reflexivity.
Qed.

(** The loops of [eval_decluster] for double failures. *)
Lemma inject_double (map : map_t) :
  wf_map map -> 2 <= nspares map ->
  exists ios bk acc,
    Forall2 (resilver_result map 2)
      (double_failures (ndevs map) (ndevs map)) ios /\
    inject_failures (set_nbroken map 2) 2 =
      Returned (set_broken (set_nbroken map 2) bk, acc) /\
    acc_of acc ios.
Proof.
  intros Hwf Hsp. pose proof (wf_ndevs map Hwf) as Hn.
  pose proof (wf_broken map Hwf) as Hbl.
  set (n := ndevs map) in *.
  destruct (for_range_total
    (fun k '(m, acc) =>
       exists ios bk,
         Forall2 (resilver_result map 2) (double_failures k n) ios /\
         acc_of acc ios /\
         m = set_broken (set_nbroken map 2) bk /\
         length bk = length (broken map) /\
         drop 2 bk = drop 2 (broken map))
    (fun f1 '(map, acc) =>
       b ← store (broken map) 0 f1;
       let map := set_broken map b in
       if 2 <? 2 then
         '(ios, map) ← eval_resilver map 1;
         Returned (map, accumulate acc ios f1 (worst2 acc))
       else
         for_range (f1 + 1) (ndevs map)
           (fun f2 '(map, acc) =>
              b ← store (broken map) 1 f2;
              let map := set_broken map b in
              '(ios, map) ← eval_resilver map 1;
              Returned (map, accumulate acc ios f1 f2))
           (map, acc))
    0 n (set_nbroken map 2, Build_decluster_t (-1) (-1) 0 0 0 0))
    as ([m acc] & Hrun & ios & bk & Hios & Hacc & Hm & _).
  - lia.
  - exists [], (broken map). split; [constructor|].
    split; [repeat split|]. split; [destruct map; reflexivity|auto].
  - intros k [m acc] Hk (ios & bk & Hios & Hacc & -> & Hlbk & Hdrop).
    cbn [broken set_broken]. rewrite store_in_bounds by lia.
    rewrite bind_Returned_l. cbv zeta.
    cbn [Z.ltb Z.compare Pos.compare Pos.compare_cont ndevs set_broken
         set_nbroken].
    fold n. change (Z.to_nat 0) with 0%nat.
    destruct (for_range_total
      (fun j '(m, acc) =>
         exists ios bk,
           Forall2 (resilver_result map 2)
             (double_failures k n ++
              ((fun f2 => [k; f2]) <$> seqZ (k + 1) (j - (k + 1)))) ios /\
           acc_of acc ios /\
           m = set_broken (set_nbroken map 2) bk /\
           length bk = length (broken map) /\
           drop 2 bk = drop 2 (broken map) /\
           bk !! 0%nat = Some k)
      (fun f2 '(map, acc) =>
         b ← store (broken map) 1 f2;
         let map := set_broken map b in
         '(ios, map) ← eval_resilver map 1;
         Returned (map, accumulate acc ios k f2))
      (k + 1) n
      (set_broken (set_broken (set_nbroken map 2) bk) (<[0%nat := k]> bk), acc))
      as ([m2 acc2] & Hrun2 & ios2 & bk2 & Hios2 & Hacc2 & Hm2 & Hl2 & Hd2 & _).
    + lia.
    + exists ios, (<[0%nat := k]> bk).
      split; [rewrite Z.sub_diag, app_nil_r; exact Hios|].
      split; [exact Hacc|]. split; [reflexivity|].
      split; [rewrite length_insert; exact Hlbk|].
      split; [rewrite drop_insert_lt by lia; exact Hdrop|].
      apply list_lookup_insert_eq. lia.
    + intros j [m3 acc3] Hj (ios3 & bk3 & Hios3 & Hacc3 & -> & Hl3 & Hd3 & H03).
      cbn [broken set_broken]. rewrite store_in_bounds by lia.
      rewrite bind_Returned_l. cbv zeta. change (Z.to_nat 1) with 1%nat.
      rewrite (store_second_of bk3 (broken map) k j) by (auto; lia).
      destruct (resilver_result_exists map [k; j] Hwf) as [io Hio].
      { simpl length. lia. }
      { apply NoDup_cons. split; [|apply NoDup_singleton].
        intros ->%list_elem_of_singleton. lia. }
      change (Z.of_nat (length [k; j])) with 2 in Hio.
      pose proof Hio as Hio'. unfold resilver_result, with_failures in Hio'.
      cbn [length] in Hio'.
      change (set_broken (set_broken (set_nbroken map 2) bk3)
                ([k; j] ++ drop 2 (broken map)))
        with (set_broken (set_nbroken map 2) ([k; j] ++ drop 2 (broken map))).
      rewrite Hio', bind_Returned_l.
      eexists. split; [reflexivity|].
      exists (ios3 ++ [io]), ([k; j] ++ drop 2 (broken map)).
      split; [|split; [|split; [|split; [|split]]]].
      * replace (j + 1 - (k + 1)) with (j - (k + 1) + 1) by lia.
        rewrite seqZ_snoc, fmap_app, app_assoc by lia.
        apply Forall2_app; [exact Hios3|].
        constructor; [|constructor]. simpl.
        replace (k + 1 + (j - (k + 1))) with j by lia. exact Hio.
      * apply acc_of_accumulate, Hacc3.
      * reflexivity.
      * simpl. rewrite length_drop. lia.
      * reflexivity.
      * reflexivity.
    + eexists. split; [exact Hrun2|].
      exists ios2, bk2. rewrite double_failures_succ by lia. auto.
  - exists ios, bk, acc. split; [exact Hios|]. split; [|exact Hacc].
    rewrite <- Hm. exact Hrun.
Qed.




(** The loops of [eval_decluster] return on a well-formed map with room
    for the failures, and accumulate the results of [eval_resilver] over
    the failure sets. *)
Lemma inject_failures_returns (map : map_t) (faults : Z) :
  wf_map map -> faults = 1 \/ faults = 2 -> faults <= nspares map ->
  exists ios bk acc,
    Forall2 (resilver_result map faults)
      (failure_sets (ndevs map) faults) ios /\
    inject_failures (set_nbroken map faults) faults =
      Returned (set_broken (set_nbroken map faults) bk, acc) /\
    acc_of acc ios.
Proof.
  intros Hwf [-> | ->] Hsp.
  - apply inject_single; assumption.
  - apply inject_double; assumption.
Qed.







(** C9, as the code has it.  For a [how] that is none of WORST, MEAN and
    RMS, [eval_decluster] returns nothing, neither a number nor an error:
    after the loops over the failures it reaches [assert(0)], which aborts
    the process. *)
Theorem eval_decluster_unknown_how (map : map_t) (how faults print : Z) :
  how <> EVAL_WORST -> how <> EVAL_MEAN -> how <> EVAL_RMS ->
  (forall r, eval_decluster map how faults print <> Returned r) /\
  (wf_map map -> faults = 1 \/ faults = 2 -> faults <= nspares map ->
   eval_decluster map how faults print = Aborted).
Proof.
  intros Hw Hm Hr.
  assert (Hswitch : forall acc : decluster_t,
    (if how =? EVAL_WORST then Returned (double_of_int (max_ios acc))
     else if how =? EVAL_MEAN then
       Returned (PrimFloat.div (double_of_int (sum acc))
                   (double_of_int (iter_num acc)))
     else if how =? EVAL_RMS then
       Returned (PrimFloat.sqrt
                   (PrimFloat.div (double_of_int (sumsq acc))
                      (double_of_int (iter_num acc))))
     else _ ← assert false; Returned 0%float) = Aborted).
  { intros acc.
    destruct (Z.eqb_spec how EVAL_WORST); [contradiction|].
    destruct (Z.eqb_spec how EVAL_MEAN); [contradiction|].
    destruct (Z.eqb_spec how EVAL_RMS); [contradiction|]. reflexivity. }
  split.
  - intros r. unfold eval_decluster.
    destruct (inject_failures (set_nbroken map faults) faults)
      as [[m acc]| |]; [|discriminate..].
    rewrite bind_Returned_l. cbv zeta. rewrite Hswitch. discriminate.
  - intros Hwf Hfaults Hsp.
    destruct (inject_failures_returns map faults Hwf Hfaults Hsp)
      as (ios & bk & acc & _ & Hrun & _).
    unfold eval_decluster. rewrite Hrun, bind_Returned_l. cbv zeta.
    rewrite Hswitch. reflexivity.
Qed.

Lemma eval_decluster_unknown_how_witness :
  (forall r, eval_decluster sample_map 3 1 1 <> Returned r) /\
  (wf_map sample_map -> 1 = 1 \/ 1 = 2 -> 1 <= nspares sample_map ->
   eval_decluster sample_map 3 1 1 = Aborted).
Proof.
  apply (eval_decluster_unknown_how sample_map 3 1 1); discriminate.
Defined.

(** C9 fails as stated: with [how = 3] the call on the sample map is
    aborted by the assertion; no error is returned. *)
Lemma eval_decluster_aborts :
  eval_decluster sample_map 3 1 1 = Aborted /\
  forall r, eval_decluster sample_map 3 1 1 <> Returned r.
Proof.
  assert (H : eval_decluster sample_map 3 1 1 = Aborted)
    by (vm_compute; reflexivity).
  split; [exact H|]. intros r. rewrite H. discriminate.
Qed.

(** [eval_resilver] does not store through [map]. *)
Lemma eval_resilver_frame (map : map_t) (print : Z) (ios : Z) (map' : map_t) :
  eval_resilver map print = Returned (ios, map') -> map' = map.
Proof.
  unfold eval_resilver. intros H.
  apply bind_Returned in H as ([reads writes] & _ & H).
  apply bind_Returned in H as ([[mr mw] mi] & _ & H).
  injection H as _ <-. reflexivity.
Qed.

Lemma same_layout_set_broken (map0 map : map_t) (b : list Z) :
  same_layout map0 map /\ nbroken map = nbroken map0 ->
  same_layout map0 (set_broken map b) /\
  nbroken (set_broken map b) = nbroken map0.
Proof. intros [H Hn]. split; [exact H|exact Hn]. Qed.

(** The loops of [eval_decluster] store to [broken] only. *)
Lemma inject_failures_frame (map0 : map_t) (faults : Z) (map : map_t)
    (acc : decluster_t) :
  inject_failures map0 faults = Returned (map, acc) ->
  same_layout map0 map /\ nbroken map = nbroken map0.
Proof.
  unfold inject_failures.
  apply (for_range_preserves
           (fun '(m, _) => same_layout map0 m /\ nbroken m = nbroken map0)).
  { repeat split. }
  intros f1 [m a] [m' a'] _ Hm H.
  apply bind_Returned in H as (b & _ & H). cbv zeta in H.
  apply (same_layout_set_broken map0 m b) in Hm.
  destruct (faults <? 2).
  - apply bind_Returned in H as ([ios m1] & Hres & H).
    apply eval_resilver_frame in Hres as ->. injection H as <- _. exact Hm.
  - revert H.
    apply (for_range_preserves
             (fun '(m, _) => same_layout map0 m /\ nbroken m = nbroken map0)).
    { exact Hm. }
    intros f2 [m2 a2] [m3 a3] _ Hm2 H.
    apply bind_Returned in H as (b2 & _ & H). cbv zeta in H.
    apply (same_layout_set_broken map0 m2 b2) in Hm2.
    apply bind_Returned in H as ([ios m4] & Hres & H).
    apply eval_resilver_frame in Hres as ->. injection H as <- _. exact Hm2.
Qed.

(** C10.  When [eval_decluster] returns, it has reset [nbroken] to [0],
    and neither [eval_decluster] nor [eval_resilver] has changed [ndevs],
    [ngroups], [nspares], [nrows], the sizes of the groups or the rows of
    the map: [eval_resilver] leaves the whole map as it is. *)
Theorem eval_decluster_frame (map : map_t) (how faults print : Z) :
  (forall v map',
     eval_decluster map how faults print = Returned (v, map') ->
     nbroken map' = 0 /\
     ndevs map' = ndevs map /\
     ngroups map' = ngroups map /\
     groupsz map' = groupsz map /\
     nspares map' = nspares map /\
     nrows map' = nrows map /\
     rows map' = rows map) /\
  (forall ios map',
     eval_resilver map print = Returned (ios, map') -> map' = map).
Proof.
  split; [|intros ios map'; apply eval_resilver_frame].
  intros v map' H. unfold eval_decluster in H. cbv zeta in H.
  apply bind_Returned in H as ([m acc] & Hloops & H).
  apply bind_Returned in H as (val & _ & H).
  injection H as _ <-.
  apply inject_failures_frame in Hloops as [Hlayout _].
  split; [reflexivity|]. exact Hlayout.
Qed.

Lemma eval_decluster_frame_witness :
  exists v map',
    eval_decluster sample_map EVAL_MEAN 2 1 = Returned (v, map') /\
    nbroken map' = 0 /\
    ndevs map' = ndevs sample_map /\
    ngroups map' = ngroups sample_map /\
    groupsz map' = groupsz sample_map /\
    nspares map' = nspares sample_map /\
    nrows map' = nrows sample_map /\
    rows map' = rows sample_map.
Proof.
  eexists. eexists. split; [vm_compute; reflexivity|].
  apply (proj1 (eval_decluster_frame sample_map EVAL_MEAN 2 1)
           2%float
           (Build_map_t 6 2 [2; 2] 2 3
              [[0; 1; 2; 3; 4; 5]; [1; 5; 4; 2; 0; 3]; [5; 0; 1; 3; 4; 2]]
              0 [5; 5])).
  vm_compute. reflexivity.
Defined.

(** ** draid.c: further properties *)

(** X1.  For [0 < ndevs], [0 < ngroups] and [0 <= nspares <= ndevs],
    [new_map] returns a well-formed map with the dimensions it was given:
    every group has the size [(ndevs - nspares) / ngroups], the groups lie
    before the spare slots -- when [ngroups] does not divide
    [ndevs - nspares], the remaining [(ndevs - nspares) mod ngroups] slots
    before the spares belong to no group --, [broken] has room for
    [nspares] devices and no device is marked as failed.  The random
    stream advances by [ndevs * (nrows - 1)] draws, by none when
    [ndevs == 2]. *)
Theorem new_map_well_formed (n ng ns nr : Z) (rng : Z) :
  0 < n -> 0 < ng -> 0 <= ns <= n -> 0 <= nr ->
  exists map,
    new_map n ng ns nr rng =
      Returned (map, Nat.iter (new_map_draws n nr) rand48_next rng) /\
    wf_map map /\
    ndevs map = n /\ ngroups map = ng /\ nspares map = ns /\
    nrows map = nr /\ nbroken map = 0 /\
    groupsz map = replicate (Z.to_nat ng) ((n - ns) / ng) /\
    sum_list (groupsz map) = n - ns - (n - ns) mod ng.
Proof.
  intros Hn Hg Hs Hnr.
  destruct (new_map_returns n ng ns nr rng Hn ltac:(lia) Hnr)
    as (rws & Hrun & Hl & Htab).
  destruct (new_map_wf n ng ns nr rng Hn Hg Hs Hnr)
    as (map & Hrun' & Hwf & Hdims).
  rewrite Hrun in Hrun'. injection Hrun' as <-.
  eexists. split; [exact Hrun|]. split; [exact Hwf|]. simpl.
  rewrite Z.quot_div_nonneg by lia.
  repeat (split; [reflexivity|]).
  rewrite sum_list_replicate, Z2Nat.id by lia.
  pose proof (Z.div_mod (n - ns) ng ltac:(lia)). lia.
Qed.

Lemma new_map_well_formed_witness :
  exists map,
    new_map 7 2 2 3 rand48_default =
      Returned (map, Nat.iter (new_map_draws 7 3) rand48_next rand48_default) /\
    wf_map map /\
    ndevs map = 7 /\ ngroups map = 2 /\ nspares map = 2 /\
    nrows map = 3 /\ nbroken map = 0 /\
    groupsz map = replicate (Z.to_nat 2) ((7 - 2) / 2) /\
    sum_list (groupsz map) = 7 - 2 - (7 - 2) mod 2.
Proof.
  apply (new_map_well_formed 7 2 2 3 rand48_default); lia.
Defined.

Lemma tally_nil (c : list Z) : tally [] c = c.
Proof. reflexivity. Qed.

Lemma concat_nil_Forall {A} (ls : list (list A)) :
  Forall (fun l => l = []) ls -> concat ls = [].
Proof. induction 1 as [|l ls -> _ IH]; [reflexivity|exact IH]. Qed.

Lemma no_failure_no_io (map : map_t) :
  broken_set map = [] -> map_reads map = [] /\ map_writes map = [].
Proof.
  intros Hb.
  assert (Hr : forall row grp, group_reads map row grp = []).
  { intros row grp. unfold group_reads. rewrite Hb.
    rewrite decide_True; [reflexivity|].
    induction (group_devs row grp.1 grp.2) as [|d l IH]; [reflexivity|].
    rewrite filter_cons, decide_False; [exact IH|]. apply not_elem_of_nil. }
  assert (Hw : forall row grp, group_writes map row grp = []).
  { intros row grp. unfold group_writes. rewrite Hb.
    replace (filter (fun d => d ∈ []) (group_devs row grp.1 grp.2))
      with (@nil Z); [reflexivity|].
    induction (group_devs row grp.1 grp.2) as [|d l IH]; [reflexivity|].
    rewrite filter_cons, decide_False; [exact IH|]. apply not_elem_of_nil. }
  unfold map_reads, map_writes, row_reads, row_writes. split.
  - apply concat_nil_Forall, Forall_fmap, Forall_forall. intros row _. simpl.
    apply concat_nil_Forall, Forall_fmap, Forall_forall. intros grp _. apply Hr.
  - apply concat_nil_Forall, Forall_fmap, Forall_forall. intros row _. simpl.
    apply concat_nil_Forall, Forall_fmap, Forall_forall. intros grp _. apply Hw.
Qed.

Lemma max_of_zeros (n : nat) : max_of (replicate n 0) = 0.
Proof.
  unfold max_of. induction n as [|n IH]; [reflexivity|exact IH].
Qed.

Lemma zip_with_zeros (n : nat) :
  zip_with Z.add (replicate n 0) (replicate n 0) = replicate n 0.
Proof. induction n as [|n IH]; [reflexivity|]. simpl. rewrite IH. reflexivity. Qed.

Lemma max_of_nonneg (l : list Z) : 0 <= max_of l.
Proof.
  unfold max_of.
  assert (H : forall m, m <= fold_left Z.max l m); [|apply H].
  induction l as [|x l IH]; intros m; simpl; [lia|].
  specialize (IH (Z.max m x)). lia.
Qed.

(** X2.  On a well-formed map whose failed devices are distinct and no
    more than the spares, [eval_resilver] fails no assertion and makes no
    access out of bounds: it returns the largest sum of the reads and the
    writes of a device, which is not negative, and leaves the map as it
    is.  With no failed device it returns [0]. *)
Theorem eval_resilver_total (map : map_t) (print : Z) :
  wf_map map -> failures_fit map ->
  let reads := tally (map_reads map) (replicate (Z.to_nat (ndevs map)) 0) in
  let writes := tally (map_writes map) (replicate (Z.to_nat (ndevs map)) 0) in
  eval_resilver map print =
    Returned (max_of (zip_with Z.add reads writes), map) /\
  0 <= max_of (zip_with Z.add reads writes) /\
  (nbroken map = 0 -> eval_resilver map print = Returned (0, map)).
Proof.
  intros Hwf Hfit reads writes.
  pose proof (eval_resilver_io map print Hwf Hfit) as Hrun.
  split; [exact Hrun|]. split; [apply max_of_nonneg|].
  intros H0. rewrite Hrun. f_equal. f_equal.
  assert (Hb : broken_set map = []).
  { unfold broken_set. rewrite H0. reflexivity. }
  destruct (no_failure_no_io map Hb) as [-> ->]. rewrite !tally_nil.
  rewrite zip_with_zeros. apply max_of_zeros.
Qed.

Lemma eval_resilver_total_witness :
  eval_resilver sample_failed 1 = Returned (4, sample_failed) /\
  eval_resilver sample_map 1 = Returned (0, sample_map).
Proof.
  split.
  - rewrite (proj1 (eval_resilver_total sample_failed 1 sample_failed_wf
                      sample_failed_fit)).
    vm_compute. reflexivity.
  - apply (eval_resilver_total sample_map 1 sample_map_wf).
    + split; [simpl; lia|]. apply NoDup_nil_2.
    + reflexivity.
Defined.

Lemma is_broken_loop_beyond (map : map_t) (dev : Z) (n i : nat) :
  dev ∉ broken map ->
  (i <= length (broken map) < i + n)%nat ->
  is_broken_loop n (Z.of_nat i) map dev = Undefined.
Proof.
  intros Hdev. revert i. induction n as [|n IH]; intros i Hi; [lia|].
  cbn [is_broken_loop].
  destruct (broken map !! i) as [b|] eqn:Hb.
  - rewrite (load_nat _ _ _ Hb), bind_Returned_l.
    destruct (Z.eqb_spec dev b) as [->|Hne].
    + exfalso. apply Hdev. eapply list_elem_of_lookup_2, Hb.
    + replace (Z.of_nat i + 1) with (Z.of_nat (S i)) by lia.
      apply IH. apply lookup_lt_Some in Hb. lia.
  - unfold load. destruct (Z.of_nat i <? 0); [reflexivity|].
    rewrite Nat2Z.id, Hb. reflexivity.
Qed.

(** X3.  [is_broken] returns [1] for the devices in the first [nbroken]
    cells of [broken] and [0] for every other device, when the array has
    [nbroken] cells; for [nbroken <= 0] it returns [0] for every device.
    When [nbroken] exceeds the cells of the array, a device that is not in
    the array makes the loop read beyond it. *)
Theorem is_broken_cases (map : map_t) (dev : Z) :
  (nbroken map <= Z.of_nat (length (broken map)) ->
   is_broken map dev =
   Returned (if decide (dev ∈ broken_set map) then 1 else 0)) /\
  (nbroken map <= 0 -> is_broken map dev = Returned 0) /\
  (Z.of_nat (length (broken map)) < nbroken map -> dev ∉ broken map ->
   is_broken map dev = Undefined).
Proof.
  split; [apply is_broken_spec|]. split.
  - intros H0. unfold is_broken. replace (Z.to_nat (nbroken map)) with O by lia.
    reflexivity.
  - intros Hlen Hdev. unfold is_broken.
    apply (is_broken_loop_beyond map dev (Z.to_nat (nbroken map)) 0 Hdev). lia.
Qed.

Lemma for_range_first_undefined {St} (lo hi : Z)
    (body : Z -> St -> outcome St) (st : St) :
  lo < hi -> body lo st = Undefined -> for_range lo hi body st = Undefined.
Proof.
  intros Hlt Hb. unfold for_range.
  replace (Z.to_nat (hi - lo)) with (S (Z.to_nat (hi - lo - 1))) by lia.
  simpl. rewrite Hb. reflexivity.
Qed.

Lemma store_beyond {A} (a : list A) (i : Z) (x : A) :
  Z.of_nat (length a) <= i -> store a i x = Undefined.
Proof.
  intros Hi. unfold store.
  destruct (Z.ltb_spec i (Z.of_nat (length a))); [lia|].
  rewrite andb_false_r. reflexivity.
Qed.

(** X4.  [eval_decluster] stores the failures in [broken], which
    [new_map] allocates with [nspares] cells: on a well-formed map with no
    spare the store to [broken[0]] is out of bounds, and with one spare and
    [faults >= 2] (and at least two devices) the store to [broken[1]] is
    out of bounds. *)
Theorem eval_decluster_needs_spares (map : map_t) (how faults print : Z) :
  wf_map map ->
  nspares map < (if faults <? 2 then 1 else 2) ->
  nspares map = 0 \/ 2 <= ndevs map ->
  eval_decluster map how faults print = Undefined.
Proof.
  intros Hwf Hsp Hdevs. pose proof (wf_ndevs map Hwf) as Hn.
  pose proof (wf_broken map Hwf) as Hbl. pose proof (wf_nspares map Hwf) as Hs.
  unfold eval_decluster, inject_failures.
  rewrite for_range_first_undefined; [reflexivity|exact Hn|].
  cbn [broken set_nbroken].
  destruct (decide (nspares map = 0)) as [H0|H0].
  { rewrite store_beyond by lia. reflexivity. }
  rewrite store_in_bounds by lia. rewrite bind_Returned_l. cbv zeta.
  destruct (faults <? 2); [lia|].
  rewrite for_range_first_undefined; [reflexivity| |].
  - cbn [ndevs set_broken set_nbroken]. lia.
  - cbn [broken set_broken]. rewrite store_beyond; [reflexivity|].
    rewrite length_insert. lia.
Qed.

Lemma sample_one_spare_wf : wf_map sample_one_spare.
Proof.
  constructor; simpl; try lia.
  - apply (bool_decide_unpack _). vm_compute. exact I.
  - repeat constructor; apply (bool_decide_unpack _); vm_compute; exact I.
Qed.

Lemma eval_decluster_needs_spares_witness :
  eval_decluster sample_one_spare EVAL_WORST 2 1 = Undefined.
Proof.
  apply (eval_decluster_needs_spares sample_one_spare EVAL_WORST 2 1
           sample_one_spare_wf).
  - simpl. lia.
  - right. simpl. lia.
Defined.

Lemma length_bind_chunks {A B} (f : A -> list B) (l : list A) (n : nat) :
  Forall (fun x => length (f x) = n) l ->
  length (l ≫= f) = (length l * n)%nat.
Proof.
  induction 1 as [|x l Hx _ IH]; [reflexivity|].
  rewrite bind_cons, length_app, Hx, IH. simpl. lia.
Qed.

Lemma lookup_bind_chunks {A B} (f : A -> list B) (l : list A) (n i j : nat) :
  Forall (fun x => length (f x) = n) l ->
  (j < n)%nat ->
  (l ≫= f) !! (i * n + j)%nat = l !! i ≫= fun x => f x !! j.
Proof.
  intros Hl Hj. revert i. induction Hl as [|x l Hx _ IH]; intros i.
  - destruct i; reflexivity.
  - rewrite bind_cons. destruct i as [|i].
    + simpl. apply lookup_app_l. lia.
    + rewrite lookup_app_r by (rewrite Hx; simpl; lia).
      rewrite Hx. replace (S i * n + j - n)%nat with (i * n + j)%nat
        by (simpl; lia).
      apply IH.
Qed.

Lemma mod_shift (x n : Z) :
  0 <= x < 2 * n -> x mod n = if x <? n then x else x - n.
Proof.
  intros Hx. destruct (Z.ltb_spec x n).
  - apply Z.mod_small. lia.
  - symmetry. apply (Z.mod_unique_pos x n 1). lia. lia.
Qed.

Lemma rem_shift (v add n : Z) :
  0 <= v < n -> 0 <= add < n ->
  Z.rem (v + add) n = if v + add <? n then v + add else v + add - n.
Proof.
  intros Hv Ha. rewrite Z.rem_mod_nonneg by lia. apply mod_shift. lia.
Qed.

(** A shift of the identity row is a rotation of it. *)
Lemma shift_identity (n add : Z) :
  0 <= add < n ->
  (fun v => Z.rem (v + add) n) <$> seqZ 0 n ≡ₚ seqZ 0 n.
Proof.
  intros Ha.
  assert (Heq : (fun v => Z.rem (v + add) n) <$> seqZ 0 n =
                seqZ add (n - add) ++ seqZ 0 add).
  { apply list_eq. intros i. rewrite list_lookup_fmap.
    destruct (decide (Z.of_nat i < n)) as [Hi|Hi].
    - rewrite lookup_seqZ_lt by exact Hi. simpl.
      rewrite rem_shift by lia.
      destruct (Z.ltb_spec (0 + Z.of_nat i + add) n).
      + rewrite lookup_app_l by (rewrite length_seqZ; lia).
        rewrite lookup_seqZ_lt by lia. f_equal. lia.
      + rewrite lookup_app_r by (rewrite length_seqZ; lia).
        rewrite length_seqZ, lookup_seqZ_lt by lia. f_equal. lia.
    - rewrite lookup_seqZ_ge by lia. symmetry. apply lookup_ge_None.
      rewrite length_app, !length_seqZ. lia. }
  rewrite Heq, Permutation_app_comm.
  pose proof (seqZ_app 0 add (n - add)) as Happ.
  replace (add + (n - add)) with n in Happ by lia.
  rewrite Happ by lia. reflexivity.
Qed.

Lemma developed_rows_length (bmap : map_t) :
  wf_map bmap ->
  Forall (fun brow =>
            length ((fun add => (fun v => Z.rem (v + add) (ndevs bmap)) <$> brow)
                      <$> seqZ 0 (ndevs bmap)) = Z.to_nat (ndevs bmap))
    (rows bmap).
Proof.
  intros Hwf. apply Forall_forall. intros brow _.
  rewrite length_fmap, length_seqZ. reflexivity.
Qed.

(** The explicit table satisfies the invariant of the loops at their
    exit. *)
Lemma developed_rows_inv (bmap : map_t) :
  wf_map bmap ->
  develop_inv bmap (nrows bmap * ndevs bmap) 0 (developed_rows bmap).
Proof.
  intros Hwf. pose proof (wf_ndevs bmap Hwf) as Hn.
  pose proof (wf_nrows bmap Hwf) as Hr.
  pose proof (developed_rows_length bmap Hwf) as Hchunks.
  set (N := ndevs bmap) in *. unfold developed_rows. fold N.
  split; [|split].
  - rewrite (length_bind_chunks _ _ _ Hchunks). nia.
  - apply Forall_bind. apply Forall_forall. intros brow Hin.
    apply Forall_fmap, Forall_forall. intros add _. simpl.
    rewrite length_fmap.
    destruct (wf_row_facts bmap brow Hwf Hin) as (Hl & _). exact Hl.
  - intros base add j brow v Hadd _ Hbrow Hv.
    pose proof (load_bounds _ _ _ Hbrow) as Hb.
    apply load_Returned in Hbrow as [_ Hbrow].
    exists ((fun v => Z.rem (v + add) N) <$> brow).
    fold N in Hadd |- *. split.
    + apply load_Returned. split; [nia|].
      replace (Z.to_nat (base * N + add))
        with (Z.to_nat base * Z.to_nat N + Z.to_nat add)%nat by nia.
      rewrite (lookup_bind_chunks _ _ _ _ _ Hchunks) by lia.
      rewrite Hbrow. simpl. rewrite list_lookup_fmap.
      rewrite (lookup_seqZ_lt 0 N (Z.to_nat add)) by lia. simpl.
      replace (0 + Z.of_nat (Z.to_nat add)) with add by lia. reflexivity.
    + apply load_Returned in Hv as [Hj Hv]. apply load_Returned.
      split; [exact Hj|]. rewrite list_lookup_fmap, Hv. reflexivity.
Qed.

(** [develop_map] returns the explicit table. *)
Lemma develop_map_table (bmap : map_t) (rng : Z) :
  wf_map bmap ->
  develop_map bmap rng =
  Returned (Build_map_t (ndevs bmap) (ngroups bmap)
              (replicate (Z.to_nat (ngroups bmap))
                 (Z.quot (ndevs bmap - nspares bmap) (ngroups bmap)))
              (nspares bmap) (nrows bmap * ndevs bmap) (developed_rows bmap) 0
              (malloc_ints (nspares bmap)),
            Nat.iter (new_map_draws (ndevs bmap)
                        (nrows bmap * ndevs bmap)) rand48_next rng).
Proof.
  intros Hwf. destruct (develop_map_returns bmap rng Hwf) as (drows & Hrun & Hinv).
  rewrite Hrun.
  rewrite (develop_inv_unique bmap drows (developed_rows bmap) Hwf Hinv
             (developed_rows_inv bmap Hwf)).
  reflexivity.
Qed.

(** X5.  [develop_map] of a well-formed base map returns a well-formed
    map: every developed row is again a permutation of the devices, so
    that the evaluators apply to the developed map as they do to the
    base.  Its table is, for every base row in order, the [ndevs] shifts
    of the row. *)
Theorem develop_map_well_formed (bmap : map_t) (rng : Z) :
  wf_map bmap ->
  exists dmap rng',
    develop_map bmap rng = Returned (dmap, rng') /\
    wf_map dmap /\
    rows dmap = developed_rows bmap /\
    nbroken dmap = 0.
Proof.
  intros Hwf. eexists. eexists. split; [apply develop_map_table, Hwf|].
  split; [|split; reflexivity].
  pose proof (wf_ndevs bmap Hwf) as Hn. pose proof (wf_nrows bmap Hwf) as Hr.
  pose proof (wf_nspares bmap Hwf) as Hs.
  pose proof (wf_ngroups_pos bmap Hwf) as Hg.
  assert (Hq : 0 <= Z.quot (ndevs bmap - nspares bmap) (ngroups bmap) /\
               ngroups bmap * Z.quot (ndevs bmap - nspares bmap) (ngroups bmap)
               <= ndevs bmap - nspares bmap).
  { rewrite Z.quot_div_nonneg by lia. split.
    - apply Z.div_pos; lia.
    - apply Z.mul_div_le. lia. }
  constructor; cbn [ndevs ngroups nspares nrows groupsz rows broken].
  - exact Hn.
  - exact Hs.
  - exact Hg.
  - rewrite length_replicate. lia.
  - apply Forall_replicate. lia.
  - rewrite sum_list_replicate. lia.
  - apply (developed_rows_inv bmap Hwf).
  - unfold developed_rows. apply Forall_bind, Forall_forall. intros brow Hin.
    apply Forall_fmap, Forall_forall. intros add Hadd. simpl.
    apply elem_of_seqZ in Hadd.
    destruct (wf_row_facts bmap brow Hwf Hin) as (_ & _ & _).
    pose proof (wf_rows bmap Hwf) as Hp. rewrite Forall_forall in Hp.
    rewrite (Hp brow Hin). apply shift_identity. lia.
  - rewrite length_malloc_ints. lia.
Qed.

Lemma develop_map_well_formed_witness :
  exists dmap rng',
    develop_map sample_map rand48_default = Returned (dmap, rng') /\
    wf_map dmap /\
    rows dmap = developed_rows sample_map /\
    nbroken dmap = 0.
Proof.
  apply (develop_map_well_formed sample_map rand48_default sample_map_wf).
Defined.

Lemma filter_bind_chunks {A B} (P : B -> Prop) `{forall x, Decision (P x)}
    (f : A -> list B) (l : list A) :
  filter P (l ≫= f) = l ≫= fun x => filter P (f x).
Proof.
  induction l as [|x l IH]; [reflexivity|].
  rewrite !bind_cons, filter_app, IH. reflexivity.
Qed.

Lemma length_filter_fmap {A B} (P : B -> Prop) `{forall x, Decision (P x)}
    (f : A -> B) (l : list A) :
  length (filter P (f <$> l)) = length (filter (fun x => P (f x)) l).
Proof.
  induction l as [|x l IH]; [reflexivity|].
  rewrite fmap_cons, !filter_cons. destruct (decide (P (f x))); simpl; lia.
Qed.

Lemma filter_none {A} (P : A -> Prop) `{forall x, Decision (P x)} (l : list A) :
  Forall (fun x => ~ P x) l -> filter P l = [].
Proof.
  induction 1 as [|x l Hx _ IH]; [reflexivity|].
  rewrite filter_cons_False by exact Hx. exact IH.
Qed.

(** Exactly one shift moves a device onto another. *)
Lemma one_shift (n v d : Z) :
  0 <= v < n -> 0 <= d < n ->
  length (filter (fun add => Z.rem (v + add) n = d) (seqZ 0 n)) = 1%nat.
Proof.
  intros Hv Hd. set (a := (d - v) mod n).
  assert (Ha : 0 <= a < n) by (apply Z.mod_pos_bound; lia).
  assert (Hhit : forall add, 0 <= add < n ->
                   Z.rem (v + add) n = d <-> add = a).
  { intros add Hadd. rewrite rem_shift by lia.
    assert (Hcase : a = if d - v <? 0 then d - v + n else d - v).
    { unfold a. symmetry. destruct (Z.ltb_spec (d - v) 0).
      - apply (Z.mod_unique_pos _ _ (-1)); lia.
      - apply (Z.mod_unique_pos _ _ 0); lia. }
    rewrite Hcase.
    destruct (Z.ltb_spec (v + add) n), (Z.ltb_spec (d - v) 0); lia. }
  pose proof (seqZ_app 0 a (n - a)) as Hsplit.
  replace (a + (n - a)) with n in Hsplit by lia.
  rewrite Hsplit by lia.
  replace (n - a) with (1 + (n - a - 1)) by lia.
  rewrite (seqZ_app (0 + a) 1 (n - a - 1)) by lia.
  rewrite !filter_app, !length_app.
  rewrite (filter_none _ (seqZ 0 a)), (filter_none _ (seqZ (0 + a + 1) _)).
  - change (seqZ (0 + a) 1) with [0 + a].
    rewrite filter_cons_True; [reflexivity|]. apply Hhit; lia.
  - apply Forall_forall. intros add Hadd. apply elem_of_seqZ in Hadd.
    rewrite Hhit by lia. lia.
  - apply Forall_forall. intros add Hadd. apply elem_of_seqZ in Hadd.
    rewrite Hhit by lia. lia.
Qed.

(** X6.  The developed map is uniform: for every slot [j] and every
    device [d], exactly [nrows] of the developed rows hold device [d]
    in slot [j] -- one shift of every base row.  Every device thus
    takes every role (member of each group, each spare) equally
    often, whatever the base permutations are. *)
Theorem develop_map_uniform (bmap : map_t) (rng j d : Z) :
  wf_map bmap ->
  0 <= j < ndevs bmap ->
  0 <= d < ndevs bmap ->
  exists dmap rng',
    develop_map bmap rng = Returned (dmap, rng') /\
    nrows dmap = nrows bmap * ndevs bmap /\
    Z.of_nat (length (filter (fun row => row !! Z.to_nat j = Some d)
                        (rows dmap))) = nrows bmap.
Proof.
  intros Hwf Hj Hd. eexists. eexists.
  split; [apply develop_map_table, Hwf|]. split; [reflexivity|].
  cbn [rows]. unfold developed_rows. rewrite filter_bind_chunks.
  rewrite (length_bind_chunks _ _ 1).
  - rewrite <- (wf_nrows bmap Hwf). lia.
  - apply Forall_forall. intros brow Hin.
    destruct (wf_row_facts bmap brow Hwf Hin) as (Hlen & _ & Hrange).
    destruct (lookup_lt_is_Some_2 brow (Z.to_nat j)) as [v Hv]; [lia|].
    assert (Hvr : 0 <= v < ndevs bmap).
    { rewrite Forall_forall in Hrange. apply Hrange.
      apply (list_elem_of_lookup_2 _ _ _ Hv). }
    rewrite length_filter_fmap.
    rewrite <- (one_shift (ndevs bmap) v d Hvr Hd).
    f_equal. apply list_filter_iff. intros add.
    rewrite list_lookup_fmap, Hv. simpl. split; congruence.
Qed.

Lemma develop_map_uniform_witness :
  exists dmap rng',
    develop_map sample_map rand48_default = Returned (dmap, rng') /\
    nrows dmap = 18 /\
    Z.of_nat (length (filter (fun row => row !! 4%nat = Some 1)
                        (rows dmap))) = 3.
Proof.
  apply (develop_map_uniform sample_map rand48_default 4 1 sample_map_wf);
    vm_compute; split; congruence.
Defined.

Lemma tally_untouched (devs c : list Z) (d : Z) (x : Z) :
  0 <= d -> d ∉ devs -> c !! Z.to_nat d = Some x ->
  tally devs c !! Z.to_nat d = Some x.
Proof.
  intros Hd Hnot Hc. rewrite (tally_lookup devs c _ x Hc).
  rewrite filter_none; [f_equal; simpl; lia|].
  apply Forall_forall. intros e He ->. apply Hnot.
  rewrite Z2Nat.id in He by lia. exact He.
Qed.

Lemma elem_of_concat {A} (x : A) (ls : list (list A)) :
  x ∈ concat ls -> exists l, x ∈ l /\ l ∈ ls.
Proof.
  induction ls as [|l ls IH]; simpl; intros Hx.
  - inversion Hx.
  - apply elem_of_app in Hx as [Hx|Hx].
    + exists l. split; [exact Hx|apply list_elem_of_here].
    + destruct (IH Hx) as (l' & Hl & Hin). exists l'.
      split; [exact Hl|apply list_elem_of_further, Hin].
Qed.

Lemma map_reads_healthy (map : map_t) (d : Z) :
  d ∈ map_reads map -> d ∉ broken_set map.
Proof.
  unfold map_reads, row_reads, group_reads. intros Hd.
  apply elem_of_concat in Hd as (l & Hd & Hl).
  apply list_elem_of_fmap in Hl as (row & -> & _).
  apply elem_of_concat in Hd as (l & Hd & Hl).
  apply list_elem_of_fmap in Hl as (grp & -> & _). cbv zeta in Hd.
  destruct (decide _) in Hd; [inversion Hd|].
  apply list_elem_of_filter in Hd as [Hd _]. exact Hd.
Qed.

Lemma map_writes_healthy (map : map_t) (d : Z) :
  d ∈ map_writes map -> d ∉ broken_set map.
Proof.
  unfold map_writes, row_writes, group_writes. intros Hd.
  apply elem_of_concat in Hd as (l & Hd & Hl).
  apply list_elem_of_fmap in Hl as (row & -> & _).
  apply elem_of_concat in Hd as (l & Hd & Hl).
  apply list_elem_of_fmap in Hl as (grp & -> & _). cbv zeta in Hd.
  apply elem_of_take in Hd as (i & Hd & _).
  apply list_elem_of_lookup_2 in Hd. unfold healthy_spares, healthy_from in Hd.
  apply list_elem_of_filter in Hd as [Hd _]. exact Hd.
Qed.

(** X7.  The rebuild never touches a failed device: after the loops of
    [eval_resilver] over all rows, the read counter and the write counter
    of every failed device are still [0]. *)
Theorem resilver_skips_failed (map : map_t) (d : Z) :
  wf_map map -> failures_fit map ->
  d ∈ broken_set map -> 0 <= d < ndevs map ->
  exists reads writes,
    resilver_rows map = Returned (reads, writes) /\
    reads !! Z.to_nat d = Some 0 /\
    writes !! Z.to_nat d = Some 0.
Proof.
  intros Hwf Hfit Hd Hrange. eexists. eexists.
  split; [apply resilver_rows_io; assumption|].
  assert (Hz : replicate (Z.to_nat (ndevs map)) 0 !! Z.to_nat d = Some 0).
  { apply lookup_replicate_2. lia. }
  split; (apply tally_untouched; [lia| |exact Hz]); intros Hin.
  - apply map_reads_healthy in Hin. contradiction.
  - apply map_writes_healthy in Hin. contradiction.
Qed.

Lemma resilver_skips_failed_witness :
  exists reads writes,
    resilver_rows sample_failed = Returned (reads, writes) /\
    reads !! 2%nat = Some 0 /\
    writes !! 2%nat = Some 0.
Proof.
  apply (resilver_skips_failed sample_failed 2 sample_failed_wf
           sample_failed_fit).
  - vm_compute. apply list_elem_of_further, list_elem_of_here.
  - vm_compute. split; congruence.
Defined.

Lemma sum_list_insert (l : list Z) (i : nat) (c x : Z) :
  l !! i = Some c -> sum_list (<[i := x]> l) = sum_list l - c + x.
Proof.
  revert i. induction l as [|y l IH]; intros [|i] H; try discriminate.
  - injection H as ->. unfold sum_list. simpl. lia.
  - simpl in H. specialize (IH i H). unfold sum_list in *. simpl. lia.
Qed.

Lemma sum_list_tally (devs c : list Z) :
  Forall (fun d => 0 <= d < Z.of_nat (length c)) devs ->
  sum_list (tally devs c) = sum_list c + Z.of_nat (length devs).
Proof.
  induction devs as [|d devs IH] using rev_ind; intros Hall.
  - rewrite tally_nil. cbn [length]. lia.
  - apply Forall_app in Hall as [Hall Hd]. apply Forall_inv in Hd.
    cbv beta in Hd.
    rewrite tally_snoc, length_app. simpl length.
    specialize (IH Hall). unfold bump.
    destruct (Z.ltb_spec d 0); [lia|].
    destruct (lookup_lt_is_Some_2 (tally devs c) (Z.to_nat d)) as [x Hx].
    { rewrite length_tally. lia. }
    rewrite Hx, (sum_list_insert _ _ _ _ Hx). lia.
Qed.

Lemma length_filter_split {A} (P : A -> Prop) `{!forall x, Decision (P x)}
    (l : list A) :
  (length (filter P l) + length (filter (fun x => ~ P x) l))%nat = length l.
Proof.
  rewrite <- length_app.
  apply Permutation_length, filter_app_complement.
Qed.

(** A group reads its healthy devices and writes one spare for each of
    its failed devices: as many I/Os as it has devices, or none. *)
Lemma group_io_size (map : map_t) (each_row : list Z) (grp : Z * Z) :
  wf_map map -> failures_fit map -> each_row ∈ rows map ->
  0 <= fst grp -> 0 <= snd grp ->
  fst grp + snd grp <= ndevs map - nspares map ->
  Z.of_nat (length (group_reads map each_row grp)) +
  Z.of_nat (length (group_writes map each_row grp)) =
  if decide (filter (fun d => d ∈ broken_set map)
               (group_devs each_row (fst grp) (snd grp)) <> [])
  then snd grp else 0.
Proof.
  intros Hwf Hfit Hin Hi Hg Hig.
  destruct (wf_row_facts map each_row Hwf Hin) as (Hlen & Hnd & _).
  destruct (failures_fit_inv map Hwf Hfit) as [_ Hnb].
  pose proof (wf_nspares map Hwf) as Hs.
  pose proof (spares_suffice map each_row (fst grp) (snd grp) Hnd
                (proj2 Hfit) Hnb Hlen Hs Hi Hg Hig) as Hsp.
  unfold group_reads, group_writes. cbv zeta.
  set (devs := group_devs each_row (fst grp) (snd grp)) in *.
  assert (Hdevs : Z.of_nat (length devs) = snd grp).
  { unfold devs, group_devs. rewrite length_take, length_drop. lia. }
  rewrite length_take.
  pose proof (length_filter_split (fun d => d ∈ broken_set map) devs) as Hsplit.
  destruct (decide (filter (fun d => d ∈ broken_set map) devs = []))
    as [He|He].
  - rewrite decide_False by auto. rewrite He. simpl. lia.
  - rewrite decide_True by exact He. lia.
Qed.

Lemma groups_io_size (map : map_t) (each_row : list Z) (gl : list (Z * Z)) :
  wf_map map -> failures_fit map -> each_row ∈ rows map ->
  Forall (fun grp => 0 <= fst grp /\ 0 <= snd grp /\
                     fst grp + snd grp <= ndevs map - nspares map) gl ->
  Z.of_nat (length (concat (group_reads map each_row <$> gl))) +
  Z.of_nat (length (concat (group_writes map each_row <$> gl))) =
  sum_list (snd <$> filter
              (fun grp => filter (fun d => d ∈ broken_set map)
                            (group_devs each_row (fst grp) (snd grp)) <> [])
              gl).
Proof.
  intros Hwf Hfit Hin. induction 1 as [|grp gl (Hi & Hg & Hig) _ IH].
  - reflexivity.
  - rewrite !fmap_cons. cbn [concat]. rewrite !length_app, filter_cons.
    pose proof (group_io_size map each_row grp Hwf Hfit Hin Hi Hg Hig) as Hgrp.
    destruct (decide _) in Hgrp |- *.
    + rewrite fmap_cons. unfold sum_list in *. cbn [fold_right]. lia.
    + lia.
Qed.

Lemma wf_group_slots (map : map_t) :
  wf_map map ->
  Forall (fun grp => 0 <= fst grp /\ 0 <= snd grp /\
                     fst grp + snd grp <= ndevs map - nspares map)
    (group_slots 0 (groupsz map)).
Proof.
  intros Hwf. apply Forall_forall. intros [index g] Hin.
  pose proof (group_slots_bounds _ _ _ _ (wf_groupsz map Hwf) Hin) as Hb.
  pose proof (wf_groups map Hwf). simpl. lia.
Qed.

Lemma rows_io_size (map : map_t) (rs : list (list Z)) :
  wf_map map -> failures_fit map -> rs ⊆ rows map ->
  Z.of_nat (length (concat (row_reads map <$> rs))) +
  Z.of_nat (length (concat (row_writes map <$> rs))) =
  sum_list (snd <$> (rs ≫= fun each_row : list Z =>
              filter (fun grp => filter (fun d => d ∈ broken_set map)
                            (group_devs each_row (fst grp) (snd grp)) <> [])
                (group_slots 0 (groupsz map)))).
Proof.
  intros Hwf Hfit. induction rs as [|row rs IH]; intros Hsub.
  - reflexivity.
  - rewrite !fmap_cons, bind_cons, fmap_app, sum_list_app. cbn [concat].
    rewrite !length_app.
    pose proof (groups_io_size map row _ Hwf Hfit
                  ltac:(apply Hsub, list_elem_of_here) (wf_group_slots map Hwf))
      as Hrow.
    fold (row_reads map row) in Hrow. fold (row_writes map row) in Hrow.
    specialize (IH ltac:(intros x Hx; apply Hsub, list_elem_of_further, Hx)).
    lia.
Qed.

Lemma group_devs_subseteq (each_row : list Z) (index g : Z) :
  group_devs each_row index g ⊆ each_row.
Proof.
  unfold group_devs. intros x Hx.
  apply (subseteq_drop (Z.to_nat index)), (subseteq_take (Z.to_nat g)), Hx.
Qed.

Lemma map_reads_range (map : map_t) :
  wf_map map -> Forall (fun d => 0 <= d < ndevs map) (map_reads map).
Proof.
  intros Hwf. apply Forall_forall. intros d Hd.
  unfold map_reads, row_reads, group_reads in Hd.
  apply elem_of_concat in Hd as (l & Hd & Hl).
  apply list_elem_of_fmap in Hl as (row & -> & Hrow).
  apply elem_of_concat in Hd as (l & Hd & Hl).
  apply list_elem_of_fmap in Hl as (grp & -> & _). cbv zeta in Hd.
  destruct (decide _) in Hd; [inversion Hd|].
  apply list_elem_of_filter in Hd as [_ Hd].
  apply group_devs_subseteq in Hd.
  destruct (wf_row_facts map row Hwf Hrow) as (_ & _ & Hr).
  rewrite Forall_forall in Hr. apply Hr, Hd.
Qed.

Lemma map_writes_range (map : map_t) :
  wf_map map -> Forall (fun d => 0 <= d < ndevs map) (map_writes map).
Proof.
  intros Hwf. apply Forall_forall. intros d Hd.
  unfold map_writes, row_writes, group_writes in Hd.
  apply elem_of_concat in Hd as (l & Hd & Hl).
  apply list_elem_of_fmap in Hl as (row & -> & Hrow).
  apply elem_of_concat in Hd as (l & Hd & Hl).
  apply list_elem_of_fmap in Hl as (grp & -> & _). cbv zeta in Hd.
  apply elem_of_take in Hd as (i & Hd & _).
  apply list_elem_of_lookup_2 in Hd. unfold healthy_spares, healthy_from in Hd.
  apply list_elem_of_filter in Hd as [_ Hd].
  apply (subseteq_drop _ row) in Hd.
  destruct (wf_row_facts map row Hwf Hrow) as (_ & _ & Hr).
  rewrite Forall_forall in Hr. apply Hr, Hd.
Qed.

(** X8.  The rebuild costs every degraded group exactly its size: a
    group that holds failed devices reads each of its healthy devices
    once and writes one spare for each failed one, and a group without a
    failed device does no I/O.  The counters that the loops of
    [eval_resilver] leave thus sum to the sizes of the degraded groups. *)
Theorem resilver_io_total (map : map_t) :
  wf_map map -> failures_fit map ->
  exists reads writes,
    resilver_rows map = Returned (reads, writes) /\
    sum_list reads + sum_list writes = sum_list (snd <$> degraded_groups map).
Proof.
  intros Hwf Hfit. eexists. eexists.
  split; [apply resilver_rows_io; assumption|].
  pose proof (wf_ndevs map Hwf) as Hn.
  rewrite !sum_list_tally
    by (rewrite length_replicate, Z2Nat.id by lia;
        auto using map_reads_range, map_writes_range).
  rewrite sum_list_replicate. unfold degraded_groups.
  rewrite <- (rows_io_size map (rows map) Hwf Hfit ltac:(reflexivity)).
  unfold map_reads, map_writes. lia.
Qed.

Lemma resilver_io_total_witness :
  exists reads writes,
    resilver_rows sample_failed = Returned (reads, writes) /\
    sum_list reads + sum_list writes =
    sum_list (snd <$> degraded_groups sample_failed).
Proof.
  apply (resilver_io_total sample_failed sample_failed_wf sample_failed_fit).
Defined.

(** [develop_map] reads the layout of the base map only. *)
Lemma develop_map_layout (bmap bmap' : map_t) (rng : Z) :
  same_layout bmap bmap' -> develop_map bmap' rng = develop_map bmap rng.
Proof.
  intros (Hn & Hg & _ & Hs & Hr & Hrows). unfold develop_map.
  rewrite Hn, Hg, Hs, Hr, Hrows. reflexivity.
Qed.

(** [eval_decluster] returns on a well-formed map with room for the
    failures, and leaves the layout as it is. *)
Lemma eval_decluster_returns (map : map_t) (how faults print : Z) :
  wf_map map -> faults = 1 \/ faults = 2 -> faults <= nspares map ->
  how = EVAL_WORST \/ how = EVAL_MEAN \/ how = EVAL_RMS ->
  exists v map',
    eval_decluster map how faults print = Returned (v, map') /\
    same_layout map map'.
Proof.
  intros Hwf Hfaults Hsp Hhow.
  destruct (inject_failures_returns map faults Hwf Hfaults Hsp)
    as (ios & bk & acc & _ & Hrun & _).
  unfold eval_decluster. cbv zeta. rewrite Hrun, bind_Returned_l.
  apply inject_failures_frame in Hrun as [Hlayout _].
  destruct Hhow as [-> | [-> | ->]]; eexists; eexists;
    (split; [reflexivity|exact Hlayout]).
Qed.

(** X9.  The program runs to its end from every state of the random
    number generator: no assertion fails and no array is indexed out of
    its bounds on the way through [new_map], the single-failure
    evaluation and [develop_map], and [main] returns [0].  It draws
    [12 * 99] random numbers for the base map and [12 * 1199] for the
    rows of the developed map. *)
Theorem main_returns (rng : Z) :
  main rng =
  Returned (0, Nat.iter (Z.to_nat (12 * 99 + 12 * 1199)) rand48_next rng).
Proof.
  unfold main, draid_permutation_generate. cbv zeta.
  destruct (new_map_wf 12 2 2 100 rng) as
    (bmap & -> & Hwf & Hn & Hg & Hs & Hr & _); [lia..|].
  rewrite bind_Returned_l.
  destruct (eval_decluster_returns bmap EVAL_MEAN 1 1 Hwf) as
    (v & bmap' & -> & Hlayout); [auto|lia|auto|].
  rewrite bind_Returned_l.
  rewrite (develop_map_layout bmap bmap' _ Hlayout).
  rewrite (develop_map_table bmap _ Hwf), !bind_Returned_l.
  rewrite Hn, Hr, <- Nat.iter_add.
  assert (Hdraws : (new_map_draws 12 (100 * 12) + new_map_draws 12 100)%nat =
                   Z.to_nat (12 * 99 + 12 * 1199)).
  { unfold new_map_draws. change (12 =? 2) with false. cbv iota.
    rewrite <- Z2Nat.inj_add by (clear; lia).
    apply (f_equal Z.to_nat). clear. lia. }
  rewrite Hdraws. reflexivity.
Qed.

(** With two devices [permute_devs] swaps the two slots. *)
Lemma permute_devs_swap (a b : Z) (out : list Z) (r : Z) (row : list Z)
    (r' : Z) :
  length out = 2%nat ->
  permute_devs [a; b] out 2 r = Returned (row, r') -> row = [b; a].
Proof.
  unfold permute_devs, vla. change (2 <=? 0) with false.
  change (2 =? 2) with true. cbv iota. rewrite bind_Returned_l.
  change (load [a; b] 0) with (Returned a : outcome Z).
  change (load [a; b] 1) with (Returned b : outcome Z).
  rewrite !bind_Returned_l. intros Hout H.
  apply bind_Returned in H as (o1 & H1 & H).
  apply bind_Returned in H as (o2 & H2 & H).
  injection H as <- _.
  apply store_Returned in H1 as [Hl1 ->].
  apply store_Returned in H2 as [Hl2 ->].
  destruct out as [|x [|y [|z out]]]; try discriminate. reflexivity.
Qed.

Lemma row_table_two (rws : list (list Z)) (i : nat) :
  row_table 2 rws -> (i < length rws)%nat ->
  rws !! i = Some [Z.of_nat i mod 2; (Z.of_nat i + 1) mod 2].
Proof.
  intros (H0 & Hstep & _). induction i as [|i IH]; intros Hi.
  - destruct (lookup_lt_is_Some_2 rws 0 Hi) as [row Hrow].
    rewrite Hrow, (H0 row Hrow). reflexivity.
  - specialize (IH ltac:(lia)).
    destruct (lookup_lt_is_Some_2 rws (S i) Hi) as [row Hrow].
    destruct (Hstep i _ row IH Hrow) as (out & r & Hout & Hperm & _).
    apply permute_devs_swap in Hperm; [|lia]. rewrite Hrow, Hperm.
    replace (Z.of_nat (S i)) with (Z.of_nat i + 1) by lia.
    replace (Z.of_nat i + 1 + 1) with (Z.of_nat i + 1 * 2) by lia.
    rewrite Z_mod_plus_full. reflexivity.
Qed.

(** X10.  With two devices the map does not depend on the random stream:
    [permute_devs] swaps the two devices, so row [i] of the map is
    [[i % 2; (i + 1) % 2]], and [new_map] leaves the stream where it
    was. *)
Theorem new_map_two_devices (ng ns nr rng i : Z) :
  ng <> 0 -> 0 <= i < nr ->
  exists map,
    new_map 2 ng ns nr rng = Returned (map, rng) /\
    rows map !! Z.to_nat i = Some [i mod 2; (i + 1) mod 2].
Proof.
  intros Hng Hi.
  destruct (new_map_returns 2 ng ns nr rng) as (rws & Hrun & Hlen & Htab);
    [lia|exact Hng|lia|].
  eexists. split; [exact Hrun|]. cbn [rows].
  rewrite (row_table_two rws (Z.to_nat i) Htab) by lia.
  rewrite Z2Nat.id by lia. reflexivity.
Qed.

Lemma new_map_two_devices_witness :
  exists map,
    new_map 2 1 0 4 rand48_default = Returned (map, rand48_default) /\
    rows map !! 3%nat = Some [1; 0].
Proof.
  apply (new_map_two_devices 1 0 4 rand48_default 3); lia.
Defined.

End DraidProofs.
